(** * Engram evaluation harnesses: a shallow embedding and its properties

    The repository's sources are the evaluation scripts of the Engram
    memory engine (eval-honest.ts, eval-scale.ts, eval-enron.ts,
    eval-rag-baseline.ts, eval-locomo.ts, eval-codebase.ts, and with them
    eval-enron-stress.ts, eval-codebase-v2.ts, eval-locomo-openai.ts and
    the Letta evaluation).  This file embeds functions of those scripts,
    first the ones the specification speaks about, and proves what they
    do.

    Numbers.  The vector search runs on JavaScript numbers as they are,
    IEEE 754 doubles, through the primitive binary64 floats ([JsDouble]);
    its sort is [Array.prototype.sort] as ECMAScript defines it, which
    fixes the order for a consistent comparator and leaves it to the
    engine otherwise.  The algebra of [cosineSim] is stated over exact
    real arithmetic ([Js]): there a finite value is a real, the two
    infinities and NaN are separate values, and there is no negative
    zero.  Where a function needs no square root its numbers are
    rationals, so that it can be evaluated; loops run on fuel, and enough
    fuel is shown to exist.

    The vault that the scripts call is not among the sources; the parts of
    it that the specification speaks about are modelled from the
    specification, in the modules [Memories], [Store] and [Recall]. *)

From Stdlib Require Import String Ascii DecimalString.
From Stdlib Require Import Reals Lra Lia ZArith QArith Qround Qminmax Bool
  List Permutation Sorted.
From Stdlib Require Lqa.
From Stdlib Require OrderedTypeEx.
From Stdlib Require Floats.
From stdpp Require gmap strings.
Import ListNotations.

(* ================================================================== *)
(** ** JavaScript numbers over exact reals, and arrays *)
(* ================================================================== *)

Module Js.

Inductive num : Type :=
| Fin (r : R)
| Inf (positive : bool)
| NaN.

Definition is_zero (r : R) : bool := if Req_dec_T r 0 then true else false.
Definition is_neg (r : R) : bool := if Rlt_dec r 0 then true else false.
Definition is_pos (r : R) : bool := if Rlt_dec 0 r then true else false.

Definition add (x y : num) : num :=
  match x, y with
  | NaN, _ => NaN
  | _, NaN => NaN
  | Fin a, Fin b => Fin (a + b)
  | Inf s, Fin _ => Inf s
  | Fin _, Inf s => Inf s
  | Inf s, Inf t => if Bool.eqb s t then Inf s else NaN
  end.

Definition mul (x y : num) : num :=
  match x, y with
  | NaN, _ => NaN
  | _, NaN => NaN
  | Fin a, Fin b => Fin (a * b)
  | Inf s, Fin a => if is_zero a then NaN else Inf (Bool.eqb s (is_pos a))
  | Fin a, Inf s => if is_zero a then NaN else Inf (Bool.eqb s (is_pos a))
  | Inf s, Inf t => Inf (Bool.eqb s t)
  end.

(** [x / y]: a zero divisor gives NaN for a zero dividend and an infinity
    of the dividend's sign otherwise. *)
Definition div (x y : num) : num :=
  match x, y with
  | NaN, _ => NaN
  | _, NaN => NaN
  | Fin a, Fin b =>
      if is_zero b then (if is_zero a then NaN else Inf (is_pos a))
      else Fin (a / b)
  | Fin _, Inf _ => Fin 0
  | Inf s, Fin b => Inf (if is_neg b then negb s else s)
  | Inf _, Inf _ => NaN
  end.

(** [Math.sqrt] *)
Definition sqrt (x : num) : num :=
  match x with
  | Fin a => if is_neg a then NaN else Fin (R_sqrt.sqrt a)
  | Inf true => Inf true
  | Inf false => NaN
  | NaN => NaN
  end.

(** [a[i]] used as a number: a missing element is [undefined], which
    arithmetic turns into NaN. *)
Definition get (a : list R) (i : nat) : num :=
  match nth_error a i with
  | Some v => Fin v
  | None => NaN
  end.

(** The sign a comparator's result has for [Array.prototype.sort]: a NaN
    result counts as zero. *)
Definition positive (v : num) : bool :=
  match v with
  | Fin r => is_pos r
  | Inf s => s
  | NaN => false
  end.

(** [Array.prototype.sort(comparefn)] for a comparator that is
    consistent, as the order of strings is.  The sort is stable, and for
    a consistent comparator every stable sort gives the same array; the
    model is the stable insertion sort: an element moves behind a later
    one only when [comparefn] of the two is positive. *)
Section Sort.
Context {A : Type} (comparefn : A -> A -> num).

Fixpoint insert (x : A) (l : list A) : list A :=
  match l with
  | [] => [x]
  | y :: l' =>
      if positive (comparefn x y) then y :: insert x l' else x :: y :: l'
  end.

Fixpoint sort (l : list A) : list A :=
  match l with
  | [] => []
  | x :: l' => insert x (sort l')
  end.
End Sort.

(** [Array.prototype.slice(start, end)] with integer arguments: a negative
    index counts from the end of the array. *)
Definition rel_index (len k : Z) : Z :=
  if (k <? 0)%Z then Z.max (len + k) 0 else Z.min k len.

Definition slice {A : Type} (l : list A) (start fin : Z) : list A :=
  let len := Z.of_nat (length l) in
  let k := rel_index len start in
  let final := rel_index len fin in
  firstn (Z.to_nat (final - k)) (skipn (Z.to_nat k) l).

(** [s.includes(sub)] *)
Definition includes (s sub : string) : bool :=
  match index 0 sub s with
  | Some _ => true
  | None => false
  end.

(** The truth value of an optional string: [undefined] and the empty
    string are falsy. *)
Definition truthy (x : option string) : bool :=
  match x with
  | Some EmptyString => false
  | Some _ => true
  | None => false
  end.

(** [a.findIndex(p)], counting from [i]: -1 when no element passes. *)
Fixpoint findIndexFrom {A : Type} (p : A -> bool) (l : list A) (i : Z) : Z :=
  match l with
  | [] => (-1)%Z
  | x :: rest => if p x then i else findIndexFrom p rest (i + 1)%Z
  end.

Definition findIndex {A : Type} (p : A -> bool) (l : list A) : Z :=
  findIndexFrom p l 0.

End Js.

(* ================================================================== *)
(** ** JavaScript numbers as IEEE 754 doubles *)
(* ================================================================== *)

Module JsDouble.
Import PrimFloat.
Local Open Scope float_scope.

(** A JavaScript number is an IEEE 754 binary64 value.  [float] is that
    format, and [+], [-], [*], [/] and [Math.sqrt] are its correctly
    rounded operations [add], [sub], [mul], [div] and [sqrt]; the
    comparisons [<?] and [<=?] are false when an argument is NaN. *)
Definition number : Set := float.

(** [a[i]] used as a number: a missing element is [undefined], which
    arithmetic turns into NaN. *)
Definition get (a : list number) (i : nat) : number :=
  match nth_error a i with
  | Some v => v
  | None => nan
  end.

(** What [Array.prototype.sort] reads from a call of the comparator: a
    NaN result is read as +0, and of the number only the sign is used. *)
Definition sign (v : number) : comparison :=
  if v <? 0 then Lt else if 0 <? v then Gt else Eq.

(** [Array.prototype.sort(comparefn)].  ECMAScript fixes the result when
    the comparator is consistent for the elements of the array: the sort
    is stable, and the array is the stable sort of its elements.  When the
    comparator is not consistent the order is implementation-defined: it
    is the order that the engine's own sort gives, [engineOrder], an input
    of the model as the network and the embedder are.
    [consistentAt] has the conditions of the language on three elements:
    [a =C a]; [a =C b] implies [b =C a]; and [=C], [<C] and [>C] are
    transitive.  [stableSort] is the stable insertion sort: an element
    moves behind a later one only when the comparator of the two is
    positive. *)
Section Sort.
Context {A : Type}.
Variable engineOrder : (A -> A -> number) -> list A -> list A.
Variable comparefn : A -> A -> number.

Definition order (x y : A) : comparison := sign (comparefn x y).

Definition tie (x y : A) : bool :=
  match order x y with Eq => true | _ => false end.

Definition before (x y : A) : bool :=
  match order x y with Lt => true | _ => false end.

Definition after (x y : A) : bool :=
  match order x y with Gt => true | _ => false end.

Definition consistentAt (a b c : A) : bool :=
  tie a a &&
  implb (tie a b) (tie b a) &&
  implb (tie a b && tie b c) (tie a c) &&
  implb (before a b && before b c) (before a c) &&
  implb (after a b && after b c) (after a c).

Definition consistent (l : list A) : bool :=
  forallb (fun a => forallb (fun b => forallb (consistentAt a b) l) l) l.

Fixpoint insert (x : A) (l : list A) : list A :=
  match l with
  | [] => [x]
  | y :: l' => if after x y then y :: insert x l' else x :: y :: l'
  end.

Fixpoint stableSort (l : list A) : list A :=
  match l with
  | [] => []
  | x :: l' => insert x (stableSort l')
  end.

Definition sort (l : list A) : list A :=
  if consistent l then stableSort l else engineOrder comparefn l.
End Sort.

End JsDouble.

(* ================================================================== *)
(** ** eval-honest.ts, eval-scale.ts, eval-enron.ts: markdown vector search *)
(* ================================================================== *)

Module EvalHonest.
Import Js.

(** *** [cosineSim] over exact real arithmetic

    The loop of [cosineSim] read over the reals, with NaN and the
    infinities as separate values: the function whose algebra is stated
    over exact real arithmetic.  The search below does not use it; it
    runs on doubles. *)

(** One pass of the loop body of [cosineSim]. *)
Definition cosineStep (a b : list R) (acc : num * num * num) (i : nat)
  : num * num * num :=
  let '(dot, normA, normB) := acc in
  (add dot (mul (get a i) (get b i)),
   add normA (mul (get a i) (get a i)),
   add normB (mul (get b i) (get b i))).

(** [cosineSim(a, b)]: the loop runs over the indices of [a]. *)
Definition cosineSim (a b : list R) : num :=
  let '(dot, normA, normB) :=
    fold_left (cosineStep a b) (seq 0 (length a)) (Fin 0, Fin 0, Fin 0) in
  div dot (mul (sqrt normA) (sqrt normB)).

(** *** The search, in double precision *)

Module Double.
Import PrimFloat.
Local Open Scope float_scope.

(** One pass of the loop body of [cosineSim]. *)
Definition cosineStep (a b : list float) (acc : float * float * float)
  (i : nat) : float * float * float :=
  let '(dot, normA, normB) := acc in
  (dot + JsDouble.get a i * JsDouble.get b i,
   normA + JsDouble.get a i * JsDouble.get a i,
   normB + JsDouble.get b i * JsDouble.get b i).

(** [cosineSim(a, b)]: the loop runs over the indices of [a]. *)
Definition cosineSim (a b : list float) : float :=
  let '(dot, normA, normB) :=
    fold_left (cosineStep a b) (seq 0 (length a))
      (0%float, 0%float, 0%float) in
  dot / (PrimFloat.sqrt normA * PrimFloat.sqrt normB).

End Double.

Record Scored : Type := mkScored { chunk : string; score : PrimFloat.float }.

(** [cosineSim(queryEmb, embeddings[i])] where [embeddings[i]] may be
    missing: indexing [undefined] raises a TypeError in the first pass of
    the loop, and with an empty query the loop does not run and the result
    is 0/0.  [None] stands for the raised error. *)
Definition scoreAt (queryEmb : list PrimFloat.float)
  (embeddings : list (list PrimFloat.float)) (i : nat)
  : option PrimFloat.float :=
  match nth_error embeddings i with
  | Some e => Some (Double.cosineSim queryEmb e)
  | None =>
      match queryEmb with
      | [] => Some PrimFloat.nan
      | _ :: _ => None
      end
  end.

(** [chunks.map((chunk, i) => ({chunk, score: ...}))], from index [i] on. *)
Fixpoint scoreChunks (queryEmb : list PrimFloat.float)
  (embeddings : list (list PrimFloat.float))
  (i : nat) (chunks : list string) : option (list Scored) :=
  match chunks with
  | [] => Some []
  | c :: rest =>
      match scoreAt queryEmb embeddings i with
      | None => None
      | Some s =>
          match scoreChunks queryEmb embeddings (S i) rest with
          | None => None
          | Some l => Some (mkScored c s :: l)
          end
      end
  end.

(** The comparator [(a, b) => b.score - a.score]. *)
Definition byScoreDesc (a b : Scored) : PrimFloat.float :=
  PrimFloat.sub (score b) (score a).

(** The engine's own sort of scored chunks, which [Array.prototype.sort]
    follows where the comparator is not consistent. *)
Definition EngineOrder : Type :=
  (Scored -> Scored -> PrimFloat.float) -> list Scored -> list Scored.

(** [vectorSearchMarkdown], after the query has been embedded:
    [queryEmb] is the result of [embedder.embed(query)].  [None] stands
    for the TypeError of a missing embedding. *)
Definition vectorSearchMarkdown (engineOrder : EngineOrder)
  (queryEmb : list PrimFloat.float)
  (chunks : list string) (embeddings : list (list PrimFloat.float))
  (limit : Z) : option (list string) :=
  match scoreChunks queryEmb embeddings 0 chunks with
  | None => None
  | Some scored =>
      Some (map chunk
              (slice (JsDouble.sort engineOrder byScoreDesc scored) 0 limit))
  end.

(** *** The Engram Quality Score

    [computeEQS] and the scoring of [runScenario] use only sums, products,
    quotients, [Math.max], [Math.min] and rounding; their numbers are
    modelled as exact rationals, and NaN, which arises only as the quotient
    0/0 of an empty run, as [None]. *)

Record ScenarioResult : Type := mkResult {
  name : string;
  category : string;
  accuracy : Q;
  relevance : Q;
  freshness : Q;
  efficiency : Q;
  latencyMs : Q;
  passed : bool;
  details : option string
}.

Record Weights : Type := mkWeights {
  wAccuracy : Q;
  wRelevance : Q;
  wFreshness : Q;
  wEfficiency : Q;
  wLatency : Q
}.

Definition weights : Weights :=
  mkWeights (40 # 100) (20 # 100) (15 # 100) (15 # 100) (10 # 100).

Record Totals : Type := mkTotals {
  totalAccuracy : Q;
  totalRelevance : Q;
  totalFreshness : Q;
  totalEfficiency : Q;
  totalLatency : Q
}.

(** Latency score: below 50 ms is 1, above 500 ms is 0, linear between. *)
Definition latencyScore (ms : Q) : Q :=
  Qmax 0 (Qmin 1 (1 - (ms - 50) / 450)).

(** One pass of [for (const r of results)]. *)
Definition addResult (t : Totals) (r : ScenarioResult) : Totals :=
  mkTotals (totalAccuracy t + accuracy r)
           (totalRelevance t + relevance r)
           (totalFreshness t + freshness r)
           (totalEfficiency t + efficiency r)
           (totalLatency t + latencyScore (latencyMs r)).

(** [Math.round]: the nearest integer, halves upwards. *)
Definition round (x : Q) : Z := Qfloor (x + (1 # 2)).

Definition eqsScore (t : Totals) (n : Q) : Q :=
  (totalAccuracy t / n) * wAccuracy weights +
  (totalRelevance t / n) * wRelevance weights +
  (totalFreshness t / n) * wFreshness weights +
  (totalEfficiency t / n) * wEfficiency weights +
  (totalLatency t / n) * wLatency weights.

Definition computeEQS (results : list ScenarioResult) : option Z :=
  let t := fold_left addResult results (mkTotals 0 0 0 0 0) in
  match results with
  | [] => None
  | _ :: _ =>
      let n := inject_Z (Z.of_nat (length results)) in
      Some (round (eqsScore t n * 100))
  end.

(** *** The scoring of [runScenario]

    The part of [runScenario] after the recall: [recalled] are the contents
    the vault returned and [latencyMs] the measured time. *)

Record Scenario : Type := mkScenario {
  scenarioName : string;
  scenarioCategory : string;
  query : string;
  expectedHits : list string;
  expectedMisses : option (list string);
  expectedFirst : option string;
  idealResultCount : option Q
}.

Definition ofNat (n : nat) : Q := inject_Z (Z.of_nat n).

(** [recalled.some(r => r.includes(e))] *)
Definition recalledIncludes (recalled : list string) (e : string) : bool :=
  existsb (fun r => includes r e) recalled.

(** [expectedMisses ?? []] *)
Definition missesOf (sc : Scenario) : list string :=
  match expectedMisses sc with
  | Some l => l
  | None => []
  end.

Definition hitsFound (sc : Scenario) (recalled : list string) : nat :=
  fold_left (fun n expected =>
               if recalledIncludes recalled expected then S n else n)
    (expectedHits sc) O.

Definition accuracyOf (sc : Scenario) (recalled : list string) : Q :=
  if (0 <? length (expectedHits sc))%nat
  then ofNat (hitsFound sc recalled) / ofNat (length (expectedHits sc))
  else 1.

Definition relevantCount (sc : Scenario) (recalled : list string) : Q :=
  fold_left (fun count r =>
               if existsb (fun e => includes r e) (expectedHits sc)
               then count + 1
               else if existsb (fun e => includes r e) (missesOf sc)
                    then count - (1 # 2)
                    else count)
    recalled 0.

Definition relevanceOf (sc : Scenario) (recalled : list string) : Q :=
  if (0 <? length recalled)%nat
  then Qmax 0 (Qmin 1 (relevantCount sc recalled / ofNat (length recalled)))
  else 0.

Definition freshnessOf (sc : Scenario) (recalled : list string) : Q :=
  if truthy (expectedFirst sc) then
    let first := match expectedFirst sc with
                 | Some e => e
                 | None => EmptyString
                 end in
    if match recalled with
       | r0 :: _ => includes r0 first
       | [] => false
       end
    then 1
    else if recalledIncludes recalled first then
      let pos := findIndex (fun r => includes r first) recalled in
      Qmax 0 (1 - inject_Z pos / ofNat (length recalled))
    else 0
  else 1.

(** [ideal] is [idealResultCount ?? expectedHits.length].  With [ideal]
    zero and a longer result the quotient is +Infinity and the maximum is
    0; the rationals have no infinity, so that case is written out. *)
Definition efficiencyOf (sc : Scenario) (recalled : list string) : Q :=
  let ideal := match idealResultCount sc with
               | Some c => c
               | None => ofNat (length (expectedHits sc))
               end in
  if Qle_bool (ofNat (length recalled)) ideal then 1
  else if Qeq_bool ideal 0 then 0
  else Qmax 0 (1 - (ofNat (length recalled) - ideal) / (ideal * 2)).

Definition detailsOf (sc : Scenario) (recalled : list string) : option string :=
  let missingHits :=
    filter (fun e => negb (recalledIncludes recalled e)) (expectedHits sc) in
  let unwantedHits :=
    filter (fun e => recalledIncludes recalled e) (missesOf sc) in
  match missingHits, unwantedHits with
  | [], [] => None
  | _, _ =>
      let parts :=
        (match missingHits with
         | [] => []
         | _ => [append "missing: " (String.concat ", " missingHits)]
         end ++
         match unwantedHits with
         | [] => []
         | _ => [append "unwanted: " (String.concat ", " unwantedHits)]
         end)%list in
      Some (String.concat " | " parts)
  end.

Definition scoreScenario (sc : Scenario) (recalled : list string)
  (latency : Q) : ScenarioResult :=
  let acc := accuracyOf sc recalled in
  mkResult (scenarioName sc) (scenarioCategory sc)
    acc (relevanceOf sc recalled) (freshnessOf sc recalled)
    (efficiencyOf sc recalled) latency
    (Qle_bool (1 # 2) acc) (detailsOf sc recalled).

(** Vocabulary of the statements: a result whose four scores lie in [0,1]
    and whose latency is not negative. *)
Definition unit_interval (x : Q) : Prop := 0 <= x /\ x <= 1.

Definition well_scored (r : ScenarioResult) : Prop :=
  unit_interval (accuracy r) /\ unit_interval (relevance r) /\
  unit_interval (freshness r) /\ unit_interval (efficiency r) /\
  0 <= latencyMs r.

(** Totals that lie between 0 and [k]. *)
Definition totals_within (t : Totals) (k : Q) : Prop :=
  (0 <= totalAccuracy t /\ totalAccuracy t <= k) /\
  (0 <= totalRelevance t /\ totalRelevance t <= k) /\
  (0 <= totalFreshness t /\ totalFreshness t <= k) /\
  (0 <= totalEfficiency t /\ totalEfficiency t <= k) /\
  (0 <= totalLatency t /\ totalLatency t <= k).

End EvalHonest.

(* ================================================================== *)
(** ** eval-codebase.ts: chunkFile *)
(* ================================================================== *)

Module EvalCodebase.
Local Open Scope Z_scope.

Record CodeFile : Type := mkCodeFile {
  path : string;
  content : string;
  language : string;
  lines : Z;
  size : Z
}.

Record Chunk : Type := mkChunk { chunkContent : string; part : Z }.

Definition newline : ascii := ascii_of_nat 10.

(** [s.lastIndexOf(c, position)] for a one-character [c]: the last index
    not above [position] (taken as 0 when negative) that holds [c], or -1.
    [lastIndexFrom] scans [s], whose first character has index [i]. *)
Fixpoint lastIndexFrom (c : ascii) (limit : Z) (s : string) (i found : Z) : Z :=
  match s with
  | EmptyString => found
  | String ch rest =>
      if limit <? i then found
      else lastIndexFrom c limit rest (i + 1)
             (if Ascii.eqb ch c then i else found)
  end.

Definition lastIndexOf (s : string) (c : ascii) (position : Z) : Z :=
  lastIndexFrom c (Z.max 0 position) s 0 (-1).

(** [s.slice(start, end)] *)
Definition slice (s : string) (start fin : Z) : string :=
  let len := Z.of_nat (String.length s) in
  let k := Js.rel_index len start in
  let final := Js.rel_index len fin in
  substring (Z.to_nat k) (Z.to_nat (final - k)) s.

(** The [while] loop of [chunkFile].  [maxChars] and [overlap] are integers;
    the test [lastNewline > start + maxChars / 2] is written without the
    division.  [None] is a loop that has not ended within [fuel] passes. *)
Fixpoint chunkLoop (fuel : nat) (content : string) (maxChars overlap : Z)
  (start part : Z) (chunks : list Chunk) : option (list Chunk) :=
  let len := Z.of_nat (String.length content) in
  if start <? len then
    match fuel with
    | O => None
    | S fuel' =>
        let end_ := Z.min (start + maxChars) len in
        let breakPoint :=
          if end_ <? len then
            let lastNewline := lastIndexOf content newline end_ in
            if 2 * start + maxChars <? 2 * lastNewline
            then lastNewline + 1 else end_
          else end_ in
        let chunks := app chunks [mkChunk (slice content start breakPoint) part] in
        let start := breakPoint - overlap in
        let start := if start <? 0 then 0 else start in
        let part := part + 1 in
        if 50 <? part then Some chunks
        else chunkLoop fuel' content maxChars overlap start part chunks
    end
  else Some chunks.

Definition chunkFile (fuel : nat) (file : CodeFile) (maxChars overlap : Z)
  : option (list Chunk) :=
  if Z.of_nat (String.length (content file)) <=? maxChars then
    Some [mkChunk (content file) 1]
  else chunkLoop fuel (content file) maxChars overlap 0 1 [].

(** The default arguments [maxChars = 2000] and [overlap = 200]. *)
Definition chunkFileDefault (fuel : nat) (file : CodeFile) : option (list Chunk) :=
  chunkFile fuel file 2000 200.

End EvalCodebase.

(* ================================================================== *)
(** ** The network as the Gemini helpers see it *)
(* ================================================================== *)

Module Http.

(** A thrown JavaScript error: [err.name], [err.message], [err.cause?.code]. *)
Record JsError : Type := mkError {
  name : string;
  message : string;
  causeCode : option string
}.

(** A parsed response body: [data.candidates?.[0]?.content?.parts?.[0]?.text]
    and [JSON.stringify(data)]. *)
Record Data : Type := mkData {
  candidateText : option string;
  stringified : string
}.

(** A response: its status, and what [response.text()] and
    [response.json()] give (either may throw). *)
Record Response : Type := mkResponse {
  status : Z;
  text : JsError + string;
  json : JsError + Data
}.

(** [response.ok] *)
Definition ok (r : Response) : bool :=
  ((200 <=? status r) && (status r <=? 299))%Z.

(** What [fetch] does on one call. *)
Inductive Fetched : Type :=
| Resolved (r : Response)
| Rejected (e : JsError).

(** What a helper does that the outside can see, in order. *)
Inductive Event : Type :=
| RateLimitWait (ms : Z)
| FetchCall (attempt : Z)
| Backoff (attempt : Z) (ms : Z).

Inductive Outcome : Type :=
| Returned (s : string)
| Thrown (e : JsError).

Definition includes : string -> string -> bool := Js.includes.

(** Decimal rendering of an integer in a template string. *)
Definition showZ (z : Z) : string :=
  DecimalString.NilZero.string_of_int (Z.to_int z).

(** [x || ''] for an optional string. *)
Definition orEmpty (x : option string) : string :=
  match x with
  | Some s => s
  | None => EmptyString
  end.

Definition truthy : option string -> bool := Js.truthy.

Definition fetches (evs : list Event) : list Z :=
  flat_map (fun e => match e with FetchCall k => [k] | _ => [] end) evs.

Definition backoffs (evs : list Event) : list Z :=
  flat_map (fun e => match e with Backoff _ ms => [ms] | _ => [] end) evs.

Definition isThrown (o : Outcome) : Prop :=
  match o with
  | Thrown _ => True
  | Returned _ => False
  end.

(** [len] consecutive integers from [start]. *)
Fixpoint zseq (start : Z) (len : nat) : list Z :=
  match len with
  | O => []
  | S len' => start :: zseq (start + 1) len'
  end.

(** Delays that grow exponentially: each is larger than the one before,
    and consecutive delays are in one ratio. *)
Definition exponential_backoff (ds : list Z) : Prop :=
  (forall i a b,
     nth_error ds i = Some a -> nth_error ds (S i) = Some b -> (a < b)%Z) /\
  (forall i a b c,
     nth_error ds i = Some a -> nth_error ds (S i) = Some b ->
     nth_error ds (S (S i)) = Some c -> (b * b = a * c)%Z).

(** Two scripted networks: every call is answered with HTTP 429, and every
    call times out. *)
Definition always429 (_ : Z) : Fetched :=
  Resolved (mkResponse 429 (inr EmptyString)
              (inr (mkData None EmptyString))).

Definition alwaysTimeout (_ : Z) : Fetched :=
  Rejected (mkError "TimeoutError" "The operation was aborted due to timeout"
              None).

End Http.

(* ================================================================== *)
(** ** eval-locomo.ts: callGemini *)
(* ================================================================== *)

Module Locomo.
Import Http.
Local Open Scope Z_scope.

Definition RATE_LIMIT_MS : Z := 800.
Definition MAX_RETRIES : Z := 10.

(** [RATE_LIMIT_MS * Math.pow(2, attempt)] *)
Definition backoff (attempt : Z) : Z := RATE_LIMIT_MS * 2 ^ attempt.

(** The test of the catch block for an error worth another attempt. *)
Definition isNetworkError (err : JsError) : bool :=
  match causeCode err with
  | Some c => String.eqb c "ECONNRESET" || String.eqb c "ETIMEDOUT"
  | None => false
  end
  || includes (message err) "fetch failed"
  || String.eqb (name err) "TimeoutError"
  || String.eqb (name err) "AbortError".

(** What one pass of the loop decides. *)
Inductive Pass : Type :=
| Continue                  (* sleep(backoff); continue *)
| Finish (o : Outcome).      (* return or throw out of the function *)

Definition catchBlock (attempt : Z) (err : JsError) : Pass :=
  if (attempt <? MAX_RETRIES) && isNetworkError err then Continue
  else Finish (Thrown err).

Definition tryBlock (attempt : Z) (f : Fetched) : Pass :=
  match f with
  | Rejected err => catchBlock attempt err
  | Resolved response =>
      if (status response =? 429) || (500 <=? status response) then Continue
      else if negb (ok response) then
        match text response with
        | inl err => catchBlock attempt err
        | inr body =>
            catchBlock attempt
              (mkError "Error"
                 (append "Gemini API failed: "
                    (append (showZ (status response)) (append " " body)))
                 None)
        end
      else
        match json response with
        | inl err => catchBlock attempt err
        | inr data => Finish (Returned (orEmpty (candidateText data)))
        end
  end.

(** The loop [for (attempt = 1; attempt <= MAX_RETRIES; attempt++)], from
    [attempt] on; [net k] is what [fetch] does in pass [k].  [None] is a
    loop that has not ended within [fuel] passes. *)
Fixpoint callGeminiLoop (fuel : nat) (net : Z -> Fetched) (attempt : Z)
  : option (list Event * Outcome) :=
  if attempt <=? MAX_RETRIES then
    match fuel with
    | O => None
    | S fuel' =>
        let pre := [RateLimitWait RATE_LIMIT_MS; FetchCall attempt] in
        match tryBlock attempt (net attempt) with
        | Finish o => Some (pre, o)
        | Continue =>
            match callGeminiLoop fuel' net (attempt + 1) with
            | None => None
            | Some (evs, o) =>
                Some (app pre (Backoff attempt (backoff attempt) :: evs), o)
            end
        end
    end
  else
    Some ([], Thrown (mkError "Error" "Gemini API failed after 10 retries" None)).

Definition callGemini (fuel : nat) (net : Z -> Fetched)
  : option (list Event * Outcome) :=
  callGeminiLoop fuel net 1.

End Locomo.

(* ================================================================== *)
(** ** eval-rag-baseline.ts *)
(* ================================================================== *)

Module RagBaseline.
Import Http.
Local Open Scope Z_scope.

Inductive Pass : Type :=
| Continue (ms : Z)          (* sleep(ms), then the next pass *)
| Finish (o : Outcome).

Definition catchBlock (attempt : Z) (e : JsError) : Pass :=
  if attempt =? 2 then Finish (Thrown e) else Continue 3000.

Definition tryBlock (attempt : Z) (f : Fetched) : Pass :=
  match f with
  | Rejected e => catchBlock attempt e
  | Resolved res =>
      if status res =? 429 then Continue (5000 * (attempt + 1))
      else
        match json res with
        | inl e => catchBlock attempt e
        | inr data =>
            if truthy (candidateText data)
            then Finish (Returned (orEmpty (candidateText data)))
            else catchBlock attempt (mkError "Error" (stringified data) None)
        end
  end.

(** The loop [for (attempt = 0; attempt < 3; attempt++)], from [attempt]
    on.  [None] is a loop that has not ended within [fuel] passes. *)
Fixpoint callGeminiLoop (fuel : nat) (net : Z -> Fetched) (attempt : Z)
  : option (list Event * Outcome) :=
  if attempt <? 3 then
    match fuel with
    | O => None
    | S fuel' =>
        match tryBlock attempt (net attempt) with
        | Finish o => Some ([FetchCall attempt], o)
        | Continue ms =>
            match callGeminiLoop fuel' net (attempt + 1) with
            | None => None
            | Some (evs, o) =>
                Some (FetchCall attempt :: Backoff attempt ms :: evs, o)
            end
        end
    end
  else Some ([], Thrown (mkError "Error" "Failed after 3 attempts" None)).

Definition callGemini (fuel : nat) (net : Z -> Fetched)
  : option (list Event * Outcome) :=
  callGeminiLoop fuel net 0.

(** The store, as far as the baseline uses it.  [./src/store.js] is not
    among the sources; its two methods are taken as they are called. *)
Inductive Status : Type :=
| active | pending | fulfilled | superseded | archived.

Definition Status_eqb (a b : Status) : bool :=
  match a, b with
  | active, active | pending, pending | fulfilled, fulfilled
  | superseded, superseded | archived, archived => true
  | _, _ => false
  end.

Record Memory : Type := mkMemory {
  id : string;
  content : string;
  mstatus : Status
}.

Record VectorResult : Type := mkVectorResult { memoryId : string }.

Record MemoryStore : Type := mkStore {
  searchByVector : list R -> Z -> list VectorResult;
  getMemoryDirect : string -> option Memory
}.

(** One pass of [for (const vr of vectorResults)]. *)
Definition pushMemory (store : MemoryStore) (memories : list string)
  (vr : VectorResult) : list string :=
  match getMemoryDirect store (memoryId vr) with
  | Some mem =>
      if negb (Status_eqb (mstatus mem) archived)
      then app memories [content mem]
      else memories
  | None => memories
  end.

(** The array [memories] when the loop has ended. *)
Definition recalledMemories (store : MemoryStore) (queryEmbedding : list R)
  : list string :=
  fold_left (pushMemory store) (searchByVector store queryEmbedding 20) [].

Definition newline : string := String (ascii_of_nat 10) EmptyString.

(** [memories.join('\n\n')] *)
Definition contextOf (memories : list string) : string :=
  String.concat (append newline newline) memories.

Definition promptOf (context question : string) : string :=
  append "Based on the following memories, answer the question accurately and completely."
  (append newline (append newline (append "Memories:" (append newline
  (append context (append newline (append newline (append "Question: "
  (append question (append newline (append newline "Answer:"))))))))))).

Record Answer : Type := mkAnswer {
  answer : string;
  tokensUsed : Z;
  memoriesRecalled : nat
}.

(** The prompt [answerWithBasicRAG] sends. *)
Definition ragPrompt (store : MemoryStore) (embed : string -> list R)
  (question : string) : string :=
  promptOf (contextOf (recalledMemories store (embed question))) question.

(** [answerWithBasicRAG].  [embed] is [embedder.embed], [gemini] the call
    of [callGemini] on the prompt, and [trim] is [String.prototype.trim]. *)
Definition answerWithBasicRAG (store : MemoryStore)
  (embed : string -> list R) (gemini : string -> Outcome)
  (trim : string -> string) (question : string) : JsError + Answer :=
  let queryEmbedding := embed question in
  let memories := recalledMemories store queryEmbedding in
  let prompt := ragPrompt store embed question in
  match gemini prompt with
  | Thrown e => inl e
  | Returned ans =>
      inr (mkAnswer (trim ans)
             ((Z.of_nat (String.length prompt) + Z.of_nat (String.length ans) + 3) / 4)
             (length memories))
  end.

(** Vocabulary of the statements: the memories the hits hydrate to, in
    the order of the hits, and the test the loop applies to each. *)
Definition hydrate (store : MemoryStore) (hits : list VectorResult)
  : list Memory :=
  flat_map (fun vr => match getMemoryDirect store (memoryId vr) with
                      | Some mem => [mem]
                      | None => []
                      end) hits.

Definition notArchived (mem : Memory) : bool :=
  negb (Status_eqb (mstatus mem) archived).

(** A store without memories, and a store whose vector search hits an
    archived memory, an active one and an id without a row. *)
Definition noMemories : MemoryStore :=
  mkStore (fun _ _ => []) (fun _ => None).

Definition oldPricing : Memory :=
  mkMemory "p1" "Pro costs $29/mo" archived.

Definition newPricing : Memory :=
  mkMemory "p2" "Tiers cost $49 and $199" active.

Definition pricingStore : MemoryStore :=
  mkStore
    (fun _ _ => [mkVectorResult "p1"; mkVectorResult "p2"; mkVectorResult "p3"])
    (fun i => if String.eqb i "p1" then Some oldPricing
              else if String.eqb i "p2" then Some newPricing
              else None).

End RagBaseline.

(* ================================================================== *)
(** ** The memory vault

    The vault itself ([./src/vault.js], [./src/store.js]) is not among the
    sources: the evaluation scripts only call it.  Its records, its store
    operations and the tail of its recall pipeline are modelled from the
    specification (sections 3, 4.1 and 4.5). *)
(* ================================================================== *)

Module Memories.

(** Modelled from the spec: the [type] of a memory (section 3); the vault's
    source is missing. *)
Inductive MemoryType : Type :=
| episodic | semantic | procedural | consolidated.

(** Modelled from the spec: the lifecycle [status] of a memory (section 3);
    the vault's source is missing. *)
Inductive Status : Type :=
| active | pending | fulfilled | superseded | archived.

(** Equality of statuses, as a test. *)
Definition Status_eqb (a b : Status) : bool :=
  match a, b with
  | active, active | pending, pending | fulfilled, fulfilled
  | superseded, superseded | archived, archived => true
  | _, _ => false
  end.

(** Modelled from the spec: the end of a validity interval, an instant or
    infinity, which means current truth (section 3). *)
Inductive Until : Type :=
| Instant (t : Z)
| Infinity.

(** Modelled from the spec: the memory record (section 3), without its
    embedding and its source tag; the vault's source is missing. *)
Record Memory : Type := mkMemory {
  id : string;
  content : string;
  mtype : MemoryType;
  status : Status;
  salience : Q;
  entities : list string;
  topics : list string;
  created_at : Z;
  valid_from : Z;
  valid_until : Until;
  last_accessed_at : Z;
  reinforcement_count : nat;
  superseded_by : option string
}.

(** Modelled from the spec: the comparisons [valid_until <= t] and
    [t < valid_until] with an end that may be infinity (section 3). *)
Definition until_le (u : Until) (t : Z) : Prop :=
  match u with
  | Instant v => (v <= t)%Z
  | Infinity => False
  end.

Definition before_until (t : Z) (u : Until) : bool :=
  match u with
  | Instant v => (t <? v)%Z
  | Infinity => true
  end.

(** Modelled from the spec: the half-open validity test
    [valid_from <= at < valid_until] (sections 3 and 4.5.1). *)
Definition validAt (t : Z) (m : Memory) : bool :=
  (valid_from m <=? t)%Z && before_until t (valid_until m).

(** Modelled from the spec: [valid_from <= t < valid_until], as a
    proposition (section 3). *)
Definition in_validity (t : Z) (m : Memory) : Prop :=
  (valid_from m <= t)%Z /\
  match valid_until m with
  | Instant v => (t < v)%Z
  | Infinity => True
  end.

Definition isActive (m : Memory) : bool := Status_eqb (status m) active.

Definition isArchived (m : Memory) : bool := Status_eqb (status m) archived.

(** Modelled from the spec: the updates of single fields that archival
    and decay make (section 3, Lifecycle). *)
Definition withStatus (st : Status) (m : Memory) : Memory :=
  mkMemory (id m) (content m) (mtype m) st (salience m) (entities m)
    (topics m) (created_at m) (valid_from m) (valid_until m)
    (last_accessed_at m) (reinforcement_count m) (superseded_by m).

Definition withSalience (x : Q) (m : Memory) : Memory :=
  mkMemory (id m) (content m) (mtype m) (status m) x (entities m)
    (topics m) (created_at m) (valid_from m) (valid_until m)
    (last_accessed_at m) (reinforcement_count m) (superseded_by m).

(** Modelled from the spec: "salience is clamped to [0,1]" (section 3). *)
Definition clamp01 (x : Q) : Q := Qmax 0 (Qmin 1 x).

End Memories.

Module Store.
Import stdpp.base stdpp.gmap stdpp.strings.
Import Memories.

(** Modelled from the spec: the kinds of edges (section 3). *)
Inductive EdgeKind : Type :=
| supports | contradicts | elaborates | supersedes
| entity_shared | temporal_next | user.

(** Modelled from the spec: a directed edge, without its weight and its
    creation time (section 3). *)
Record Edge : Type := mkEdge { src : string; dst : string; kind : EdgeKind }.

(** Modelled from the spec: the persisted state, memory rows keyed by id
    and the edge set (sections 3 and 6.3). *)
Record State : Type := mkState {
  memories : gmap string Memory;
  edges : list Edge
}.

(** Modelled from the spec: a vault that has just been created. *)
Definition emptyStore : State := mkState ∅ [].

(** Modelled from the spec: the error kinds of the store (section 7). *)
Inductive Error : Type :=
| InvalidPayload | Conflict | NotFound.

(** Modelled from the spec: what [remember] passes to [insert]: the
    content and the options [type], [entities], [topics], [salience] and
    [status] of section 6.1, with the id and the instant of the write. *)
Record NewMemory : Type := mkNew {
  newId : string;
  newContent : string;
  newType : MemoryType;
  newStatus : Status;
  newSalience : Q;
  newEntities : list string;
  newTopics : list string;
  now : Z
}.

(** Modelled from the spec: the row [insert] commits.  A new fact is
    current ([valid_until] is infinity), supersedes nothing and is
    superseded by nothing; its salience is clamped to [0,1]. *)
Definition rowOf (n : NewMemory) : Memory :=
  mkMemory (newId n) (newContent n) (newType n) (newStatus n)
    (clamp01 (newSalience n)) (newEntities n) (newTopics n)
    (now n) (now n) Infinity (now n) O None.

(** Modelled from the spec: [insert(memory)] fails with [Conflict] if the
    id exists (section 4.1).  The entity upserts and the [entity-shared]
    edges of the insert are left out. *)
Definition insert (n : NewMemory) (s : State) : Error + State :=
  match memories s !! newId n with
  | Some _ => inl Conflict
  | None => inr (mkState (<[newId n := rowOf n]> (memories s)) (edges s))
  end.

(** Modelled from the spec: [supersede(oldId, newId, at)] sets
    [old.valid_until = at], [old.status = superseded],
    [old.superseded_by = newId] and creates the [supersedes] edge from new
    to old, in one step (section 4.1).  An absent id is [NotFound]. *)
Definition supersede (oldId newId : string) (at_ : Z) (s : State)
  : Error + State :=
  match memories s !! oldId, memories s !! newId with
  | Some old, Some _ =>
      let old' :=
        mkMemory (id old) (content old) (mtype old) superseded
          (salience old) (entities old) (topics old) (created_at old)
          (valid_from old) (Instant at_) (last_accessed_at old)
          (reinforcement_count old) (Some newId) in
      inr (mkState (<[oldId := old']> (memories s))
                   (mkEdge newId oldId supersedes :: edges s))
  | _, _ => inl NotFound
  end.

(** An edge with [i] at one of its ends. *)
Definition touches (i : string) (e : Edge) : bool :=
  String.eqb (src e) i || String.eqb (dst e) i.

(** Modelled from the spec: [forget(id, hard)]: hard removes the row and
    its edges, soft sets the status to [archived] (section 4.1). *)
Definition forget (i : string) (hard : bool) (s : State) : Error + State :=
  match memories s !! i with
  | None => inl NotFound
  | Some m =>
      if hard then
        inr (mkState (delete i (memories s))
                     (List.filter (fun e => negb (touches i e)) (edges s)))
      else inr (mkState (<[i := withStatus archived m]> (memories s)) (edges s))
  end.

(** Modelled from the spec: [stamp(id, when)] updates [last_accessed_at]
    (section 4.1). *)
Definition stamp (i : string) (when : Z) (s : State) : Error + State :=
  match memories s !! i with
  | None => inl NotFound
  | Some m =>
      inr (mkState
             (<[i := mkMemory (id m) (content m) (mtype m) (status m)
                       (salience m) (entities m) (topics m) (created_at m)
                       (valid_from m) (valid_until m) when
                       (reinforcement_count m) (superseded_by m)]>
                (memories s))
             (edges s))
  end.

(** Modelled from the spec: [reinforce(id)] increments the count and
    raises the salience, clamped to [0,1] (sections 3 and 4.1).  The size
    of the increment is an argument. *)
Definition reinforce (i : string) (increment : Q) (s : State) : Error + State :=
  match memories s !! i with
  | None => inl NotFound
  | Some m =>
      inr (mkState
             (<[i := mkMemory (id m) (content m) (mtype m) (status m)
                       (clamp01 (salience m + Qmax 0 increment))
                       (entities m) (topics m) (created_at m)
                       (valid_from m) (valid_until m) (last_accessed_at m)
                       (S (reinforcement_count m)) (superseded_by m)]>
                (memories s))
             (edges s))
  end.

(** Modelled from the spec: decay reduces the salience by a step, clamped
    at 0 (sections 3 and 4.6). *)
Definition decay (i : string) (step : Q) (s : State) : Error + State :=
  match memories s !! i with
  | None => inl NotFound
  | Some m =>
      inr (mkState
             (<[i := withSalience (clamp01 (salience m - Qmax 0 step)) m]>
                (memories s))
             (edges s))
  end.

(** Modelled from the spec: the mutations of the store (section 3,
    Lifecycle): creation, reinforcement, supersession, access stamping,
    decay, archival or removal. *)
Inductive Op : Type :=
| Insert (n : NewMemory)
| Reinforce (i : string) (increment : Q)
| Supersede (oldId newId : string) (at_ : Z)
| Stamp (i : string) (when : Z)
| Decay (i : string) (step : Q)
| Forget (i : string) (hard : bool).

(** Modelled from the spec: one operation, as one transaction
    (section 4.1, Concurrency). *)
Definition apply (op : Op) (s : State) : Error + State :=
  match op with
  | Insert n => insert n s
  | Reinforce i inc => reinforce i inc s
  | Supersede o n t => supersede o n t s
  | Stamp i w => stamp i w s
  | Decay i st => decay i st s
  | Forget i h => forget i h s
  end.

(** Modelled from the spec: a sequence of operations, each a transaction
    of its own; the first error ends it. *)
Fixpoint run (ops : list Op) (s : State) : Error + State :=
  match ops with
  | [] => inr s
  | op :: rest =>
      match apply op s with
      | inl e => inl e
      | inr s' => run rest s'
      end
  end.

(** The invariant as the spec states it (sections 3 and 8): a memory is
    superseded exactly when [superseded_by] is set, and then the successor
    is an active memory that starts no earlier than this one ends. *)
Definition supersession_invariant (s : State) : Prop :=
  forall i m, memories s !! i = Some m ->
    (status m = superseded <-> superseded_by m <> None) /\
    (forall j, superseded_by m = Some j ->
       exists succ, memories s !! j = Some succ /\
                    status succ = active /\
                    until_le (valid_until m) (valid_from succ)).

(** What the operations of a run say about a row: a memory [i] was
    remembered with the status [st]. *)
Definition insertedAs (st : Status) (i : string) (ops : list Op) : Prop :=
  exists n, In (Insert n) ops /\ newId n = i /\ newStatus n = st.

(** The part of the invariant that every run keeps, told with the
    operations [ops] that have been applied.  A memory with
    [superseded_by = j] is superseded, or archived by a soft forget since,
    and its [valid_until] is the instant of the [supersede] that the run
    has applied to it; a superseded memory has [superseded_by] set unless
    it was remembered as superseded. *)
Definition traced (ops : list Op) (s : State) : Prop :=
  forall i m, memories s !! i = Some m ->
    (forall j, superseded_by m = Some j ->
       (status m = superseded \/
        (status m = archived /\ In (Forget i false) ops)) /\
       exists t, valid_until m = Instant t /\ In (Supersede i j t) ops) /\
    (status m = superseded ->
       superseded_by m <> None \/ insertedAs superseded i ops).

(** A run that calls [supersede] as the data model asks: the successor is
    active and starts no earlier than the instant [at] of the call.  The
    test is made in the state in which the operation is applied. *)
Definition orderlyOp (op : Op) (s : State) : Prop :=
  match op with
  | Supersede _ n t =>
      exists succ, memories s !! n = Some succ /\
                   status succ = active /\ (t <= valid_from succ)%Z
  | _ => True
  end.

Fixpoint orderly (ops : list Op) (s : State) : Prop :=
  match ops with
  | [] => True
  | op :: rest =>
      orderlyOp op s /\
      match apply op s with
      | inr s' => orderly rest s'
      | inl _ => True
      end
  end.

Definition noHardForget (ops : list Op) : Prop :=
  forall i, ~ In (Forget i true) ops.

(** The rest of the invariant, as orderly runs without a hard forget keep
    it: the successor of a superseded memory is there and starts no
    earlier than the memory ends, and it is active unless it has been
    superseded in its turn or forgotten softly. *)
Definition succeeded (s : State) : Prop :=
  forall i m j, memories s !! i = Some m -> superseded_by m = Some j ->
    exists succ, memories s !! j = Some succ /\
      until_le (valid_until m) (valid_from succ) /\
      (status succ = active \/ superseded_by succ <> None \/
       status succ = archived).

(** Three facts about one deadline, remembered at the instants 0, 10 and
    20, and a fact remembered with the status [superseded]. *)
Definition fact (i c : string) (st : Status) (t : Z) : NewMemory :=
  mkNew i c episodic st (1 # 2) [] [] t.

Definition deadlineHistory : list Op :=
  [ Insert (fact "a" "Deadline is March 1" active 0);
    Insert (fact "b" "Deadline is April 15" active 10);
    Insert (fact "c" "Deadline is May 1" active 20);
    Supersede "a" "b" 10;
    Supersede "b" "c" 20 ].

Definition outdatedFact : list Op :=
  [ Insert (fact "x" "CloudBase integration deadline is December 15."
              superseded 0) ].

(** A superseded fact that is then forgotten softly; a supersession whose
    instant lies behind the start of the successor; and a successor that
    is removed by a hard forget. *)
Definition forgottenFact : list Op :=
  [ Insert (fact "a" "Deadline is March 1" active 0);
    Insert (fact "b" "Deadline is April 15" active 10);
    Supersede "a" "b" 10;
    Forget "a" false ].

Definition lateSupersede : list Op :=
  [ Insert (fact "a" "Deadline is March 1" active 0);
    Insert (fact "b" "Deadline is April 15" active 10);
    Supersede "a" "b" 15 ].

Definition removedSuccessor : list Op :=
  [ Insert (fact "a" "Deadline is March 1" active 0);
    Insert (fact "b" "Deadline is April 15" active 10);
    Supersede "a" "b" 10;
    Forget "b" true ].

(** A successor that is forgotten softly, and a successor that was
    remembered as pending and is not active when it supersedes. *)
Definition archivedSuccessor : list Op :=
  [ Insert (fact "a" "Deadline is March 1" active 0);
    Insert (fact "b" "Deadline is April 15" active 10);
    Supersede "a" "b" 10;
    Forget "b" false ].

Definition pendingSuccessor : list Op :=
  [ Insert (fact "a" "Deadline is March 1" active 0);
    Insert (fact "b" "Deadline is April 15" pending 10);
    Supersede "a" "b" 10 ].

End Store.

Module Recall.
Import Memories.
Local Open Scope Z_scope.

(** Modelled from the spec: a dedup group is named by a primary entity and
    a topic signature (section 4.5.5).  How the two are computed from a
    candidate is not fixed by the spec; the functions below take the key
    of a candidate as the argument [groupKey]. *)
Definition Key : Type := (string * string)%type.

Definition key_eqb (a b : Key) : bool :=
  String.eqb (fst a) (fst b) && String.eqb (snd a) (snd b).

Section Dedup.
Variable groupKey : Memory -> Key.

(** Modelled from the spec: "group candidates by (primary-entity,
    topic-signature)".  A candidate joins the group of its key, or opens
    a new group behind the others; candidates arrive best first. *)
Fixpoint insertGroup (k : Key) (m : Memory)
  (groups : list (Key * list Memory)) : list (Key * list Memory) :=
  match groups with
  | [] => [(k, [m])]
  | (k', g) :: rest =>
      if key_eqb k k' then (k', g ++ [m]) :: rest
      else (k', g) :: insertGroup k m rest
  end.

(** Modelled from the spec: the groups of the candidates, in the order in
    which their first members arrive. *)
Definition groupBy (candidates : list Memory) : list (Key * list Memory) :=
  fold_left (fun groups m => insertGroup (groupKey m) m groups)
    candidates [].

(** Modelled from the spec: "the candidate with the latest [valid_from]
    whose status is active"; of two active candidates with one
    [valid_from] the better ranked is taken. *)
Fixpoint latestActive (g : list Memory) : option Memory :=
  match g with
  | [] => None
  | m :: g' =>
      match latestActive g' with
      | Some r =>
          if isActive m && (valid_from r <=? valid_from m)
          then Some m else Some r
      | None => if isActive m then Some m else None
      end
  end.

(** Modelled from the spec: "within a group, retain the candidate with
    the latest [valid_from] whose status is active; others collapse into
    a dedup set attached to the retained candidate".  The spec names no
    candidate to retain in a group without an active member; such a
    group is left as it is, each member with an empty dedup set. *)
Definition dedupGroup (g : list Memory) : list (Memory * list Memory) :=
  match latestActive g with
  | Some r =>
      [(r, filter (fun m => negb (String.eqb (id m) (id r))) g)]
  | None => map (fun m => (m, [])) g
  end.

(** Modelled from the spec: the dedup phase (section 4.5.5): every group
    gives its retained candidate with the dedup set attached. *)
Definition dedup (candidates : list Memory) : list (Memory * list Memory) :=
  flat_map (fun kg => dedupGroup (snd kg)) (groupBy candidates).

(** C3 as the claim states it, for the candidates of one recall: every
    group has one retained candidate, an active member whose [valid_from]
    is the latest among the active members, and every other member of the
    group is in its dedup set. *)
Definition retainsLatestActive (candidates : list Memory) : Prop :=
  forall k g, In (k, g) (groupBy candidates) ->
    exists r others,
      dedupGroup g = [(r, others)] /\
      In r g /\ status r = active /\
      (forall m, In m g -> status m = active ->
                 valid_from m <= valid_from r) /\
      (forall m, In m g -> m = r \/ In m others).

(** Groups whose members carry the key of the group, one group a key. *)
Definition keyed (groups : list (Key * list Memory)) : Prop :=
  (forall k g m, In (k, g) groups -> In m g -> groupKey m = k) /\
  NoDup (map fst groups).

(** Modelled from the spec: the options of a recall that the tail of the
    pipeline reads, [limit] and the point in time [at] (section 4.5.1). *)
Record Options : Type := mkOptions {
  limit : nat;
  at_ : option Z
}.

(** Modelled from the spec: archived memories are excluded, and "if [at]
    is supplied, subsequent filters require
    [valid_from <= at < valid_until]" (sections 4.5.1 and 4.5.2). *)
Definition admissible (opts : Options) (m : Memory) : bool :=
  negb (isArchived m) &&
  match at_ opts with
  | Some t => validAt t m
  | None => true
  end.

(** Modelled from the spec: the tail of [recall] (sections 4.5.5 and
    4.5.6).  [ranked] are the candidates of the seed and spread phases in
    the order of their scores, best first; they are filtered, deduplicated
    and cut to the top [limit]. *)
Definition recallTail (opts : Options) (ranked : list Memory)
  : list (Memory * list Memory) :=
  firstn (limit opts) (dedup (filter (admissible opts) ranked)).

(** Modelled from the spec: the list [recall] returns, the retained
    candidates without their dedup sets. *)
Definition recall (opts : Options) (ranked : list Memory) : list Memory :=
  map fst (recallTail opts ranked).
End Dedup.

(** Two facts about where Alex works, and the key that groups them. *)
Definition corpA : Memory :=
  mkMemory "m1" "Alex works at Corp A" semantic active (1 # 2)
    ["Alex"%string] ["job"%string] 0 0 Infinity 0 O None.

Definition corpB : Memory :=
  mkMemory "m2" "Alex moved to Corp B" semantic active (1 # 2)
    ["Alex"%string] ["job"%string] 10 10 Infinity 10 O None.

Definition firstEntityTopic (m : Memory) : Key :=
  (hd EmptyString (entities m), hd EmptyString (topics m)).

(** The same two facts once the first has been superseded by the second
    at the instant 10. *)
Definition corpA_superseded : Memory :=
  mkMemory "m1" "Alex works at Corp A" semantic superseded (1 # 2)
    ["Alex"%string] ["job"%string] 0 0 (Instant 10) 0 O (Some "m2"%string).

End Recall.

(* ================================================================== *)
(** ** eval-codebase.ts: the pieces of one pass of chunkFile *)
(* ================================================================== *)

Module ChunkPass.
Import EvalCodebase.
Local Open Scope Z_scope.

(** The break point one pass of the loop picks for the start [start], and
    the start of the next pass. *)
Definition breakPointOf (content : string) (maxChars start : Z) : Z :=
  let len := Z.of_nat (String.length content) in
  let end_ := Z.min (start + maxChars) len in
  if end_ <? len then
    let lastNewline := lastIndexOf content newline end_ in
    if 2 * start + maxChars <? 2 * lastNewline
    then lastNewline + 1 else end_
  else end_.

Definition nextStart (breakPoint overlap : Z) : Z :=
  if breakPoint - overlap <? 0 then 0 else breakPoint - overlap.

(** The text of the chunks, put together again. *)
Definition reassemble (chunks : list Chunk) : string :=
  String.concat EmptyString (map chunkContent chunks).

End ChunkPass.

(* ================================================================== *)
(** ** eval-codebase-v2.ts *)
(* ================================================================== *)

Module EvalCodebaseV2.
Import Http.
Local Open Scope Z_scope.

Record Chunk : Type := mkChunk {
  chunkContent : string;
  part : Z;
  total : Z
}.

(** The [while] loop of [chunkFile], which here stops after part 100 and
    pushes every chunk with [total: 0]. *)
Fixpoint chunkLoop (fuel : nat) (content : string) (maxChars overlap : Z)
  (start part : Z) (chunks : list Chunk) : option (list Chunk) :=
  let len := Z.of_nat (String.length content) in
  if start <? len then
    match fuel with
    | O => None
    | S fuel' =>
        let end_ := Z.min (start + maxChars) len in
        let breakPoint :=
          if end_ <? len then
            let nl := EvalCodebase.lastIndexOf content EvalCodebase.newline end_ in
            if 2 * start + maxChars <? 2 * nl then nl + 1 else end_
          else end_ in
        let chunks :=
          app chunks
            [mkChunk (EvalCodebase.slice content start breakPoint) part 0] in
        let start := breakPoint - overlap in
        let start := if start <? 0 then 0 else start in
        let part := part + 1 in
        if 100 <? part then Some chunks
        else chunkLoop fuel' content maxChars overlap start part chunks
    end
  else Some chunks.

(** [for (const c of chunks) c.total = chunks.length] *)
Definition setTotals (chunks : list Chunk) : list Chunk :=
  map (fun c => mkChunk (chunkContent c) (part c) (Z.of_nat (length chunks)))
    chunks.

Definition chunkFile (fuel : nat) (file : EvalCodebase.CodeFile)
  (maxChars overlap : Z) : option (list Chunk) :=
  if Z.of_nat (String.length (EvalCodebase.content file)) <=? maxChars then
    Some [mkChunk (EvalCodebase.content file) 1 1]
  else
    match chunkLoop fuel (EvalCodebase.content file) maxChars overlap 0 1 [] with
    | None => None
    | Some chunks => Some (setTotals chunks)
    end.

(** [estimateTokens]: [Math.ceil(text.length / 4)]. *)
Definition estimateTokens (text : string) : Z :=
  (Z.of_nat (String.length text) + 3) / 4.

(** What a call of [fn] gives: a value, or a thrown error. *)
Inductive Result (T : Type) : Type :=
| Ok (v : T)
| Err (e : JsError).
Arguments Ok {T} v.
Arguments Err {T} e.

(** [Math.min(1000 * Math.pow(2, i + 1), 60000)] *)
Definition retryBackoff (i : Z) : Z := Z.min (1000 * 2 ^ (i + 1)) 60000.

(** The loop [for (let i = 0; i < retries; i++)] of [withRetry], from [i]
    on.  [fn i] is what the call of [fn] in pass [i] gives; the events are
    the calls of [fn] and the waits.  [None] is a loop that has not ended
    within [fuel] passes. *)
Fixpoint withRetryLoop {T : Type} (fuel : nat) (fn : Z -> Result T)
  (retries i : Z) : option (list Event * Result T) :=
  if i <? retries then
    match fuel with
    | O => None
    | S fuel' =>
        match fn i with
        | Ok v => Some ([FetchCall i], Ok v)
        | Err err =>
            if includes (message err) "429" && (i <? retries - 1) then
              match withRetryLoop fuel' fn retries (i + 1) with
              | None => None
              | Some (evs, r) =>
                  Some (FetchCall i :: Backoff i (retryBackoff i) :: evs, r)
              end
            else Some ([FetchCall i], Err err)
        end
    end
  else Some ([], Err (mkError "Error" "Exhausted retries" None)).

Definition withRetry {T : Type} (fuel : nat) (fn : Z -> Result T)
  (retries : Z) : option (list Event * Result T) :=
  withRetryLoop fuel fn retries 0.

(** [geminiCall] after the fetch: [trim] is [String.prototype.trim]. *)
Definition geminiCall (trim : string -> string) (f : Fetched) : Result string :=
  match f with
  | Rejected e => Err e
  | Resolved res =>
      if negb (ok res) then
        match text res with
        | inl e => Err e
        | inr body =>
            Err (mkError "Error"
                   (append "Gemini "
                      (append (showZ (status res))
                         (append ": " (substring 0 200 body))))
                   None)
        end
      else
        match json res with
        | inl e => Err e
        | inr data =>
            Ok (orEmpty (option_map trim (candidateText data)))
        end
  end.

(** An error thrown by the function that is retried. *)
Definition thrownBy {T : Type} (fn : Z -> Result T) (e : JsError) : Prop :=
  exists i, fn i = Err e.

(** [withRetry(() => geminiCall(prompt, n))] with the default of five
    retries: [net i] is what the fetch of pass [i] gives. *)
Definition geminiWithRetry (trim : string -> string) (fuel : nat)
  (net : Z -> Fetched) : option (list Event * Result string) :=
  withRetry fuel (fun i => geminiCall trim (net i)) 5.

End EvalCodebaseV2.

(* ================================================================== *)
(** ** Math.min, Math.max and the clamp of a judged score *)
(* ================================================================== *)

Module JsMath.
Import Js.

(** [Math.min(x, y)] and [Math.max(x, y)]: NaN when an argument is NaN. *)
Definition min2 (x y : num) : num :=
  match x, y with
  | NaN, _ => NaN
  | _, NaN => NaN
  | Fin a, Fin b => Fin (Rmin a b)
  | Inf false, _ => Inf false
  | _, Inf false => Inf false
  | Inf true, _ => y
  | _, Inf true => x
  end.

Definition max2 (x y : num) : num :=
  match x, y with
  | NaN, _ => NaN
  | _, NaN => NaN
  | Fin a, Fin b => Fin (Rmax a b)
  | Inf true, _ => Inf true
  | _, Inf true => Inf true
  | Inf false, _ => y
  | _, Inf false => x
  end.

(** [Math.max(0, Math.min(1, score))] *)
Definition clamp01 (score : num) : num := max2 (Fin 0) (min2 (Fin 1) score).

(** [isNaN(x)] for a number. *)
Definition isNaN (x : num) : bool :=
  match x with
  | NaN => true
  | _ => false
  end.

(** A number between 0 and 1. *)
Definition unit_score (x : num) : Prop :=
  exists r, x = Fin r /\ (0 <= r <= 1)%R.

End JsMath.

(* ================================================================== *)
(** ** eval-rag-baseline.ts: scoreAnswer *)
(* ================================================================== *)

Module RagJudge.
Import Http JsMath.

(** [scoreAnswer] after the prompt is built.  [call] is what
    [callGemini(prompt, true)] does; [scoreOf resp] is
    [JSON.parse(resp).score] as the number [Math.min] makes of it, [None]
    when [JSON.parse] or the property access throws.  Every throw inside
    the [try] ends in [return 0]. *)
Definition scoreAnswer (scoreOf : string -> option Js.num) (call : Outcome)
  : Js.num :=
  match call with
  | Thrown _ => Js.Fin 0
  | Returned resp =>
      match scoreOf resp with
      | None => Js.Fin 0
      | Some score => clamp01 score
      end
  end.

End RagJudge.

(* ================================================================== *)
(** ** eval-locomo.ts: scoreAnswer *)
(* ================================================================== *)

Module LocomoJudge.
Import Http JsMath.
Local Open Scope Z_scope.

Definition MAX_JUDGE_RETRIES : Z := 3.

(** What the judge does that the outside can see. *)
Inductive JudgeEvent : Type :=
| JudgeCall (attempt : Z)
| Sleep (ms : Z).

(** The two readings of the response.  [parseScore response] is the
    [score] of the [try] block ([parsed.score] when that is a number, else
    [parseFloat(parsed.score)]), [None] when [JSON.parse] or the property
    access throws.  [extract response] is [parseFloat(numMatch[1])] of the
    last resort, [None] when the pattern does not match. *)
Record Reader : Type := mkReader {
  parseScore : string -> option Js.num;
  extract : string -> option Js.num
}.

(** The [try] block: the score returned, or [None] for a throw. *)
Definition tryParse (rd : Reader) (response : string) : option Js.num :=
  match parseScore rd response with
  | None => None
  | Some score => if isNaN score then None else Some (clamp01 score)
  end.

(** The last resort of the [catch] block in the final attempt. *)
Definition lastResort (rd : Reader) (response : string) : Js.num :=
  match extract rd response with
  | Some extracted =>
      if negb (isNaN extracted) then clamp01 extracted else Js.Fin 0
  | None => Js.Fin 0
  end.

(** The loop [for (attempt = 1; attempt <= MAX_JUDGE_RETRIES; attempt++)]
    from [attempt] on; [judge k] is what [callGemini(prompt, true)] does in
    attempt [k].  A throw of [callGemini] is outside the [try] and leaves
    the function. *)
Fixpoint scoreLoop (fuel : nat) (rd : Reader) (judge : Z -> Outcome)
  (attempt : Z) : option (list JudgeEvent * (JsError + Js.num)) :=
  if attempt <=? MAX_JUDGE_RETRIES then
    match fuel with
    | O => None
    | S fuel' =>
        match judge attempt with
        | Thrown e => Some ([JudgeCall attempt], inl e)
        | Returned response =>
            match tryParse rd response with
            | Some score => Some ([JudgeCall attempt], inr score)
            | None =>
                if attempt <? MAX_JUDGE_RETRIES then
                  match scoreLoop fuel' rd judge (attempt + 1) with
                  | None => None
                  | Some (evs, r) =>
                      Some (JudgeCall attempt :: Sleep Locomo.RATE_LIMIT_MS
                              :: evs, r)
                  end
                else Some ([JudgeCall attempt], inr (lastResort rd response))
            end
        end
    end
  else Some ([], inr (Js.Fin 0)).

Definition scoreAnswer (fuel : nat) (rd : Reader) (judge : Z -> Outcome)
  : option (list JudgeEvent * (JsError + Js.num)) :=
  scoreLoop fuel rd judge 1.

Definition judgeCalls (evs : list JudgeEvent) : list Z :=
  flat_map (fun e => match e with JudgeCall k => [k] | _ => [] end) evs.

End LocomoJudge.

(* ================================================================== *)
(** ** eval-codebase-v2.ts: buildCappedContext *)
(* ================================================================== *)

Module CappedContext.
Import EvalCodebaseV2.
Local Open Scope Z_scope.

Definition CAPPED_CONTEXT_TOKENS : Z := 100000.

(** A file of the manifest in the order of the sorted [scored] array, with
    what the disk holds for it: [None] when [existsSync] is false. *)
Record ManifestFile : Type := mkManifestFile {
  path : string;
  onDisk : option string
}.

Record Packed : Type := mkPacked {
  context : string;
  filesUsed : Z
}.

Definition nl : string := String EvalCodebase.newline EmptyString.

(** The two pieces the loop appends to the context. *)
Definition fullEntry (p content : string) : string :=
  ("=== " ++ p ++ " ===" ++ nl ++ content ++ nl ++ nl)%string.

Definition truncatedEntry (p content : string) (remaining : Z) : string :=
  ("=== " ++ p ++ " (truncated) ===" ++ nl
     ++ EvalCodebase.slice content 0 (remaining * 4) ++ nl ++ nl)%string.

(** The loop [for (const f of scored)]. *)
Fixpoint packLoop (scored : list ManifestFile) (ctx : string)
  (tokensUsed used : Z) : Packed :=
  match scored with
  | [] => mkPacked ctx used
  | f :: rest =>
      match onDisk f with
      | None => packLoop rest ctx tokensUsed used
      | Some content =>
          let tokens := estimateTokens content in
          if CAPPED_CONTEXT_TOKENS <? tokensUsed + tokens then
            let remaining := CAPPED_CONTEXT_TOKENS - tokensUsed in
            if 500 <? remaining then
              mkPacked (ctx ++ truncatedEntry (path f) content remaining)
                (used + 1)
            else mkPacked ctx used
          else
            packLoop rest (ctx ++ fullEntry (path f) content)
              (tokensUsed + tokens) (used + 1)
      end
  end.

(** [buildCappedContext] from the sorted files on. *)
Definition buildCappedContext (scored : list ManifestFile) : Packed :=
  packLoop scored EmptyString 0 0.

(** The characters the headers and separators of the files can take. *)
Definition headerRoom (scored : list ManifestFile) : Z :=
  fold_right (fun f acc => Z.of_nat (String.length (path f)) + 23 + acc) 0 scored.

End CappedContext.

(* ================================================================== *)
(** ** eval-locomo-openai.ts: callOpenAI and callGemini *)
(* ================================================================== *)

Module LocomoOpenAI.
Import Http.
Local Open Scope Z_scope.

Definition RATE_LIMIT_MS : Z := 1200.
Definition MAX_RETRIES : Z := 5.

(** [RATE_LIMIT_MS * Math.pow(2, attempt)] *)
Definition backoff (attempt : Z) : Z := RATE_LIMIT_MS * 2 ^ attempt.

(** What one pass of the loop decides. *)
Inductive Pass : Type :=
| Continue                  (* sleep(backoff); continue *)
| Finish (o : Outcome).      (* return or throw out of the function *)

(** The test of [callOpenAI]'s catch block for an error worth another
    attempt. *)
Definition isNetworkError (err : JsError) : bool :=
  match causeCode err with
  | Some c => String.eqb c "ECONNRESET"
  | None => false
  end
  || includes (message err) "fetch failed"
  || String.eqb (name err) "AbortError"
  || includes (message err) "aborted".

Definition openaiCatch (attempt : Z) (err : JsError) : Pass :=
  if (attempt <? MAX_RETRIES) && isNetworkError err then Continue
  else Finish (Thrown err).

(** The [try] block of [callOpenAI]; [candidateText] of the parsed body
    stands for [data.choices?.[0]?.message?.content] here. *)
Definition openaiTry (attempt : Z) (f : Fetched) : Pass :=
  match f with
  | Rejected err => openaiCatch attempt err
  | Resolved response =>
      if (status response =? 429) || (500 <=? status response) then Continue
      else if negb (ok response) then
        match text response with
        | inl err => openaiCatch attempt err
        | inr body =>
            openaiCatch attempt
              (mkError "Error"
                 (append "OpenAI API failed: "
                    (append (showZ (status response)) (append " " body)))
                 None)
        end
      else
        match json response with
        | inl err => openaiCatch attempt err
        | inr data => Finish (Returned (orEmpty (candidateText data)))
        end
  end.

(** The catch block of [callGemini] asks nothing of the error. *)
Definition geminiCatch (attempt : Z) (err : JsError) : Pass :=
  if attempt <? MAX_RETRIES then Continue else Finish (Thrown err).

Definition geminiTry (attempt : Z) (f : Fetched) : Pass :=
  match f with
  | Rejected err => geminiCatch attempt err
  | Resolved response =>
      if (status response =? 429) || (500 <=? status response) then Continue
      else if negb (ok response) then
        geminiCatch attempt
          (mkError "Error"
             (append "Gemini failed: " (showZ (status response))) None)
      else
        match json response with
        | inl err => geminiCatch attempt err
        | inr data => Finish (Returned (orEmpty (candidateText data)))
        end
  end.

(** The loop [for (attempt = 1; attempt <= MAX_RETRIES; attempt++)] the two
    helpers share, from [attempt] on: they differ in their [try] and
    [catch] blocks and in the error after the loop.  [net k] is what
    [fetch] does in pass [k]; [None] is a loop that has not ended within
    [fuel] passes. *)
Section Loop.
Variable tryBlock : Z -> Fetched -> Pass.
Variable exhausted : JsError.

Fixpoint retryLoop (fuel : nat) (net : Z -> Fetched) (attempt : Z)
  : option (list Event * Outcome) :=
  if attempt <=? MAX_RETRIES then
    match fuel with
    | O => None
    | S fuel' =>
        let pre := [RateLimitWait RATE_LIMIT_MS; FetchCall attempt] in
        match tryBlock attempt (net attempt) with
        | Finish o => Some (pre, o)
        | Continue =>
            match retryLoop fuel' net (attempt + 1) with
            | None => None
            | Some (evs, o) =>
                Some (app pre (Backoff attempt (backoff attempt) :: evs), o)
            end
        end
    end
  else Some ([], Thrown exhausted).

End Loop.

Definition callOpenAI (fuel : nat) (net : Z -> Fetched)
  : option (list Event * Outcome) :=
  retryLoop openaiTry
    (mkError "Error" "OpenAI API failed after 5 retries" None) fuel net 1.

Definition callGemini (fuel : nat) (net : Z -> Fetched)
  : option (list Event * Outcome) :=
  retryLoop geminiTry
    (mkError "Error" "Gemini failed after retries" None) fuel net 1.

(** The milliseconds a run sleeps in all. *)
Definition totalWait (evs : list Event) : Z :=
  fold_right
    (fun e acc =>
       match e with
       | RateLimitWait ms => ms + acc
       | Backoff _ ms => ms + acc
       | FetchCall _ => acc
       end) 0 evs.

End LocomoOpenAI.

(* ================================================================== *)
(** ** String methods: trim, toLowerCase, split on a newline *)
(* ================================================================== *)

Module JsString.

(** The characters [trim] strips, among those below 256: tab, line feed,
    vertical tab, form feed, carriage return, space and the no-break
    space. *)
Definition isWhiteSpace (c : ascii) : bool :=
  let n := nat_of_ascii c in
  ((n =? 9) || (n =? 10) || (n =? 11) || (n =? 12) || (n =? 13)
   || (n =? 32) || (n =? 160))%nat.

Fixpoint trimStart (s : string) : string :=
  match s with
  | EmptyString => EmptyString
  | String c s' => if isWhiteSpace c then trimStart s' else s
  end.

Fixpoint trimEnd (s : string) : string :=
  match s with
  | EmptyString => EmptyString
  | String c s' =>
      match trimEnd s' with
      | EmptyString => if isWhiteSpace c then EmptyString else String c EmptyString
      | t => String c t
      end
  end.

(** [s.trim()] *)
Definition trim (s : string) : string := trimEnd (trimStart s).

(** [s.toLowerCase()] for characters below 256: the letters A to Z and the
    accented capitals 192 to 222, without the multiplication sign 215. *)
Definition toLowerChar (c : ascii) : ascii :=
  let n := nat_of_ascii c in
  if ((65 <=? n) && (n <=? 90)
      || (192 <=? n) && (n <=? 222) && negb (n =? 215))%nat
  then ascii_of_nat (n + 32) else c.

Fixpoint toLowerCase (s : string) : string :=
  match s with
  | EmptyString => EmptyString
  | String c s' => String (toLowerChar c) (toLowerCase s')
  end.

(** A string as a condition: only the empty string is falsy. *)
Definition nonEmpty (s : string) : bool :=
  match s with
  | EmptyString => false
  | String _ _ => true
  end.

(** [s.split('\n')] *)
Fixpoint splitLines (s : string) : list string :=
  match s with
  | EmptyString => [EmptyString]
  | String c s' =>
      if Ascii.eqb c EvalCodebase.newline then EmptyString :: splitLines s'
      else
        match splitLines s' with
        | [] => [String c EmptyString]
        | l :: ls => String c l :: ls
        end
  end.

(** [s.startsWith(p)] *)
Definition startsWith (s p : string) : bool := prefix p s.

End JsString.

(* ================================================================== *)
(** ** chunkMarkdown (eval-honest.ts, eval-scale.ts, eval-enron.ts,
       eval-enron-stress.ts) *)
(* ================================================================== *)

Module Markdown.
Import JsString.

(** The test for a line that starts a new chunk, in eval-honest.ts and in
    the three other files. *)
Definition isHeaderHonest (line : string) : bool :=
  startsWith line "#" || startsWith line "- **".

Definition isHeaderScale (line : string) : bool :=
  startsWith line "#" || startsWith line "- **" || startsWith line "### ".

Section Chunker.
Variable isHeader : string -> bool.
Variable limit : nat.

(** One pass of [for (const line of lines)] on [chunks] and [current]. *)
Definition step (st : list string * string) (line : string)
  : list string * string :=
  let (chunks, current) := st in
  let (chunks, current) :=
    if isHeader line && nonEmpty (trim current)
    then (chunks ++ [trim current], EmptyString)
    else (chunks, current) in
  let current := (current ++ line ++ String EvalCodebase.newline EmptyString)%string in
  if (limit <? String.length current)%nat
  then (chunks ++ [trim current], EmptyString)
  else (chunks, current).

(** The chunks before the final filter. *)
Definition rawChunks (md : string) : list string :=
  let (chunks, current) := fold_left step (splitLines md) ([], EmptyString) in
  if nonEmpty (trim current) then chunks ++ [trim current] else chunks.

Definition chunkWith (md : string) : list string :=
  filter (fun c => (20 <? String.length c)%nat) (rawChunks md).

End Chunker.

(** [chunkMarkdown] of eval-honest.ts, and of eval-scale.ts, eval-enron.ts
    and eval-enron-stress.ts. *)
Definition chunkMarkdownHonest : string -> list string :=
  chunkWith isHeaderHonest 300.

Definition chunkMarkdownScale : string -> list string :=
  chunkWith isHeaderScale 400.

(** The length of all strings of a list together, and of the longest. *)
Definition totalLength (l : list string) : nat :=
  fold_right (fun c acc => (String.length c + acc)%nat) O l.

Definition longest (l : list string) : nat :=
  fold_right (fun c acc => Nat.max (String.length c) acc) O l.

(** A string of at most [bound] characters. *)
Definition sized (bound : nat) (c : string) : Prop :=
  (String.length c <= bound)%nat.

End Markdown.

(* ================================================================== *)
(** ** The Letta evaluation: checkAnswer *)
(* ================================================================== *)

Module LettaEval.
Import JsString.

Definition checkAnswer (answer groundTruth : string) : bool :=
  let a := trim (toLowerCase answer) in
  let gt := trim (toLowerCase groundTruth) in
  Js.includes a gt || Js.includes gt a.

End LettaEval.

(* ================================================================== *)
(** ** eval-locomo-openai.ts: scoreAnswer; judgeRecall of eval-scale.ts,
       eval-enron.ts and eval-enron-stress.ts *)
(* ================================================================== *)

Module OpenAIJudge.
Import Http JsMath.

(** A number as a condition: 0 and NaN are falsy. *)
Definition truthyNum (x : Js.num) : bool :=
  match x with
  | Js.Fin r => negb (Js.is_zero r)
  | Js.Inf _ => true
  | Js.NaN => false
  end.

(** [x || 0] *)
Definition orZero (x : Js.num) : Js.num := if truthyNum x then x else Js.Fin 0.

(** [scoreAnswer] after the prompt is built.  [call] is what
    [callOpenAI(prompt, true)] does, outside the [try]; [parseScore result]
    is [parseFloat(JSON.parse(result).score)], [None] when that throws. *)
Definition scoreAnswer (parseScore : string -> option Js.num) (call : Outcome)
  : JsError + Js.num :=
  match call with
  | Thrown e => inl e
  | Returned result =>
      match parseScore result with
      | None => inr (Js.Fin 0)
      | Some score => inr (clamp01 (orZero score))
      end
  end.

End OpenAIJudge.

Module RecallJudge.
Import Http JsMath.

(** The [score] of [judgeRecall].  [call] is what [callGemini(prompt)]
    does; [matchScore response] is [parseFloat(scoreMatch[1])], [None] when
    the pattern [SCORE:\s*([\d.]+)] does not match. *)
Definition judgeScore (matchScore : string -> option Js.num) (call : Outcome)
  : Js.num :=
  match call with
  | Thrown _ => Js.Fin (1 / 2)
  | Returned response =>
      match matchScore response with
      | Some x => min2 (Js.Fin 1) (max2 (Js.Fin 0) x)
      | None => Js.Fin (1 / 2)
      end
  end.

End RecallJudge.

(* ================================================================== *)
(** ** eval-locomo.ts: the hour of parseLocomoDate *)
(* ================================================================== *)

Module LocomoDate.
Local Open Scope Z_scope.

(** The conversion of the 12-hour clock in [parseLocomoDate]; [pm] tells
    which of [am] and [pm] the pattern has matched:
    [if (ampm === 'pm' && hour < 12) hour += 12;
     if (ampm === 'am' && hour === 12) hour = 0;] *)
Definition hour24 (pm : bool) (hour : Z) : Z :=
  let hour := if pm && (hour <? 12) then hour + 12 else hour in
  if negb pm && (hour =? 12) then 0 else hour.

End LocomoDate.

(* ================================================================== *)
(** ** The Letta evaluation: groupByFacts *)
(* ================================================================== *)

Module LettaGroups.

(** A sample: its question and [agent_args.extra.facts]. *)
Record Sample : Type := mkSample {
  input : string;
  facts : list string
}.

(** The order of [Array.prototype.sort()] without a comparator: strings
    by their code units. *)
Definition defaultCompare (x y : string) : Js.num :=
  match String.compare x y with
  | Lt => Js.Fin (-1)
  | Eq => Js.Fin 0
  | Gt => Js.Fin 1
  end.

Definition sortStrings (l : list string) : list string :=
  Js.sort defaultCompare l.

(** [s.agent_args.extra.facts.sort().join('|||')]; the sort is in place,
    so the sample is left with its facts sorted. *)
Definition keyOf (s : Sample) : string :=
  String.concat "|||" (sortStrings (facts s)).

Definition sorted (s : Sample) : Sample :=
  mkSample (input s) (sortStrings (facts s)).

(** The [Map] as its entries in the order of insertion. *)
Definition Groups : Type := list (string * list Sample).

(** [groups.get(key)] *)
Fixpoint get (key : string) (groups : Groups) : option (list Sample) :=
  match groups with
  | [] => None
  | (k, g) :: rest => if String.eqb k key then Some g else get key rest
  end.

(** [if (!groups.has(key)) groups.set(key, []); groups.get(key).push(s)] *)
Fixpoint push (key : string) (s : Sample) (groups : Groups) : Groups :=
  match groups with
  | [] => [(key, [s])]
  | (k, g) :: rest =>
      if String.eqb k key then (k, g ++ [s]) :: rest
      else (k, g) :: push key s rest
  end.

Definition groupByFacts (samples : list Sample) : Groups :=
  fold_left (fun groups s => push (keyOf s) (sorted s) groups) samples [].

(** The samples of a key, in the order of the input, as the map holds
    them. *)
Definition withKey (key : string) (samples : list Sample) : list Sample :=
  map sorted (filter (fun s => String.eqb (keyOf s) key) samples).

(** What the map holds for a key after the samples: nothing, or the
    samples of that key. *)
Definition held (key : string) (samples : list Sample) : option (list Sample) :=
  match withKey key samples with
  | [] => None
  | g => Some g
  end.

(** The order of the sorted facts. *)
Definition sle (x y : string) : Prop := String.leb x y = true.

End LettaGroups.

(* ================================================================== *)
(** ** The traces of the two callGemini helpers (vocabulary of the
       statements) *)
(* ================================================================== *)

Module RetryTrace.
Import Http.
Local Open Scope Z_scope.

(** What a pass of the LOCOMO helper does before its outcome is known, and
    what a pass that fails transiently does in all: it ends with the
    backoff of its attempt. *)
Definition locomoPass (k : Z) : list Event :=
  [RateLimitWait Locomo.RATE_LIMIT_MS; FetchCall k].

Definition locomoRetried (k : Z) : list Event :=
  locomoPass k ++ [Backoff k (Locomo.backoff k)].

(** The delay the baseline's pass [k] asks for, when it asks for one. *)
Definition ragDelay (net : Z -> Fetched) (k : Z) : Z :=
  match RagBaseline.tryBlock k (net k) with
  | RagBaseline.Continue ms => ms
  | RagBaseline.Finish _ => 0
  end.

Definition ragRetried (net : Z -> Fetched) (k : Z) : list Event :=
  [FetchCall k; Backoff k (ragDelay net k)].

(** A network that answers with HTTP 429 twice, from attempt [first] on,
    and then with a candidate. *)
Definition failsTwice (first : Z) (k : Z) : Fetched :=
  if k <? first + 2 then always429 k
  else Resolved (mkResponse 200 (inr EmptyString)
                   (inr (mkData (Some "ok"%string) EmptyString))).

End RetryTrace.

(* ================================================================== *)
(** ** Vectors over the reals (vocabulary of the statements) *)
(* ================================================================== *)

Module Vec.
Local Open Scope R_scope.

(** Inner product of two vectors, over their common coordinates. *)
Fixpoint dotp (a b : list R) : R :=
  match a, b with
  | x :: a', y :: b' => x * y + dotp a' b'
  | _, _ => 0
  end.

(** Euclidean norm. *)
Definition norm (a : list R) : R := R_sqrt.sqrt (dotp a a).

End Vec.

(* ================================================================== *)
(** ** The order of the doubles (vocabulary of the statements) *)
(* ================================================================== *)

Module DoubleOrder.
Import SpecFloat.
Local Open Scope Z_scope.

(** The place of a double in the order of the doubles, as an integer: a
    finite double [m * 2^e] has [e >= -1074] and stands at
    [m * 2^(e + 1074)], the infinities stand beyond every finite double,
    and the two zeros stand together. *)
Definition SFord (x : spec_float) : Z :=
  match x with
  | S754_zero _ => 0
  | S754_nan => 0
  | S754_infinity s => cond_Zopp s (2 ^ 2098)
  | S754_finite s m e => cond_Zopp s (Zpos m * 2 ^ (e + 1074))
  end.

Definition ord (x : PrimFloat.float) : Z := SFord (FloatOps.Prim2SF x).

(** A value of the sign [s] that is not a zero: finite or infinite. *)
Definition signed (s : bool) (x : spec_float) : Prop :=
  (exists m e, x = S754_finite s m e) \/ x = S754_infinity s.

(** [sign_is c d]: [d] is negative ([Lt]), positive ([Gt]), or a zero or
    NaN ([Eq]). *)
Definition sign_is (c : comparison) (d : spec_float) : Prop :=
  match c with
  | Lt => signed true d
  | Gt => signed false d
  | Eq => (exists s, d = S754_zero s) \/ d = S754_nan
  end.

(** The real number that a finite double stands for; a zero stands for
    0, and the value is not used for the infinities and NaN. *)
Definition exact (x : PrimFloat.float) : R :=
  match FloatOps.Prim2SF x with
  | S754_finite s m e =>
      if 0 <=? e then IZR (cond_Zopp s (Zpos m) * 2 ^ e)
      else (IZR (cond_Zopp s (Zpos m)) / IZR (2 ^ (- e)))%R
  | _ => 0%R
  end.

End DoubleOrder.

(* ================================================================== *)
(** ** Top-k by similarity (vocabulary of the statements) *)
(* ================================================================== *)

Module TopK.
Import EvalHonest.

(** Order on the numbers of the exact reading; NaN compares with
    nothing. *)
Definition num_le (x y : Js.num) : Prop :=
  match x, y with
  | Js.NaN, _ => False
  | _, Js.NaN => False
  | Js.Fin a, Js.Fin b => (a <= b)%R
  | Js.Inf false, _ => True
  | _, Js.Inf true => True
  | _, _ => False
  end.

(** [sim_ge q x y]: chunk [x] is at least as similar to the query as [y],
    by the similarity that the code computes, in double precision.  The
    comparison is false when a similarity is NaN. *)
Definition sim_ge (q : list PrimFloat.float)
  (x y : string * list PrimFloat.float) : Prop :=
  PrimFloat.leb (Double.cosineSim q (snd y)) (Double.cosineSim q (snd x))
  = true.

(** [exact_ge q x y]: the same by the cosine similarity of the exact
    values of the embeddings, over the reals. *)
Definition exact_ge (q : list PrimFloat.float)
  (x y : string * list PrimFloat.float) : Prop :=
  num_le (cosineSim (map DoubleOrder.exact q) (map DoubleOrder.exact (snd y)))
         (cosineSim (map DoubleOrder.exact q) (map DoubleOrder.exact (snd x))).

(** [res] is a top-[limit] answer over the chunks paired with their
    embeddings, for the order [ge] of similarity: it has at most [limit]
    entries, as many as the corpus allows; it lists a selection of the
    corpus in descending similarity; and nothing left out is more similar
    than anything selected. *)
Definition top_k_by {E : Type} (ge : string * E -> string * E -> Prop)
  (chunks : list string) (embeddings : list E) (limit : Z)
  (res : list string) : Prop :=
  (Z.of_nat (length res) <= limit)%Z /\
  exists sel rest : list (string * E),
    Permutation (sel ++ rest) (combine chunks embeddings) /\
    res = map fst sel /\
    length sel = Nat.min (Z.to_nat limit) (length chunks) /\
    StronglySorted ge sel /\
    (forall x y, In x sel -> In y rest -> ge x y).

(** Top-[limit] by the computed similarity, and by the exact one. *)
Definition top_k (q : list PrimFloat.float) :=
  top_k_by (sim_ge q).

Definition exact_top_k (q : list PrimFloat.float) :=
  top_k_by (exact_ge q).

(** Descending order of scored chunks, and scores that are numbers. *)
Definition desc (x y : Scored) : Prop :=
  PrimFloat.leb (score y) (score x) = true.

Definition is_number (s : Scored) : Prop :=
  PrimFloat.is_nan (score s) = false.

(** A chunk paired with its embedding, scored against the query. *)
Definition scorePair (q : list PrimFloat.float)
  (p : string * list PrimFloat.float) : Scored :=
  mkScored (fst p) (Double.cosineSim q (snd p)).

End TopK.

(* ================================================================== *)
(** ** Properties *)
(* ================================================================== *)

Module CosineFacts.
Import Js EvalHonest Vec.
Local Open Scope R_scope.

Lemma dotp_comm : forall a b, dotp a b = dotp b a.
Proof.
  induction a as [|x a IH]; destruct b as [|y b]; simpl; try reflexivity.
  rewrite IH. ring.
Qed.

Lemma dotp_self_nonneg : forall a, 0 <= dotp a a.
Proof.
  induction a as [|x a IH]; simpl; [lra|].
  pose proof (Rle_0_sqr x) as Hx. unfold Rsqr in Hx. lra.
Qed.

Lemma dotp_snoc : forall a b x y,
  length a = length b ->
  dotp (a ++ [x]) (b ++ [y]) = dotp a b + x * y.
Proof.
  induction a as [|u a IH]; destruct b as [|v b]; simpl; intros x y Hlen;
    try discriminate.
  - ring.
  - rewrite IH by congruence. ring.
Qed.

Lemma firstn_snoc_nth {A : Type} : forall (l : list A) n x,
  nth_error l n = Some x -> firstn (S n) l = firstn n l ++ [x].
Proof.
  induction l as [|y l IH]; intros [|n] x H; simpl in *; try discriminate.
  - rewrite firstn_O. congruence.
  - f_equal. apply IH. exact H.
Qed.

Lemma get_lookup : forall a i x, nth_error a i = Some x -> get a i = Fin x.
Proof. intros a i x H. unfold get. rewrite H. reflexivity. Qed.

(** The loop of [cosineSim] after [n] passes holds the three partial sums. *)
Lemma cosine_loop : forall a b n,
  length a = length b -> (n <= length a)%nat ->
  fold_left (cosineStep a b) (seq 0 n) (Fin 0, Fin 0, Fin 0) =
  (Fin (dotp (firstn n a) (firstn n b)),
   Fin (dotp (firstn n a) (firstn n a)),
   Fin (dotp (firstn n b) (firstn n b))).
Proof.
  intros a b n Hlen. induction n as [|n IH]; intros Hn.
  - reflexivity.
  - rewrite seq_S, fold_left_app, IH by lia.
    cbn [fold_left Nat.add]. unfold cosineStep.
    destruct (nth_error a n) as [x|] eqn:Ha;
      [|apply nth_error_None in Ha; lia].
    destruct (nth_error b n) as [y|] eqn:Hb;
      [|apply nth_error_None in Hb; lia].
    rewrite (get_lookup _ _ _ Ha), (get_lookup _ _ _ Hb).
    rewrite (firstn_snoc_nth _ _ _ Ha), (firstn_snoc_nth _ _ _ Hb).
    assert (Hl : length (firstn n a) = length (firstn n b))
      by (rewrite !length_firstn; lia).
    rewrite !dotp_snoc by auto. reflexivity.
Qed.

(** Cauchy-Schwarz for finite sums. *)
Lemma cauchy_schwarz : forall a b,
  dotp a b * dotp a b <= dotp a a * dotp b b.
Proof.
  induction a as [|x a IH]; destruct b as [|y b]; simpl; try lra.
  specialize (IH b).
  pose proof (dotp_self_nonneg a) as HA.
  pose proof (dotp_self_nonneg b) as HB.
  set (D := dotp a b) in *. set (A := dotp a a) in *.
  set (B := dotp b b) in *.
  assert (Hmix : 2 * (x * y * D) <= x * x * B + y * y * A).
  { destruct (Rle_dec (2 * (x * y * D)) (x * x * B + y * y * A)) as [|Hn];
      [assumption|exfalso].
    apply Rnot_le_lt in Hn.
    assert (H0 : 0 <= x * x * B + y * y * A) by nra.
    assert (H1 : (x * x * B + y * y * A) * (x * x * B + y * y * A)
                 < (2 * (x * y * D)) * (2 * (x * y * D))) by nra.
    assert (H2 : (x * y) * (x * y) * (D * D) <= (x * y) * (x * y) * (A * B)).
    { apply Rmult_le_compat_l; [nra | exact IH]. }
    pose proof (Rle_0_sqr (x * x * B - y * y * A)) as H3.
    unfold Rsqr in H3. nra. }
  nra.
Qed.

Lemma is_neg_nonneg : forall r, 0 <= r -> is_neg r = false.
Proof. intros r H. unfold is_neg. destruct (Rlt_dec r 0); [lra|reflexivity]. Qed.

Lemma is_zero_nonzero : forall r, r <> 0 -> is_zero r = false.
Proof.
  intros r H. unfold is_zero. destruct (Req_dec_T r 0); [contradiction|reflexivity].
Qed.

Lemma is_zero_zero : is_zero 0 = true.
Proof. unfold is_zero. destruct (Req_dec_T 0 0); [reflexivity|contradiction]. Qed.

(** On vectors of one length, [cosineSim] divides the inner product by
    the product of the two norms. *)
Lemma cosineSim_sums : forall a b,
  length a = length b ->
  cosineSim a b =
  div (Fin (dotp a b)) (Fin (norm a * norm b)).
Proof.
  intros a b Hlen. unfold cosineSim.
  rewrite (cosine_loop a b (length a) Hlen (Nat.le_refl _)).
  rewrite !firstn_all2 by lia.
  cbn [sqrt]. rewrite !is_neg_nonneg by apply dotp_self_nonneg.
  reflexivity.
Qed.

Lemma cosineSim_real : forall a b,
  length a = length b -> norm a <> 0 -> norm b <> 0 ->
  cosineSim a b = Fin (dotp a b / (norm a * norm b)).
Proof.
  intros a b Hlen Ha Hb. rewrite cosineSim_sums by assumption.
  cbn [div]. rewrite is_zero_nonzero; [reflexivity|].
  intros H. apply Rmult_integral in H. tauto.
Qed.

(** A vector of norm zero makes the similarity NaN. *)
Lemma cosineSim_zero_norm : forall a b,
  length a = length b -> norm b = 0 -> cosineSim a b = NaN.
Proof.
  intros a b Hlen Hb. rewrite cosineSim_sums by assumption.
  assert (HB : dotp b b = 0)
    by (apply sqrt_eq_0; [apply dotp_self_nonneg | exact Hb]).
  assert (HD : dotp a b = 0).
  { pose proof (cauchy_schwarz a b) as H. rewrite HB in H. nra. }
  rewrite Hb, HD, Rmult_0_r. cbn [div]. rewrite is_zero_zero. reflexivity.
Qed.

Lemma norm_sqr : forall a, norm a * norm a = dotp a a.
Proof. intros a. apply sqrt_sqrt, dotp_self_nonneg. Qed.

Lemma norm_nonneg : forall a, 0 <= norm a.
Proof. intros a. apply sqrt_pos. Qed.

Lemma cosine_quotient_bounds : forall a b,
  norm a <> 0 -> norm b <> 0 ->
  -1 <= dotp a b / (norm a * norm b) <= 1.
Proof.
  intros a b Ha Hb.
  pose proof (norm_nonneg a) as Pa. pose proof (norm_nonneg b) as Pb.
  pose proof (cauchy_schwarz a b) as CS.
  rewrite <- (norm_sqr a), <- (norm_sqr b) in CS.
  set (n := norm a * norm b) in *.
  assert (Hn : 0 < n) by (unfold n; apply Rmult_lt_0_compat; lra).
  assert (Hsq : dotp a b * dotp a b <= n * n) by (unfold n; nra).
  assert (Hd : - n <= dotp a b <= n) by nra.
  set (c := dotp a b / n).
  assert (Hc : c * n = dotp a b) by (unfold c; field; lra).
  split; apply Rnot_lt_le; intros Hlt; nra.
Qed.

Lemma cosineSim_self : forall a, norm a <> 0 -> cosineSim a a = Fin 1.
Proof.
  intros a Ha. rewrite cosineSim_real by auto. f_equal.
  rewrite norm_sqr. apply Rdiv_diag.
  rewrite <- norm_sqr. intros H. apply Rmult_integral in H. tauto.
Qed.

(** C10.  On vectors of one length and non-zero Euclidean norm, over exact
    real arithmetic, [cosineSim] is a real number [c] that is the same for
    both orders of the arguments and lies in [-1, 1]; and the similarity of
    a non-zero vector with itself is 1. *)
Theorem cosineSim_symmetric_bounded : forall a b,
  length a = length b -> norm a <> 0 -> norm b <> 0 ->
  exists c : R,
    cosineSim a b = Fin c /\ cosineSim b a = Fin c /\
    -1 <= c <= 1 /\
    cosineSim a a = Fin 1.
Proof.
  intros a b Hlen Ha Hb.
  exists (dotp a b / (norm a * norm b)). repeat split.
  - apply cosineSim_real; assumption.
  - rewrite cosineSim_real by auto.
    rewrite (dotp_comm b a), (Rmult_comm (norm b)). reflexivity.
  - apply cosine_quotient_bounds; assumption.
  - apply cosine_quotient_bounds; assumption.
  - apply cosineSim_self. exact Ha.
Qed.

Lemma norm_unit_x : norm [1; 0] = 1.
Proof.
  unfold norm. simpl. replace (1 * 1 + (0 * 0 + 0)) with 1 by ring.
  apply sqrt_1.
Qed.

Lemma norm_unit_y : norm [0; 1] = 1.
Proof.
  unfold norm. simpl. replace (0 * 0 + (1 * 1 + 0)) with 1 by ring.
  apply sqrt_1.
Qed.

Lemma cosineSim_symmetric_bounded_witness :
  exists c : R,
    cosineSim [1; 0] [0; 1] = Fin c /\ cosineSim [0; 1] [1; 0] = Fin c /\
    -1 <= c <= 1 /\
    cosineSim [1; 0] [1; 0] = Fin 1.
Proof.
  apply (cosineSim_symmetric_bounded [1; 0] [0; 1]).
  - reflexivity.
  - rewrite norm_unit_x. lra.
  - rewrite norm_unit_y. lra.
Defined.

End CosineFacts.

(** *** Doubles: the order and the sign of a difference

    The primitive floats are specified by [SpecFloat]: [Prim2SF] reads a
    double as a sign, a mantissa and an exponent, and the operations are
    the correctly rounded ones of that reading.  From this specification:
    comparisons of doubles that are not NaN are comparisons of their
    places [ord], and the difference [y - x] of two such doubles is
    positive, negative, or a zero or NaN, as [y] is above, below or equal
    to [x]; a difference of distinct doubles never rounds to zero. *)

Module DoubleFacts.
Import PrimFloat SpecFloat FloatOps FloatAxioms DoubleOrder JsDouble.
Local Open Scope Z_scope.

(** The number of binary digits of a mantissa. *)
Lemma digits2_size : forall m, digits2_pos m = Pos.size m.
Proof. induction m; simpl; congruence. Qed.

Lemma digits2_bounds : forall m,
  2 ^ (Zpos (digits2_pos m) - 1) <= Zpos m < 2 ^ Zpos (digits2_pos m).
Proof.
  intros m. rewrite digits2_size. split.
  - pose proof (Pos.size_le m) as H.
    assert (H' : 2 ^ Zpos (Pos.size m) <= 2 * Zpos m).
    { change (2 * Zpos m) with (Zpos m~0). rewrite <- Pos2Z.inj_pow.
      apply Pos2Z.pos_le_pos. exact H. }
    replace (Zpos (Pos.size m)) with (Z.succ (Zpos (Pos.size m) - 1)) in H'
      by lia.
    rewrite Z.pow_succ_r in H' by lia. lia.
  - pose proof (Pos.size_gt m) as H.
    change 2 with (Zpos 2). rewrite <- Pos2Z.inj_pow.
    apply Pos2Z.pos_lt_pos. exact H.
Qed.

Lemma iter_pos_iter {A : Type} (f : A -> A) : forall p x,
  iter_pos f p x = Pos.iter f x p.
Proof.
  induction p as [p IH|p IH|]; intros x; simpl.
  - rewrite !IH. rewrite <- Pos.iter_swap. rewrite <- Pos.iter_swap.
    reflexivity.
  - rewrite !IH. reflexivity.
  - reflexivity.
Qed.

(** Shifting a mantissa to the right halves it. *)
Lemma shr_1_m : forall mrs, 0 <= shr_m mrs ->
  shr_m (shr_1 mrs) = shr_m mrs / 2.
Proof.
  intros [m r s] H. simpl in *. destruct m as [|p|p]; [reflexivity| |lia].
  destruct p as [p|p|]; simpl.
  - rewrite Pos2Z.inj_xI. apply Z.div_unique with 1; lia.
  - rewrite Pos2Z.inj_xO. apply Z.div_unique with 0; lia.
  - reflexivity.
Qed.

Lemma shr_iter_m : forall p mrs, 0 <= shr_m mrs ->
  shr_m (Pos.iter shr_1 mrs p) = shr_m mrs / 2 ^ Zpos p.
Proof.
  intros p mrs H. induction p as [|p IH] using Pos.peano_ind.
  - simpl. rewrite shr_1_m by exact H. reflexivity.
  - rewrite Pos.iter_succ. rewrite shr_1_m.
    + rewrite IH. rewrite Pos2Z.inj_succ, Z.pow_succ_r by lia.
      rewrite Z.div_div by lia. f_equal. lia.
    + rewrite IH. apply Z.div_pos; lia.
Qed.

Lemma shr_record_of_loc_m : forall m l, shr_m (shr_record_of_loc m l) = m.
Proof. intros m [|[| |]]; reflexivity. Qed.

(** Rounding a positive mantissa whose exponent is at least [emin] never
    reaches zero. *)
Lemma shr_fexp_pos : forall m e l,
  0 < m -> -1074 <= e ->
  0 < shr_m (fst (shr_fexp prec emax m e l)) /\
  -1074 <= snd (shr_fexp prec emax m e l).
Proof.
  intros m e l Hm He. unfold shr_fexp, shr.
  destruct m as [|p|p]; try lia. simpl Zdigits2.
  pose proof (digits2_bounds p) as [Hlo Hhi].
  set (d := Zpos (digits2_pos p)) in *.
  assert (Hd : 0 < d) by (unfold d; lia).
  unfold fexp, SpecFloat.emin, prec, emax.
  destruct (Z.max (d + e - 53) (3 - 1024 - 53) - e) as [|n|n] eqn:En;
    simpl fst; simpl snd.
  - rewrite shr_record_of_loc_m. lia.
  - rewrite iter_pos_iter, shr_iter_m, shr_record_of_loc_m
      by (rewrite shr_record_of_loc_m; lia).
    assert (Hn : Zpos n = d - 53) by lia.
    split; [|lia].
    apply Z.div_str_pos. split; [apply Z.pow_pos_nonneg; lia|].
    eapply Z.le_trans; [|exact Hlo].
    apply Z.pow_le_mono_r; lia.
  - rewrite shr_record_of_loc_m. lia.
Qed.

Lemma round_nearest_even_pos : forall m l, 0 < m -> 0 < round_nearest_even m l.
Proof.
  intros m [|[| |]] H; simpl; try lia. destruct (Z.even m); lia.
Qed.

(** Rounding keeps the sign: the result is finite or infinite, of the
    sign that was given. *)
Lemma binary_round_aux_signed : forall s m e l,
  0 < m -> -1074 <= e -> signed s (binary_round_aux prec emax s m e l).
Proof.
  intros s m e l Hm He. unfold binary_round_aux.
  pose proof (shr_fexp_pos m e l Hm He) as [H1 H2].
  destruct (shr_fexp prec emax m e l) as [mrs' e']. simpl in H1, H2.
  pose proof (shr_fexp_pos _ e' loc_Exact
                (round_nearest_even_pos _ (loc_of_shr_record mrs') H1) H2)
    as [H3 H4].
  destruct (shr_fexp prec emax _ e' loc_Exact) as [mrs'' e''].
  simpl in H3, H4.
  destruct (shr_m mrs'') as [|q|q]; try lia.
  destruct (e'' <=? emax - prec).
  - left. eauto.
  - right. reflexivity.
Qed.

Lemma iter_xO : forall d m, Zpos (Pos.iter xO m d) = Zpos m * 2 ^ Zpos d.
Proof.
  intros d m. induction d as [|d IH] using Pos.peano_ind.
  - simpl. lia.
  - rewrite Pos.iter_succ, Pos2Z.inj_xO, IH, Pos2Z.inj_succ,
      Z.pow_succ_r by lia. lia.
Qed.

Lemma shl_align_fst : forall m e e',
  e' <= e -> Zpos (fst (shl_align m e e')) = Zpos m * 2 ^ (e - e').
Proof.
  intros m e e' H. unfold shl_align.
  destruct (e' - e) as [|d|d] eqn:E; simpl.
  - replace (e - e') with 0 by lia. rewrite Z.pow_0_r. lia.
  - lia.
  - rewrite iter_xO. replace (e - e') with (Zpos d) by lia. reflexivity.
Qed.

Lemma shl_align_snd : forall m e e',
  -1074 <= e -> -1074 <= e' -> -1074 <= snd (shl_align m e e').
Proof.
  intros m e e' H H'. unfold shl_align.
  destruct (e' - e); simpl; lia.
Qed.

Lemma binary_round_signed : forall s m e,
  -1074 <= e -> signed s (binary_round prec emax s m e).
Proof.
  intros s m e He. unfold binary_round.
  pose proof (shl_align_snd m e (fexp prec emax (Zpos (digits2_pos m) + e)) He)
    as Hs.
  destruct (shl_align m e _) as [mz ez]. simpl in Hs.
  apply binary_round_aux_signed; [lia|].
  apply Hs. unfold fexp, SpecFloat.emin, prec, emax. lia.
Qed.

(** A valid finite double. *)
Lemma bounded_inv : forall m e,
  bounded prec emax m e = true ->
  -1074 <= e <= 971 /\ Zpos (digits2_pos m) <= 53 /\
  (-1074 < e -> Zpos (digits2_pos m) = 53).
Proof.
  intros m e H. unfold bounded, canonical_mantissa, fexp, SpecFloat.emin,
    prec, emax in H.
  apply andb_true_iff in H. destruct H as [H1 H2].
  apply Z.eqb_eq in H1. apply Z.leb_le in H2. lia.
Qed.

(** The place of a finite double lies between zero and infinity. *)
Lemma finite_below_infinity : forall m e,
  bounded prec emax m e = true -> 0 < Zpos m * 2 ^ (e + 1074) < 2 ^ 2098.
Proof.
  intros m e H. apply bounded_inv in H. destruct H as (He & Hd & _).
  pose proof (digits2_bounds m) as [_ Hhi].
  assert (H2 : 0 < 2 ^ (e + 1074)) by (apply Z.pow_pos_nonneg; lia).
  split; [lia|].
  assert (Hm : Zpos m < 2 ^ 53).
  { eapply Z.lt_le_trans; [exact Hhi|]. apply Z.pow_le_mono_r; lia. }
  assert (He' : 2 ^ (e + 1074) <= 2 ^ 2045) by (apply Z.pow_le_mono_r; lia).
  replace 2098 with (53 + 2045) by lia.
  rewrite (Z.pow_add_r 2 53 2045) by lia.
  apply Z.lt_le_trans with (2 ^ 53 * 2 ^ (e + 1074)).
  - apply Z.mul_lt_mono_pos_r; assumption.
  - apply Z.mul_le_mono_nonneg_l; [apply Z.pow_nonneg; lia | exact He'].
Qed.

(** Finite doubles of one sign are ordered by exponent, then mantissa. *)
Lemma finite_exp_lt : forall m1 e1 m2 e2,
  bounded prec emax m1 e1 = true -> bounded prec emax m2 e2 = true ->
  e1 < e2 -> Zpos m1 * 2 ^ (e1 + 1074) < Zpos m2 * 2 ^ (e2 + 1074).
Proof.
  intros m1 e1 m2 e2 H1 H2 Hlt.
  apply bounded_inv in H1. destruct H1 as (He1 & Hd1 & _).
  apply bounded_inv in H2. destruct H2 as (He2 & _ & Hd2).
  specialize (Hd2 ltac:(lia)).
  pose proof (digits2_bounds m1) as [_ Hhi].
  pose proof (digits2_bounds m2) as [Hlo _].
  rewrite Hd2 in Hlo.
  assert (Hm1 : Zpos m1 < 2 ^ 53).
  { eapply Z.lt_le_trans; [exact Hhi|]. apply Z.pow_le_mono_r; lia. }
  replace (e2 + 1074) with ((e1 + 1074) + (e2 - e1)) by lia.
  rewrite (Z.pow_add_r 2 (e1 + 1074) (e2 - e1)) by lia.
  assert (Hp : 0 < 2 ^ (e1 + 1074)) by (apply Z.pow_pos_nonneg; lia).
  assert (Hq : 2 <= 2 ^ (e2 - e1)).
  { change 2 with (2 ^ 1) at 1. apply Z.pow_le_mono_r; lia. }
  set (P := 2 ^ (e1 + 1074)) in *. set (Q := 2 ^ (e2 - e1)) in *.
  apply Z.lt_le_trans with (2 ^ 53 * P).
  - apply Z.mul_lt_mono_pos_r; assumption.
  - change (2 ^ 53) with (2 ^ (53 - 1) * 2).
    rewrite <- Z.mul_assoc.
    apply Z.mul_le_mono_nonneg; [apply Z.pow_nonneg; lia | exact Hlo | lia |].
    rewrite (Z.mul_comm 2 P). apply Z.mul_le_mono_nonneg_l; lia.
Qed.

Ltac by_compare :=
  f_equal; symmetry;
  first [ apply Z.compare_eq_iff; lia
        | apply Z.compare_lt_iff; lia
        | apply Z.compare_gt_iff; lia ].

Lemma finite_same_exp : forall m1 m2 e,
  -1074 <= e ->
  (Zpos m1 * 2 ^ (e + 1074) ?= Zpos m2 * 2 ^ (e + 1074)) =
  Pos.compare_cont Eq m1 m2.
Proof.
  intros m1 m2 e He.
  change (Pos.compare_cont Eq m1 m2) with (Pos.compare m1 m2).
  rewrite Pos2Z.inj_compare.
  assert (Hp : 0 < 2 ^ (e + 1074)) by (apply Z.pow_pos_nonneg; lia).
  destruct (Z.compare_spec (Zpos m1) (Zpos m2)) as [E|E|E].
  - rewrite E. apply Z.compare_refl.
  - apply Z.compare_lt_iff. apply Z.mul_lt_mono_pos_r; assumption.
  - apply Z.compare_gt_iff. apply Z.mul_lt_mono_pos_r; assumption.
Qed.

(** Comparing two doubles is comparing their places. *)
Lemma SFcompare_ord : forall x y,
  valid_binary x = true -> valid_binary y = true ->
  x <> S754_nan -> y <> S754_nan ->
  SFcompare x y = Some (SFord x ?= SFord y).
Proof.
  intros x y Vx Vy Nx Ny.
  destruct x as [sx|sx| |sx mx ex]; try congruence;
  destruct y as [sy|sy| |sy my ey]; try congruence;
  cbn [SpecFloat.valid_binary] in Vx, Vy;
  try (pose proof (finite_below_infinity _ _ Vx));
  try (pose proof (finite_below_infinity _ _ Vy));
  unfold SFcompare, SFord, cond_Zopp;
  assert (Hinf : 0 < 2 ^ 2098) by (apply Z.pow_pos_nonneg; lia);
  try (destruct sx); try (destruct sy); try by_compare.
  - (* both negative *)
    f_equal. destruct (ex ?= ey) eqn:E.
    + apply Z.compare_eq in E. subst ey.
      rewrite <- (finite_same_exp mx my ex)
        by (apply bounded_inv in Vx; lia).
      rewrite Z.compare_opp. rewrite (Z.compare_antisym (Zpos my * _)).
      rewrite CompOpp_involutive. reflexivity.
    + apply Z.compare_lt_iff in E.
      pose proof (finite_exp_lt _ _ _ _ Vx Vy E).
      symmetry. apply Z.compare_gt_iff. lia.
    + apply Z.compare_gt_iff in E.
      pose proof (finite_exp_lt _ _ _ _ Vy Vx E).
      symmetry. apply Z.compare_lt_iff. lia.
  - f_equal. destruct (ex ?= ey) eqn:E.
    + apply Z.compare_eq in E. subst ey.
      rewrite <- (finite_same_exp mx my ex)
        by (apply bounded_inv in Vx; lia).
      reflexivity.
    + apply Z.compare_lt_iff in E.
      pose proof (finite_exp_lt _ _ _ _ Vx Vy E).
      symmetry. apply Z.compare_lt_iff. lia.
    + apply Z.compare_gt_iff in E.
      pose proof (finite_exp_lt _ _ _ _ Vy Vx E).
      symmetry. apply Z.compare_gt_iff. lia.
Qed.

Lemma binary_normalize_sign : forall M e,
  -1074 <= e -> sign_is (M ?= 0) (binary_normalize prec emax M e false).
Proof.
  intros M e He. destruct M as [|m|m]; simpl.
  - left. eauto.
  - apply binary_round_signed, He.
  - apply binary_round_signed, He.
Qed.

(** Aligning a mantissa to a smaller exponent keeps the place. *)
Lemma aligned_ord : forall m e ez,
  -1074 <= ez <= e ->
  Zpos m * 2 ^ (e + 1074) =
  Zpos (fst (shl_align m e ez)) * 2 ^ (ez + 1074).
Proof.
  intros m e ez H. rewrite shl_align_fst by lia.
  rewrite <- Z.mul_assoc, <- Z.pow_add_r by lia.
  f_equal. f_equal. lia.
Qed.

(** The difference of two doubles, neither of them NaN, has the sign of
    their comparison; it is a zero or NaN only when they compare equal. *)
Lemma SFsub_sign : forall x y,
  valid_binary x = true -> valid_binary y = true ->
  x <> S754_nan -> y <> S754_nan ->
  sign_is (SFord x ?= SFord y) (SFsub prec emax x y).
Proof.
  intros x y Vx Vy Nx Ny.
  assert (Hinf : 0 < 2 ^ 2098) by (apply Z.pow_pos_nonneg; lia).
  destruct x as [sx|sx| |sx mx ex]; try congruence;
  destruct y as [sy|sy| |sy my ey]; try congruence;
  cbn [SpecFloat.valid_binary] in Vx, Vy;
  try (pose proof (finite_below_infinity _ _ Vx));
  try (pose proof (finite_below_infinity _ _ Vy));
  unfold SFord, cond_Zopp.
  - rewrite Z.compare_refl. cbn [sign_is]. left. destruct sx, sy; simpl; eauto.
  - destruct sy; cbn [SFsub negb].
    + replace (0 ?= - 2 ^ 2098) with Gt
        by (symmetry; apply Z.compare_gt_iff; lia).
      cbn [sign_is]. right. reflexivity.
    + replace (0 ?= 2 ^ 2098) with Lt
        by (symmetry; apply Z.compare_lt_iff; lia).
      cbn [sign_is]. right. reflexivity.
  - destruct sy; cbn [SFsub negb].
    + replace (0 ?= - (Zpos my * 2 ^ (ey + 1074))) with Gt
        by (symmetry; apply Z.compare_gt_iff; lia).
      cbn [sign_is]. left. eauto.
    + replace (0 ?= Zpos my * 2 ^ (ey + 1074)) with Lt
        by (symmetry; apply Z.compare_lt_iff; lia).
      cbn [sign_is]. left. eauto.
  - destruct sx; cbn [SFsub negb].
    + replace (- 2 ^ 2098 ?= 0) with Lt
        by (symmetry; apply Z.compare_lt_iff; lia).
      cbn [sign_is]. right. reflexivity.
    + replace (2 ^ 2098 ?= 0) with Gt
        by (symmetry; apply Z.compare_gt_iff; lia).
      cbn [sign_is]. right. reflexivity.
  - destruct sx, sy; cbn [SFsub negb].
    + rewrite Z.compare_refl. cbn [sign_is]. right. reflexivity.
    + replace (- 2 ^ 2098 ?= 2 ^ 2098) with Lt
        by (symmetry; apply Z.compare_lt_iff; lia).
      cbn [sign_is]. right. reflexivity.
    + replace (2 ^ 2098 ?= - 2 ^ 2098) with Gt
        by (symmetry; apply Z.compare_gt_iff; lia).
      cbn [sign_is]. right. reflexivity.
    + rewrite Z.compare_refl. cbn [sign_is]. right. reflexivity.
  - destruct sx; cbn [SFsub negb].
    + replace (- 2 ^ 2098 ?= (if sy then _ else _)) with Lt
        by (symmetry; apply Z.compare_lt_iff; destruct sy; lia).
      cbn [sign_is]. right. reflexivity.
    + replace (2 ^ 2098 ?= (if sy then _ else _)) with Gt
        by (symmetry; apply Z.compare_gt_iff; destruct sy; lia).
      cbn [sign_is]. right. reflexivity.
  - destruct sx; cbn [SFsub negb].
    + replace (- (Zpos mx * 2 ^ (ex + 1074)) ?= 0) with Lt
        by (symmetry; apply Z.compare_lt_iff; lia).
      cbn [sign_is]. left. eauto.
    + replace (Zpos mx * 2 ^ (ex + 1074) ?= 0) with Gt
        by (symmetry; apply Z.compare_gt_iff; lia).
      cbn [sign_is]. left. eauto.
  - destruct sy; cbn [SFsub negb].
    + replace ((if sx then _ else _) ?= - 2 ^ 2098) with Gt
        by (symmetry; apply Z.compare_gt_iff; destruct sx; lia).
      cbn [sign_is]. right. reflexivity.
    + replace ((if sx then _ else _) ?= 2 ^ 2098) with Lt
        by (symmetry; apply Z.compare_lt_iff; destruct sx; lia).
      cbn [sign_is]. right. reflexivity.
  - cbn [SFsub].
    pose proof (bounded_inv _ _ Vx) as (Hex & _).
    pose proof (bounded_inv _ _ Vy) as (Hey & _).
    set (ez := Z.min ex ey).
    assert (Hez : -1074 <= ez) by (unfold ez; lia).
    rewrite (aligned_ord mx ex ez) by (unfold ez; lia).
    rewrite (aligned_ord my ey ez) by (unfold ez; lia).
    set (A := Zpos (fst (shl_align mx ex ez))).
    set (B := Zpos (fst (shl_align my ey ez))).
    assert (Hp : 0 < 2 ^ (ez + 1074)) by (apply Z.pow_pos_nonneg; lia).
    set (P := 2 ^ (ez + 1074)) in *.
    pose proof (binary_normalize_sign
                  (SpecFloat.cond_Zopp sx A - SpecFloat.cond_Zopp sy B) ez Hez)
      as Hs.
    replace ((if sx then - (A * P) else A * P) ?=
             (if sy then - (B * P) else B * P))
      with (SpecFloat.cond_Zopp sx A - SpecFloat.cond_Zopp sy B ?= 0);
      [exact Hs|].
    destruct (Z.compare_spec (SpecFloat.cond_Zopp sx A -
                              SpecFloat.cond_Zopp sy B) 0) as [E|E|E];
      symmetry;
      [apply Z.compare_eq_iff | apply Z.compare_lt_iff
       | apply Z.compare_gt_iff];
      destruct sx, sy; unfold SpecFloat.cond_Zopp in E; nia.
Qed.

Lemma is_nan_spec : forall x,
  PrimFloat.is_nan x = false <-> Prim2SF x <> S754_nan.
Proof.
  intros x. unfold PrimFloat.is_nan. rewrite eqb_spec. unfold SFeqb.
  pose proof (Prim2SF_valid x) as V.
  destruct (Prim2SF x) as [s|s| |s m e] eqn:E.
  - simpl. split; [discriminate | reflexivity].
  - destruct s; simpl; (split; [discriminate | reflexivity]).
  - simpl. split; [discriminate | congruence].
  - rewrite SFcompare_ord by (try exact V; discriminate).
    rewrite Z.compare_refl. simpl. split; [discriminate | reflexivity].
Qed.

Lemma ltb_ord : forall x y,
  PrimFloat.is_nan x = false -> PrimFloat.is_nan y = false ->
  PrimFloat.ltb x y = (ord x <? ord y).
Proof.
  intros x y Hx Hy. apply is_nan_spec in Hx, Hy.
  rewrite ltb_spec. unfold SFltb, ord, Z.ltb.
  rewrite SFcompare_ord by (try apply Prim2SF_valid; assumption).
  reflexivity.
Qed.

Lemma leb_ord : forall x y,
  PrimFloat.is_nan x = false -> PrimFloat.is_nan y = false ->
  PrimFloat.leb x y = (ord x <=? ord y).
Proof.
  intros x y Hx Hy. apply is_nan_spec in Hx, Hy.
  rewrite leb_spec. unfold SFleb, ord, Z.leb.
  rewrite SFcompare_ord by (try apply Prim2SF_valid; assumption).
  destruct (SFord (Prim2SF x) ?= SFord (Prim2SF y)); reflexivity.
Qed.

Lemma Prim2SF_zero : Prim2SF 0%float = S754_zero false.
Proof. reflexivity. Qed.

Lemma sign_of_spec : forall v c,
  sign_is c (Prim2SF v) -> sign v = c.
Proof.
  intros v c H. unfold sign. rewrite !ltb_spec, Prim2SF_zero.
  unfold SFltb.
  destruct c; cbn [sign_is] in H.
  - destruct H as [[s ->] | ->]; reflexivity.
  - destruct H as [(m & e & ->) | ->]; reflexivity.
  - destruct H as [(m & e & ->) | ->]; reflexivity.
Qed.

(** The sign that the sort reads from [y - x] is the comparison of [y]
    with [x], when neither is NaN. *)
Lemma sign_sub : forall x y,
  PrimFloat.is_nan x = false -> PrimFloat.is_nan y = false ->
  sign (PrimFloat.sub y x) = (ord y ?= ord x).
Proof.
  intros x y Hx Hy. apply is_nan_spec in Hx, Hy.
  apply sign_of_spec. rewrite sub_spec.
  apply SFsub_sign; try apply Prim2SF_valid; assumption.
Qed.

End DoubleFacts.

Module SortFacts.
Import Js EvalHonest Vec TopK CosineFacts.
Local Open Scope R_scope.

Section AnyComparator.
Context {A : Type} (comparefn : A -> A -> num).

Lemma insert_perm : forall x l, Permutation (insert comparefn x l) (x :: l).
Proof.
  intros x l. induction l as [|y l IH]; simpl.
  - apply Permutation_refl.
  - destruct (positive (comparefn x y)).
    + eapply perm_trans; [apply perm_skip, IH | apply perm_swap].
    + apply Permutation_refl.
Qed.

Lemma sort_perm : forall l, Permutation (sort comparefn l) l.
Proof.
  induction l as [|x l IH]; simpl.
  - apply perm_nil.
  - eapply perm_trans; [apply insert_perm | apply perm_skip, IH].
Qed.
End AnyComparator.

Section Sorted.
Context {A : Type} (Rel : A -> A -> Prop).

Lemma StronglySorted_app_l : forall l1 l2,
  StronglySorted Rel (l1 ++ l2) -> StronglySorted Rel l1.
Proof.
  induction l1 as [|x l1 IH]; intros l2 H; simpl in *.
  - constructor.
  - inversion H as [|? ? Hs Hf]; subst. constructor.
    + eapply IH; eassumption.
    + apply Forall_app in Hf. tauto.
Qed.

Lemma StronglySorted_app_cross : forall l1 l2,
  StronglySorted Rel (l1 ++ l2) ->
  forall x y, In x l1 -> In y l2 -> Rel x y.
Proof.
  induction l1 as [|z l1 IH]; intros l2 H x y Hx Hy; simpl in *.
  - contradiction.
  - inversion H as [|? ? Hs Hf]; subst. destruct Hx as [->|Hx].
    + rewrite Forall_forall in Hf. apply Hf, in_or_app. auto.
    + eapply IH; eassumption.
Qed.

Lemma StronglySorted_unmap {B : Type} (f : B -> A) : forall l,
  StronglySorted Rel (map f l) ->
  StronglySorted (fun x y => Rel (f x) (f y)) l.
Proof.
  induction l as [|x l IH]; simpl; intros H.
  - constructor.
  - inversion H as [|? ? Hs Hf]; subst. constructor; [auto|].
    rewrite Forall_map in Hf. exact Hf.
Qed.
End Sorted.

Lemma slice_prefix {A : Type} : forall (l : list A) limit,
  (0 <= limit)%Z -> slice l 0 limit = firstn (Z.to_nat limit) l.
Proof.
  intros l limit H. unfold slice.
  assert (H0 : rel_index (Z.of_nat (length l)) 0 = 0%Z)
    by (unfold rel_index; simpl; lia).
  assert (H1 : rel_index (Z.of_nat (length l)) limit
               = Z.min limit (Z.of_nat (length l))).
  { unfold rel_index. destruct (Z.ltb_spec limit 0); [lia|reflexivity]. }
  rewrite H0, H1, Z.sub_0_r. change (Z.to_nat 0) with O. rewrite skipn_O.
  destruct (Z.le_ge_cases limit (Z.of_nat (length l))) as [Hle|Hge].
  - rewrite Z.min_l by lia. reflexivity.
  - rewrite Z.min_r by lia. rewrite Nat2Z.id.
    rewrite firstn_all. symmetry. apply firstn_all2. lia.
Qed.

Lemma skipn_nth_cons {A : Type} : forall (l : list A) i x,
  nth_error l i = Some x -> skipn i l = x :: skipn (S i) l.
Proof.
  induction l as [|y l IH]; intros [|i] x H; simpl in *; try discriminate.
  - rewrite ?skipn_O. congruence.
  - apply IH. exact H.
Qed.

Section StableSort.
Context {A : Type}.
Variable engineOrder : (A -> A -> PrimFloat.float) -> list A -> list A.
Variable comparefn : A -> A -> PrimFloat.float.

Lemma insert_double_perm : forall x l,
  Permutation (JsDouble.insert comparefn x l) (x :: l).
Proof.
  intros x l. induction l as [|y l IH]; simpl.
  - apply Permutation_refl.
  - destruct (JsDouble.after comparefn x y).
    + eapply perm_trans; [apply perm_skip, IH | apply perm_swap].
    + apply Permutation_refl.
Qed.

Lemma stableSort_perm : forall l,
  Permutation (JsDouble.stableSort comparefn l) l.
Proof.
  induction l as [|x l IH]; simpl.
  - apply perm_nil.
  - eapply perm_trans; [apply insert_double_perm | apply perm_skip, IH].
Qed.

(** A comparator that, on the elements that are [ok], has the sign of the
    comparison of two integer keys, the greater key first. *)
Variable key : A -> Z.
Variable ok : A -> Prop.
Hypothesis order_key : forall x y, ok x -> ok y ->
  JsDouble.order comparefn x y = (key y ?= key x)%Z.

Lemma consistentAt_key : forall a b c, ok a -> ok b -> ok c ->
  JsDouble.consistentAt comparefn a b c = true.
Proof.
  intros a b c Ha Hb Hc.
  unfold JsDouble.consistentAt, JsDouble.tie, JsDouble.before,
    JsDouble.after.
  rewrite !order_key by assumption. rewrite Z.compare_refl.
  destruct (Z.compare_spec (key b) (key a));
  destruct (Z.compare_spec (key a) (key b));
  destruct (Z.compare_spec (key c) (key b));
  destruct (Z.compare_spec (key c) (key a));
  simpl; try reflexivity; lia.
Qed.

Lemma consistent_key : forall l, Forall ok l ->
  JsDouble.consistent comparefn l = true.
Proof.
  intros l Hok. rewrite Forall_forall in Hok. unfold JsDouble.consistent.
  apply forallb_forall. intros a Ha.
  apply forallb_forall. intros b Hb.
  apply forallb_forall. intros c Hc.
  apply consistentAt_key; auto.
Qed.

Lemma sort_key : forall l, Forall ok l ->
  JsDouble.sort engineOrder comparefn l = JsDouble.stableSort comparefn l.
Proof.
  intros l Hok. unfold JsDouble.sort. rewrite consistent_key by exact Hok.
  reflexivity.
Qed.

Lemma after_key : forall x y, ok x -> ok y ->
  JsDouble.after comparefn x y = (key x <? key y)%Z.
Proof.
  intros x y Hx Hy. unfold JsDouble.after. rewrite order_key by assumption.
  unfold Z.ltb. rewrite (Z.compare_antisym (key y) (key x)).
  destruct (key y ?= key x)%Z; reflexivity.
Qed.

Lemma insert_sorted_key : forall x l,
  ok x -> Forall ok l ->
  StronglySorted (fun a b => (key b <= key a)%Z) l ->
  StronglySorted (fun a b => (key b <= key a)%Z)
    (JsDouble.insert comparefn x l).
Proof.
  intros x l Hx. induction l as [|y l IH]; intros Hok Hs; simpl.
  - repeat constructor.
  - inversion Hok as [|? ? Hy Hl]; subst.
    inversion Hs as [|? ? Hs' Hf]; subst.
    rewrite after_key by assumption.
    destruct (Z.ltb_spec (key x) (key y)) as [Hlt|Hge].
    + constructor; [apply IH; assumption|].
      eapply Permutation_Forall;
        [apply Permutation_sym, insert_double_perm|].
      constructor; [lia | exact Hf].
    + constructor; [exact Hs|]. constructor; [lia|].
      rewrite Forall_forall in *. intros z Hz.
      specialize (Hf z Hz). simpl in Hf. lia.
Qed.

Lemma stableSort_sorted_key : forall l,
  Forall ok l ->
  StronglySorted (fun a b => (key b <= key a)%Z)
    (JsDouble.stableSort comparefn l).
Proof.
  induction l as [|x l IH]; intros Hok; simpl.
  - constructor.
  - inversion Hok as [|? ? Hx Hl]; subst.
    apply insert_sorted_key; auto.
    eapply Permutation_Forall; [apply Permutation_sym, stableSort_perm|].
    exact Hl.
Qed.
End StableSort.

(** For a comparator that is consistent on the elements of an array, the
    stable insertion sort gives what the language asks of
    [Array.prototype.sort]: a permutation of the array in which no
    element stands before one that the comparator puts ahead of it, and
    in which the elements that tie with a given one keep their order. *)
Section Consistent.
Context {A : Type} (comparefn : A -> A -> PrimFloat.float).
Variable l0 : list A.
Hypothesis Hc : JsDouble.consistent comparefn l0 = true.

Lemma consistent_at : forall a b c, In a l0 -> In b l0 -> In c l0 ->
  JsDouble.order comparefn a a = Eq /\
  (JsDouble.order comparefn a b = Eq -> JsDouble.order comparefn b a = Eq) /\
  (JsDouble.order comparefn a b = Eq -> JsDouble.order comparefn b c = Eq ->
   JsDouble.order comparefn a c = Eq) /\
  (JsDouble.order comparefn a b = Lt -> JsDouble.order comparefn b c = Lt ->
   JsDouble.order comparefn a c = Lt) /\
  (JsDouble.order comparefn a b = Gt -> JsDouble.order comparefn b c = Gt ->
   JsDouble.order comparefn a c = Gt).
Proof.
  intros a b c Ha Hb Hc'. unfold JsDouble.consistent in Hc.
  rewrite forallb_forall in Hc. specialize (Hc a Ha).
  rewrite forallb_forall in Hc. specialize (Hc b Hb).
  rewrite forallb_forall in Hc. specialize (Hc c Hc').
  unfold JsDouble.consistentAt, JsDouble.tie, JsDouble.before,
    JsDouble.after in Hc.
  destruct (JsDouble.order comparefn a a),
           (JsDouble.order comparefn a b),
           (JsDouble.order comparefn b a),
           (JsDouble.order comparefn b c),
           (JsDouble.order comparefn a c);
    simpl in Hc; try discriminate; repeat split; congruence.
Qed.

Lemma order_after_before : forall a b, In a l0 -> In b l0 ->
  JsDouble.order comparefn a b = Gt -> JsDouble.order comparefn b a = Lt.
Proof.
  intros a b Ha Hb Hgt.
  destruct (consistent_at a b a Ha Hb Ha) as (Hrefl & _ & _ & _ & Hgt3).
  destruct (consistent_at b a a Hb Ha Ha) as (_ & Hsym & _).
  destruct (JsDouble.order comparefn b a) eqn:E; [| reflexivity |].
  - rewrite Hsym in Hgt by reflexivity. discriminate.
  - rewrite Hgt3 in Hrefl by auto. discriminate.
Qed.

Lemma order_before_after : forall a b, In a l0 -> In b l0 ->
  JsDouble.order comparefn a b = Lt -> JsDouble.order comparefn b a = Gt.
Proof.
  intros a b Ha Hb Hlt.
  destruct (consistent_at a b a Ha Hb Ha) as (Hrefl & _ & _ & Hlt3 & _).
  destruct (consistent_at b a a Hb Ha Ha) as (_ & Hsym & _).
  destruct (JsDouble.order comparefn b a) eqn:E; [| | reflexivity].
  - rewrite Hsym in Hlt by reflexivity. discriminate.
  - rewrite Hlt3 in Hrefl by auto. discriminate.
Qed.

Lemma not_after_trans : forall a b c, In a l0 -> In b l0 -> In c l0 ->
  JsDouble.after comparefn a b = false ->
  JsDouble.after comparefn b c = false ->
  JsDouble.after comparefn a c = false.
Proof.
  intros a b c Ha Hb Hc' Hab Hbc. unfold JsDouble.after in *.
  destruct (JsDouble.order comparefn a c) eqn:Eac; try reflexivity.
  exfalso.
  pose proof (order_after_before a c Ha Hc' Eac) as Eca.
  destruct (consistent_at a b c Ha Hb Hc') as (_ & _ & Heq & _ & _).
  destruct (consistent_at c a b Hc' Ha Hb) as (_ & _ & _ & Hlt & _).
  destruct (consistent_at b c a Hb Hc' Ha) as (_ & _ & _ & Hlt' & _).
  destruct (consistent_at a b b Ha Hb Hb) as (_ & Hsym & _).
  destruct (JsDouble.order comparefn a b) eqn:Eab; try discriminate.
  - destruct (JsDouble.order comparefn b c) eqn:Ebc; try discriminate.
    + rewrite Heq in Eac by reflexivity. discriminate.
    + specialize (Hlt' eq_refl Eca). rewrite Hsym in Hlt' by reflexivity.
      discriminate.
  - specialize (Hlt Eca eq_refl).
    apply (order_before_after c b Hc' Hb) in Hlt.
    rewrite Hlt in Hbc. discriminate.
Qed.

Lemma insert_sorted_consistent : forall x l,
  In x l0 -> incl l l0 ->
  StronglySorted (fun a b => JsDouble.after comparefn a b = false) l ->
  StronglySorted (fun a b => JsDouble.after comparefn a b = false)
    (JsDouble.insert comparefn x l).
Proof.
  intros x l Hx. induction l as [|y l IH]; intros Hin Hs; simpl.
  - repeat constructor.
  - assert (Hy : In y l0) by (apply Hin; left; reflexivity).
    assert (Hl : incl l l0) by (intros z Hz; apply Hin; right; exact Hz).
    inversion Hs as [|? ? Hs' Hf]; subst.
    destruct (JsDouble.after comparefn x y) eqn:E.
    + constructor; [apply IH; assumption|].
      eapply Permutation_Forall;
        [apply Permutation_sym, insert_double_perm|].
      constructor; [|exact Hf].
      unfold JsDouble.after in *.
      destruct (JsDouble.order comparefn x y) eqn:Exy; try discriminate.
      rewrite (order_after_before x y Hx Hy Exy). reflexivity.
    + constructor; [exact Hs|]. constructor; [exact E|].
      rewrite Forall_forall in *. intros z Hz.
      apply (not_after_trans x y z); auto.
Qed.

Lemma stableSort_sorted_consistent : forall l,
  incl l l0 ->
  StronglySorted (fun a b => JsDouble.after comparefn a b = false)
    (JsDouble.stableSort comparefn l).
Proof.
  induction l as [|x l IH]; intros Hin; simpl.
  - constructor.
  - apply insert_sorted_consistent.
    + apply Hin. left. reflexivity.
    + intros z Hz. apply Hin. right.
      apply (Permutation_in _ (stableSort_perm comparefn l)). exact Hz.
    + apply IH. intros z Hz. apply Hin. right. exact Hz.
Qed.

Lemma insert_ties : forall e x l,
  In e l0 -> In x l0 -> incl l l0 ->
  filter (JsDouble.tie comparefn e) (JsDouble.insert comparefn x l) =
  filter (JsDouble.tie comparefn e) (x :: l).
Proof.
  intros e x l He Hx. induction l as [|y l IH]; intros Hin; simpl.
  - reflexivity.
  - assert (Hy : In y l0) by (apply Hin; left; reflexivity).
    assert (Hl : incl l l0) by (intros z Hz; apply Hin; right; exact Hz).
    destruct (JsDouble.after comparefn x y) eqn:E; [|reflexivity].
    simpl. rewrite (IH Hl). simpl.
    destruct (JsDouble.tie comparefn e x) eqn:Tx;
      destruct (JsDouble.tie comparefn e y) eqn:Ty; try reflexivity.
    exfalso. unfold JsDouble.tie, JsDouble.after in *.
    destruct (JsDouble.order comparefn e x) eqn:Eex; try discriminate.
    destruct (JsDouble.order comparefn e y) eqn:Eey; try discriminate.
    destruct (JsDouble.order comparefn x y) eqn:Exy; try discriminate.
    destruct (consistent_at e x x He Hx Hx) as (_ & Hsym & _).
    destruct (consistent_at x e y Hx He Hy) as (_ & _ & Heq & _).
    rewrite Heq in Exy by auto. discriminate.
Qed.

Lemma stableSort_ties : forall e l,
  In e l0 -> incl l l0 ->
  filter (JsDouble.tie comparefn e) (JsDouble.stableSort comparefn l) =
  filter (JsDouble.tie comparefn e) l.
Proof.
  intros e l He. induction l as [|x l IH]; intros Hin.
  - reflexivity.
  - cbn [JsDouble.stableSort]. rewrite insert_ties.
    + simpl. rewrite IH; [reflexivity|].
      intros z Hz. apply Hin. right. exact Hz.
    + exact He.
    + apply Hin. left. reflexivity.
    + intros z Hz. apply Hin. right.
      apply (Permutation_in _ (stableSort_perm comparefn l)). exact Hz.
Qed.
End Consistent.

(** On a consistent comparator [sort] does not turn to the engine: its
    result is a permutation, sorted and stable. *)
Lemma sort_stable_sorted {A : Type} : forall engineOrder
  (comparefn : A -> A -> PrimFloat.float) l,
  JsDouble.consistent comparefn l = true ->
  Permutation (JsDouble.sort engineOrder comparefn l) l /\
  StronglySorted (fun a b => JsDouble.after comparefn a b = false)
    (JsDouble.sort engineOrder comparefn l) /\
  (forall e, In e l ->
     filter (JsDouble.tie comparefn e) (JsDouble.sort engineOrder comparefn l)
     = filter (JsDouble.tie comparefn e) l).
Proof.
  intros engineOrder comparefn l Hc. unfold JsDouble.sort. rewrite Hc.
  split; [apply stableSort_perm|]. split.
  - apply (stableSort_sorted_consistent comparefn l Hc). intros z Hz. exact Hz.
  - intros e He. apply (stableSort_ties comparefn l Hc); [exact He|].
    intros z Hz. exact Hz.
Qed.
(** The comparator of the search on scores that are numbers. *)
Lemma order_byScoreDesc : forall x y,
  is_number x -> is_number y ->
  JsDouble.order byScoreDesc x y =
  (DoubleOrder.ord (score y) ?= DoubleOrder.ord (score x))%Z.
Proof.
  intros x y Hx Hy. unfold JsDouble.order, byScoreDesc.
  apply DoubleFacts.sign_sub; assumption.
Qed.

Lemma desc_ord : forall x y,
  is_number x -> is_number y ->
  (DoubleOrder.ord (score y) <= DoubleOrder.ord (score x))%Z -> desc x y.
Proof.
  intros x y Hx Hy H. unfold desc.
  rewrite DoubleFacts.leb_ord by assumption. apply Z.leb_le, H.
Qed.

Lemma sorted_desc : forall l,
  Forall is_number l ->
  StronglySorted
    (fun a b => (DoubleOrder.ord (score b) <= DoubleOrder.ord (score a))%Z) l ->
  StronglySorted desc l.
Proof.
  induction l as [|x l IH]; intros Hn Hs.
  - constructor.
  - inversion Hn as [|? ? Hx Hl]; subst.
    inversion Hs as [|? ? Hs' Hf]; subst.
    constructor; [apply IH; assumption|].
    rewrite Forall_forall in *. intros z Hz.
    apply desc_ord; auto.
Qed.

(** With an embedding for every chunk, the mapped array pairs each chunk
    with the similarity of its embedding. *)
Lemma scoreChunks_combine : forall q embeddings chunks i,
  (i + length chunks <= length embeddings)%nat ->
  scoreChunks q embeddings i chunks =
  Some (map (scorePair q) (combine chunks (skipn i embeddings))).
Proof.
  intros q embeddings chunks. induction chunks as [|c chunks IH];
    intros i Hlen; simpl in *.
  - reflexivity.
  - unfold scoreAt.
    destruct (nth_error embeddings i) as [e|] eqn:He;
      [|apply nth_error_None in He; lia].
    rewrite IH by lia. rewrite (skipn_nth_cons _ _ _ He). reflexivity.
Qed.

(** C1 (amended).  For a limit that is not negative and an embedding for
    each chunk, when every similarity that the code computes is a number
    (none is NaN), [vectorSearchMarkdown] returns a top-[limit] answer by
    the computed similarity: [min(limit, number of chunks)] chunks, hence
    at most [limit]; those of highest computed cosine similarity to the
    query; in descending order of that similarity. *)
Theorem vectorSearchMarkdown_top_k :
  forall engineOrder q chunks embeddings limit,
  (0 <= limit)%Z ->
  length embeddings = length chunks ->
  (forall e, In e embeddings ->
     PrimFloat.is_nan (Double.cosineSim q e) = false) ->
  exists res,
    vectorSearchMarkdown engineOrder q chunks embeddings limit = Some res /\
    top_k q chunks embeddings limit res.
Proof.
  intros engineOrder q chunks embeddings limit Hlim Hlen Hemb.
  unfold vectorSearchMarkdown.
  rewrite scoreChunks_combine by (simpl; lia). rewrite skipn_O.
  set (pairs := combine chunks embeddings).
  assert (Hnum : Forall is_number (map (scorePair q) pairs)).
  { rewrite Forall_map, Forall_forall. intros [c e] Hin.
    apply in_combine_r in Hin. apply Hemb, Hin. }
  rewrite (sort_key engineOrder byScoreDesc
             (fun s => DoubleOrder.ord (score s))
             is_number order_byScoreDesc) by exact Hnum.
  set (sorted := JsDouble.stableSort byScoreDesc (map (scorePair q) pairs)).
  pose proof (stableSort_perm byScoreDesc (map (scorePair q) pairs)) as Hperm.
  fold sorted in Hperm.
  assert (Hsorted : StronglySorted desc sorted).
  { apply sorted_desc.
    - eapply Permutation_Forall; [apply Permutation_sym, Hperm | exact Hnum].
    - apply (stableSort_sorted_key byScoreDesc
               (fun s => DoubleOrder.ord (score s)) is_number
               order_byScoreDesc).
      exact Hnum. }
  apply Permutation_map_inv in Hperm.
  destruct Hperm as (ordered & Heq & Hperm).
  assert (Hord : StronglySorted (sim_ge q) ordered).
  { rewrite Heq in Hsorted.
    apply (StronglySorted_unmap desc (scorePair q)) in Hsorted.
    exact Hsorted. }
  assert (Hlo : length ordered = length chunks).
  { rewrite <- (Permutation_length Hperm). unfold pairs.
    rewrite length_combine. lia. }
  eexists. split; [reflexivity|].
  rewrite slice_prefix by exact Hlim. set (k := Z.to_nat limit).
  split.
  - rewrite length_map, length_firstn. lia.
  - exists (firstn k ordered), (skipn k ordered).
    rewrite <- (firstn_skipn k ordered) in Hord.
    repeat split.
    + rewrite firstn_skipn. apply Permutation_sym, Hperm.
    + rewrite Heq, firstn_map, map_map. reflexivity.
    + rewrite length_firstn, Hlo. reflexivity.
    + eapply StronglySorted_app_l; exact Hord.
    + eapply StronglySorted_app_cross; exact Hord.
Qed.

Import PrimFloat.

Lemma vectorSearchMarkdown_top_k_witness :
  exists res,
    vectorSearchMarkdown JsDouble.stableSort [1%float; 0%float]
      ["a"; "b"; "c"]%string
      [[0%float; 1%float]; [1%float; 0%float]; [1%float; 1%float]] 2
    = Some res /\
    top_k [1%float; 0%float] ["a"; "b"; "c"]%string
      [[0%float; 1%float]; [1%float; 0%float]; [1%float; 1%float]] 2 res.
Proof.
  apply vectorSearchMarkdown_top_k.
  - lia.
  - reflexivity.
  - intros e [<-|[<-|[<-|[]]]]; vm_compute; reflexivity.
Defined.

(** What the search returns, whatever the engine: a ranking, a tie of two
    computed similarities, a negative limit, similarities that are NaN,
    and a missing embedding. *)
Example search_ranks : forall engineOrder,
  map (Double.cosineSim [1%float; 0%float])
    [[0%float; 1%float]; [1%float; 0%float]; [1%float; 1%float]]
  = [0%float; 1%float; 0x1.6a09e667f3bccp-1%float] /\
  vectorSearchMarkdown engineOrder [1%float; 0%float] ["a"; "b"; "c"]%string
    [[0%float; 1%float]; [1%float; 0%float]; [1%float; 1%float]] 2
  = Some ["b"; "c"]%string.
Proof. intros engineOrder. split; vm_compute; reflexivity. Qed.

Lemma search_rounding_tie : forall engineOrder,
  Double.cosineSim [1%float; 0%float] [1%float; 0x1p-30%float] = 1%float /\
  vectorSearchMarkdown engineOrder [1%float; 0%float] ["a"; "b"]%string
    [[1%float; 0x1p-30%float]; [1%float; 0%float]] 1
  = Some ["a"]%string.
Proof. intros engineOrder. split; vm_compute; reflexivity. Qed.

Lemma search_negative_limit : forall engineOrder,
  vectorSearchMarkdown engineOrder [1%float] ["a"; "b"; "c"]%string
    [[1%float]; [1%float]; [1%float]] (-1)
  = Some ["a"; "b"]%string.
Proof. intros engineOrder. vm_compute. reflexivity. Qed.

Lemma search_zero_norm : forall engineOrder,
  is_nan (Double.cosineSim [1%float] [0%float]) = true /\
  vectorSearchMarkdown engineOrder [1%float] ["a"; "b"]%string
    [[0%float]; [1%float]] 1
  = Some ["a"]%string.
Proof. intros engineOrder. split; vm_compute; reflexivity. Qed.

Lemma search_short_embedding : forall engineOrder,
  is_nan (Double.cosineSim [1%float; 0%float] [1%float]) = true /\
  vectorSearchMarkdown engineOrder [1%float; 0%float] ["a"; "b"]%string
    [[1%float]; [1%float; 0%float]] 1
  = Some ["a"]%string.
Proof. intros engineOrder. split; vm_compute; reflexivity. Qed.

Example search_missing_embedding : forall engineOrder,
  vectorSearchMarkdown engineOrder [1%float] ["a"; "b"]%string [[1%float]] 2
  = None /\
  vectorSearchMarkdown engineOrder [] ["a"; "b"]%string [[1%float]] 2
  = Some ["a"; "b"]%string.
Proof. intros engineOrder. split; vm_compute; reflexivity. Qed.

(** With the similarities 1, NaN and -1 the comparator is not consistent:
    the NaN ties with both numbers, which do not tie.  The answer is then
    the order of the engine. *)
Example search_engine_order : forall engineOrder,
  map (Double.cosineSim [1%float]) [[1%float]; [0%float]; [(-1)%float]]
  = [1%float; nan; (-1)%float] /\
  JsDouble.consistent byScoreDesc
    [mkScored "a" 1%float; mkScored "b" nan; mkScored "c" (-1)%float]
  = false /\
  vectorSearchMarkdown engineOrder [1%float] ["a"; "b"; "c"]%string
    [[1%float]; [0%float]; [(-1)%float]] 3
  = Some (map chunk
            (slice (engineOrder byScoreDesc
                      [mkScored "a" 1%float; mkScored "b" nan;
                       mkScored "c" (-1)%float]) 0 3)).
Proof.
  intros engineOrder. split; [vm_compute; reflexivity|].
  split; [vm_compute; reflexivity|].
  unfold vectorSearchMarkdown.
  replace (scoreChunks [1%float] [[1%float]; [0%float]; [(-1)%float]] 0
             ["a"; "b"; "c"]%string)
    with (Some [mkScored "a" 1%float; mkScored "b" nan;
                mkScored "c" (-1)%float])
    by (vm_compute; reflexivity).
  unfold JsDouble.sort.
  replace (JsDouble.consistent byScoreDesc
             [mkScored "a" 1%float; mkScored "b" nan;
              mkScored "c" (-1)%float])
    with false by (vm_compute; reflexivity).
  reflexivity.
Qed.

(** The similarity of two embeddings of one dimension and non-zero norm
    is NaN when the squares overflow (infinity over infinity) or
    underflow (zero over zero). *)
Example cosineSim_out_of_range :
  is_nan (Double.cosineSim [0x1p600%float] [0x1p600%float]) = true /\
  is_nan (Double.cosineSim [0x1p-600%float] [0x1p-600%float]) = true.
Proof. split; vm_compute; reflexivity. Qed.

(** When the second of two chunks is not below the first in the order
    [ge], the answer that holds the first chunk alone is not a top-1
    answer. *)
Lemma first_alone_not_top_1 {E : Type} (ge : string * E -> string * E -> Prop)
  (ea eb : E) :
  ~ ge ("a"%string, ea) ("b"%string, eb) ->
  ~ top_k_by ge ["a"; "b"]%string [ea; eb] 1 ["a"]%string.
Proof.
  intros Hge (_ & sel & rest & Hperm & Hres & Hl & _ & Hcross).
  destruct sel as [|p [|? ?]]; try discriminate.
  simpl in Hres. injection Hres as Hp.
  assert (Hb : In ("b"%string, eb) ([p] ++ rest)).
  { eapply Permutation_in; [apply Permutation_sym, Hperm|]. simpl. auto. }
  simpl in Hb.
  destruct Hb as [Hb|Hb]; [subst p; discriminate|].
  assert (Hpa : In p ([p] ++ rest)) by (left; reflexivity).
  apply (Permutation_in _ Hperm) in Hpa. simpl in Hpa.
  destruct Hpa as [Hpa|[Hpa|[]]]; [|subst p; discriminate].
  specialize (Hcross p ("b"%string, eb) (or_introl eq_refl) Hb).
  subst p. exact (Hge Hcross).
Qed.

Lemma exact_one : DoubleOrder.exact 1%float = 1.
Proof.
  unfold DoubleOrder.exact.
  replace (FloatOps.Prim2SF 1%float)
    with (SpecFloat.S754_finite false 4503599627370496 (-52))
    by (vm_compute; reflexivity).
  cbn [Z.leb Z.compare SpecFloat.cond_Zopp Z.opp].
  match goal with
  | |- context [(?a ^ ?b)%Z] =>
      let v := eval vm_compute in (a ^ b)%Z in change (a ^ b)%Z with v
  end.
  lra.
Qed.

Lemma exact_zero : DoubleOrder.exact 0%float = 0.
Proof. reflexivity. Qed.

Lemma exact_small : 0 < DoubleOrder.exact 0x1p-30%float.
Proof.
  unfold DoubleOrder.exact.
  replace (FloatOps.Prim2SF 0x1p-30%float)
    with (SpecFloat.S754_finite false 4503599627370496 (-82))
    by (vm_compute; reflexivity).
  cbn [Z.leb Z.compare SpecFloat.cond_Zopp Z.opp].
  match goal with
  | |- context [(?a ^ ?b)%Z] =>
      let v := eval vm_compute in (a ^ b)%Z in change (a ^ b)%Z with v
  end.
  lra.
Qed.

(** By the exact values the second chunk is the more similar one. *)
Lemma exact_tie_broken :
  ~ exact_ge [1%float; 0%float]
      ("a"%string, [1%float; 0x1p-30%float])
      ("b"%string, [1%float; 0%float]).
Proof.
  unfold exact_ge. cbn [snd map]. rewrite exact_one, exact_zero.
  pose proof exact_small as Hx. set (x := DoubleOrder.exact 0x1p-30%float) in *.
  rewrite cosineSim_self by (rewrite norm_unit_x; lra).
  assert (Hn : 1 < norm [1; x]).
  { unfold norm. simpl. rewrite <- sqrt_1 at 1.
    apply sqrt_lt_1_alt. nra. }
  rewrite cosineSim_real; [|reflexivity|rewrite norm_unit_x; lra|lra].
  simpl. rewrite norm_unit_x. intros Hle.
  assert (H1 : (1 * 1 + (0 * x + 0)) / (1 * norm [1; x]) < 1).
  { apply Rmult_lt_reg_r with (norm [1; x]); [lra|].
    field_simplify; lra. }
  lra.
Qed.

(** C1 as stated fails: with limit -1 the search over three chunks returns
    two chunks, more than the limit; with a chunk embedding of norm zero,
    whose similarity is NaN, the search with limit 1 returns that chunk and
    leaves out a chunk of similarity 1; so it does with a chunk embedding
    that is shorter than the query; and when two similarities round to one
    double, the search with limit 1 returns the first chunk, although by
    the exact values of the embeddings the second is the more similar. *)
Lemma vectorSearchMarkdown_not_top_k :
  (exists res,
     (forall engineOrder,
        vectorSearchMarkdown engineOrder [1%float] ["a"; "b"; "c"]%string
          [[1%float]; [1%float]; [1%float]] (-1) = Some res) /\
     ~ top_k [1%float] ["a"; "b"; "c"]%string
         [[1%float]; [1%float]; [1%float]] (-1) res) /\
  (exists res,
     (forall engineOrder,
        vectorSearchMarkdown engineOrder [1%float] ["a"; "b"]%string
          [[0%float]; [1%float]] 1 = Some res) /\
     ~ top_k [1%float] ["a"; "b"]%string [[0%float]; [1%float]] 1 res) /\
  (exists res,
     (forall engineOrder,
        vectorSearchMarkdown engineOrder [1%float; 0%float] ["a"; "b"]%string
          [[1%float]; [1%float; 0%float]] 1 = Some res) /\
     ~ top_k [1%float; 0%float] ["a"; "b"]%string
         [[1%float]; [1%float; 0%float]] 1 res) /\
  (exists res,
     (forall engineOrder,
        vectorSearchMarkdown engineOrder [1%float; 0%float] ["a"; "b"]%string
          [[1%float; 0x1p-30%float]; [1%float; 0%float]] 1 = Some res) /\
     ~ exact_top_k [1%float; 0%float] ["a"; "b"]%string
         [[1%float; 0x1p-30%float]; [1%float; 0%float]] 1 res).
Proof.
  split; [|split; [|split]].
  - exists ["a"; "b"]%string. split; [apply search_negative_limit|].
    intros [Hlen _]. simpl in Hlen. lia.
  - exists ["a"]%string. split; [intros e; apply (search_zero_norm e)|].
    apply first_alone_not_top_1. unfold sim_ge. vm_compute. discriminate.
  - exists ["a"]%string. split; [intros e; apply (search_short_embedding e)|].
    apply first_alone_not_top_1. unfold sim_ge. vm_compute. discriminate.
  - exists ["a"]%string. split; [intros e; apply (search_rounding_tie e)|].
    apply first_alone_not_top_1. apply exact_tie_broken.
Qed.

End SortFacts.

Module RagFacts.
Import Http RagBaseline.

Lemma Status_eqb_eq : forall a b, Status_eqb a b = true <-> a = b.
Proof. intros [] []; simpl; split; intros H; congruence. Qed.

Lemma notArchived_spec : forall mem,
  notArchived mem = true <-> mstatus mem <> archived.
Proof.
  intros mem. unfold notArchived. rewrite negb_true_iff.
  destruct (Status_eqb (mstatus mem) archived) eqn:E.
  - apply Status_eqb_eq in E. split; [discriminate | contradiction].
  - split; [|reflexivity]. intros _ H. apply Status_eqb_eq in H. congruence.
Qed.

(** The loop appends, to what it has, the contents of the hydrated hits
    that are not archived. *)
Lemma pushMemory_fold : forall store hits acc,
  fold_left (pushMemory store) hits acc =
  acc ++ map content (filter notArchived (hydrate store hits)).
Proof.
  intros store hits. induction hits as [|vr hits IH]; intros acc; simpl.
  - rewrite app_nil_r. reflexivity.
  - rewrite IH. unfold pushMemory.
    destruct (getMemoryDirect store (memoryId vr)) as [mem|]; simpl;
      [|reflexivity].
    unfold notArchived at 2.
    destruct (negb (Status_eqb (mstatus mem) archived)); simpl;
      [rewrite <- app_assoc|]; reflexivity.
Qed.

Lemma recalledMemories_filter : forall store q,
  recalledMemories store q =
  map content (filter notArchived (hydrate store (searchByVector store q 20))).
Proof. intros. unfold recalledMemories. apply pushMemory_fold. Qed.

(** C4.  In [answerWithBasicRAG] the recalled memories are the contents of
    the hydrated vector hits that are not archived, in hit order: a hit
    whose memory is archived is dropped before its content is pushed, none
    of the kept memories is archived, and the context of the prompt and the
    count [memoriesRecalled] are built from the kept ones alone. *)
Theorem basicRAG_excludes_archived :
  forall store embed gemini trim question,
    let hits := searchByVector store (embed question) 20 in
    let kept := filter notArchived (hydrate store hits) in
    recalledMemories store (embed question) = map content kept /\
    Forall (fun mem => mstatus mem <> archived) kept /\
    (forall mem, In mem (hydrate store hits) ->
                 mstatus mem = archived -> ~ In mem kept) /\
    ragPrompt store embed question
      = promptOf (contextOf (map content kept)) question /\
    (forall a, answerWithBasicRAG store embed gemini trim question = inr a ->
               memoriesRecalled a = length kept).
Proof.
  intros store embed gemini trim question hits kept.
  assert (Hrec : recalledMemories store (embed question) = map content kept)
    by apply recalledMemories_filter.
  repeat split.
  - exact Hrec.
  - apply Forall_forall. intros mem Hin. apply filter_In in Hin.
    apply notArchived_spec, Hin.
  - intros mem _ Harch Hin. apply filter_In in Hin.
    destruct Hin as [_ Hn]. apply notArchived_spec in Hn. contradiction.
  - unfold ragPrompt. rewrite Hrec. reflexivity.
  - intros a Ha. unfold answerWithBasicRAG in Ha.
    destruct (gemini (ragPrompt store embed question)); [|discriminate].
    apply (f_equal (fun r => match r with
                             | inr v => memoriesRecalled v
                             | inl _ => O
                             end)) in Ha.
    cbn beta iota in Ha. cbn [memoriesRecalled] in Ha.
    rewrite <- Ha, Hrec, length_map. reflexivity.
Qed.

Lemma basicRAG_excludes_archived_witness :
  recalledMemories pricingStore [] = ["Tiers cost $49 and $199"%string] /\
  Forall (fun mem => mstatus mem <> archived) [newPricing].
Proof.
  pose proof (basicRAG_excludes_archived pricingStore (fun _ => [])
                (fun _ => Returned "ok"%string) (fun a => a) "pricing?"%string) as H.
  exact (conj (proj1 H) (proj1 (proj2 H))).
Defined.

(** C6.  Over an empty chunk list the search returns the empty list and
    raises nothing, whatever the query embedding, the embedding list and
    the limit; and when the vector search of the store has no hit, the
    basic-RAG retrieval recalls no memory, and the answer it builds from a
    reply of Gemini reports zero recalled memories. *)
Theorem empty_corpus_recalls_nothing :
  (forall engineOrder queryEmb embeddings limit,
     EvalHonest.vectorSearchMarkdown engineOrder queryEmb [] embeddings
       limit = Some []) /\
  (forall store embed gemini trim question,
     searchByVector store (embed question) 20 = [] ->
     recalledMemories store (embed question) = [] /\
     (forall reply, gemini (ragPrompt store embed question) = Returned reply ->
        exists a, answerWithBasicRAG store embed gemini trim question = inr a /\
                  memoriesRecalled a = 0%nat)).
Proof.
  split.
  - intros engineOrder queryEmb embeddings limit.
    unfold EvalHonest.vectorSearchMarkdown. simpl.
    unfold JsDouble.sort. simpl.
    unfold Js.slice. simpl. rewrite firstn_nil. reflexivity.
  - intros store embed gemini trim question Hhits.
    assert (Hrec : recalledMemories store (embed question) = [])
      by (unfold recalledMemories; rewrite Hhits; reflexivity).
    split; [exact Hrec|].
    intros reply Hreply. unfold answerWithBasicRAG. rewrite Hreply.
    eexists. split; [reflexivity|]. cbn [memoriesRecalled].
    rewrite Hrec. reflexivity.
Qed.

Lemma empty_corpus_recalls_nothing_witness :
  recalledMemories noMemories [] = [] /\
  (forall reply,
     Returned "I don't know"%string = Returned reply ->
     exists a,
       answerWithBasicRAG noMemories (fun _ => []) (fun _ => Returned "I don't know"%string)
         (fun a => a) "Where does Alex work?"%string = inr a /\
       memoriesRecalled a = 0%nat).
Proof.
  apply (proj2 empty_corpus_recalls_nothing noMemories (fun _ => [])
           (fun _ => Returned "I don't know"%string) (fun a => a)
           "Where does Alex work?"%string).
  reflexivity.
Defined.

End RagFacts.

Module GeminiFacts.
Import Http.
Local Open Scope Z_scope.

Lemma backoffs_zseq_exponential : forall m start,
  0 <= start ->
  exponential_backoff (map Locomo.backoff (zseq start m)).
Proof.
  assert (Hnth : forall m start i d,
            nth_error (map Locomo.backoff (zseq start m)) i = Some d ->
            d = Locomo.backoff (start + Z.of_nat i)).
  { induction m as [|m IH]; intros start [|i] d H; simpl in H;
      try discriminate.
    - injection H as <-. f_equal. lia.
    - apply IH in H. rewrite H. f_equal. lia. }
  intros m start Hs. split.
  - intros i a b Ha Hb. apply Hnth in Ha, Hb. subst a b.
    unfold Locomo.backoff, Locomo.RATE_LIMIT_MS.
    replace (start + Z.of_nat (S i)) with (Z.succ (start + Z.of_nat i)) by lia.
    rewrite Z.pow_succ_r by lia.
    assert (0 < 2 ^ (start + Z.of_nat i)) by (apply Z.pow_pos_nonneg; lia).
    lia.
  - intros i a b c Ha Hb Hc. apply Hnth in Ha, Hb, Hc. subst a b c.
    unfold Locomo.backoff.
    replace (start + Z.of_nat (S (S i)))
      with (Z.succ (Z.succ (start + Z.of_nat i))) by lia.
    replace (start + Z.of_nat (S i)) with (Z.succ (start + Z.of_nat i)) by lia.
    rewrite !Z.pow_succ_r by lia. ring.
Qed.

Lemma fetches_app : forall a b, fetches (a ++ b) = (fetches a ++ fetches b)%list.
Proof. intros a b. unfold fetches. apply flat_map_app. Qed.

Lemma backoffs_app : forall a b,
  backoffs (a ++ b) = (backoffs a ++ backoffs b)%list.
Proof. intros a b. unfold backoffs. apply flat_map_app. Qed.

Lemma zseq_snoc : forall n a, zseq a (S n) = (zseq a n ++ [a + Z.of_nat n])%list.
Proof.
  induction n as [|n IH]; intros a.
  - simpl. rewrite Z.add_0_r. reflexivity.
  - change (zseq a (S (S n))) with (a :: zseq (a + 1) (S n)).
    rewrite IH. simpl. do 3 f_equal. lia.
Qed.

Lemma locomo_retried_fetches : forall m a,
  fetches (flat_map RetryTrace.locomoRetried (zseq a m)) = zseq a m.
Proof.
  induction m as [|m IH]; intros a; [reflexivity|].
  cbn [zseq flat_map]. rewrite fetches_app, IH. reflexivity.
Qed.

Lemma locomo_retried_backoffs : forall m a,
  backoffs (flat_map RetryTrace.locomoRetried (zseq a m))
  = map Locomo.backoff (zseq a m).
Proof.
  induction m as [|m IH]; intros a; [reflexivity|].
  cbn [zseq flat_map map]. rewrite backoffs_app, IH. reflexivity.
Qed.

Lemma rag_retried_fetches : forall net m a,
  fetches (flat_map (RetryTrace.ragRetried net) (zseq a m)) = zseq a m.
Proof.
  intros net. induction m as [|m IH]; intros a; [reflexivity|].
  cbn [zseq flat_map]. rewrite fetches_app, IH. reflexivity.
Qed.

Lemma rag_retried_backoffs : forall net m a,
  backoffs (flat_map (RetryTrace.ragRetried net) (zseq a m))
  = map (RetryTrace.ragDelay net) (zseq a m).
Proof.
  intros net. induction m as [|m IH]; intros a; [reflexivity|].
  cbn [zseq flat_map map]. rewrite backoffs_app, IH. reflexivity.
Qed.

(** The run of the LOCOMO loop from pass [attempt] on, in full: [m]
    passes fail transiently, each followed by its backoff, and then either
    a pass decides the outcome or the ten attempts are used up. *)
Lemma locomo_trace : forall n fuel net attempt,
  attempt = 11 - Z.of_nat n -> (n <= 10)%nat -> (n <= fuel)%nat ->
  exists evs o m,
    Locomo.callGeminiLoop fuel net attempt = Some (evs, o) /\
    (m <= n)%nat /\
    (forall k, attempt <= k < attempt + Z.of_nat m ->
       Locomo.tryBlock k (net k) = Locomo.Continue) /\
    (((m < n)%nat /\
      Locomo.tryBlock (attempt + Z.of_nat m) (net (attempt + Z.of_nat m))
      = Locomo.Finish o /\
      evs = (flat_map RetryTrace.locomoRetried (zseq attempt m)
             ++ RetryTrace.locomoPass (attempt + Z.of_nat m))%list) \/
     (m = n /\
      o = Thrown (mkError "Error" "Gemini API failed after 10 retries" None) /\
      evs = flat_map RetryTrace.locomoRetried (zseq attempt m))).
Proof.
  induction n as [|n IH]; intros fuel net attempt Ha Hn Hfuel.
  - exists [], (Thrown (mkError "Error" "Gemini API failed after 10 retries" None)),
      O.
    assert (Hc : (attempt <=? Locomo.MAX_RETRIES) = false)
      by (apply Z.leb_gt; unfold Locomo.MAX_RETRIES; lia).
    split; [destruct fuel; simpl; rewrite Hc; reflexivity|].
    split; [lia|]. split; [intros k Hk; lia|].
    right. repeat split; reflexivity.
  - destruct fuel as [|fuel]; [lia|].
    assert (Hc : (attempt <=? Locomo.MAX_RETRIES) = true)
      by (apply Z.leb_le; unfold Locomo.MAX_RETRIES; lia).
    cbn [Locomo.callGeminiLoop]. rewrite Hc.
    destruct (Locomo.tryBlock attempt (net attempt)) as [|o] eqn:Htry.
    + destruct (IH fuel net (attempt + 1)) as
        (evs & o & m & Hrun & Hm & Hcont & Hend); try lia.
      rewrite Hrun. exists (RetryTrace.locomoRetried attempt ++ evs)%list, o, (S m).
      split; [reflexivity|]. split; [lia|]. split.
      * intros k Hk. destruct (Z.eq_dec k attempt) as [->|Hne];
          [exact Htry | apply Hcont; lia].
      * replace (attempt + Z.of_nat (S m)) with (attempt + 1 + Z.of_nat m) by lia.
        destruct Hend as [(Hlt & Hfin & Hevs)|(Heq & Ho & Hevs)].
        -- left. split; [lia|]. split; [exact Hfin|].
           rewrite Hevs. cbn [zseq flat_map]. rewrite app_assoc. reflexivity.
        -- right. split; [lia|]. split; [exact Ho|].
           rewrite Hevs. reflexivity.
    + exists (RetryTrace.locomoPass attempt), o, O.
      split; [reflexivity|]. split; [lia|]. split; [intros k Hk; lia|].
      left. rewrite Z.add_0_r. split; [lia|]. split; [exact Htry | reflexivity].
Qed.

(** The run of the baseline's loop, in the same way. *)
Lemma rag_trace : forall n fuel net attempt,
  attempt = 3 - Z.of_nat n -> (n <= 3)%nat -> (n <= fuel)%nat ->
  exists evs o m,
    RagBaseline.callGeminiLoop fuel net attempt = Some (evs, o) /\
    (m <= n)%nat /\
    (forall k, attempt <= k < attempt + Z.of_nat m ->
       RagBaseline.tryBlock k (net k)
       = RagBaseline.Continue (RetryTrace.ragDelay net k)) /\
    (((m < n)%nat /\
      RagBaseline.tryBlock (attempt + Z.of_nat m) (net (attempt + Z.of_nat m))
      = RagBaseline.Finish o /\
      evs = (flat_map (RetryTrace.ragRetried net) (zseq attempt m)
             ++ [FetchCall (attempt + Z.of_nat m)])%list) \/
     (m = n /\
      o = Thrown (mkError "Error" "Failed after 3 attempts" None) /\
      evs = flat_map (RetryTrace.ragRetried net) (zseq attempt m))).
Proof.
  induction n as [|n IH]; intros fuel net attempt Ha Hn Hfuel.
  - exists [], (Thrown (mkError "Error" "Failed after 3 attempts" None)), O.
    assert (Hc : (attempt <? 3) = false) by (apply Z.ltb_ge; lia).
    split; [destruct fuel; simpl; rewrite Hc; reflexivity|].
    split; [lia|]. split; [intros k Hk; lia|].
    right. repeat split; reflexivity.
  - destruct fuel as [|fuel]; [lia|].
    assert (Hc : (attempt <? 3) = true) by (apply Z.ltb_lt; lia).
    cbn [RagBaseline.callGeminiLoop]. rewrite Hc.
    destruct (RagBaseline.tryBlock attempt (net attempt)) as [ms|o] eqn:Htry.
    + destruct (IH fuel net (attempt + 1)) as
        (evs & o & m & Hrun & Hm & Hcont & Hend); try lia.
      rewrite Hrun.
      assert (Hms : ms = RetryTrace.ragDelay net attempt)
        by (unfold RetryTrace.ragDelay; rewrite Htry; reflexivity).
      exists (RetryTrace.ragRetried net attempt ++ evs)%list, o, (S m).
      split; [unfold RetryTrace.ragRetried; rewrite <- Hms; reflexivity|].
      split; [lia|]. split.
      * intros k Hk. destruct (Z.eq_dec k attempt) as [->|Hne];
          [rewrite <- Hms; exact Htry | apply Hcont; lia].
      * replace (attempt + Z.of_nat (S m)) with (attempt + 1 + Z.of_nat m) by lia.
        destruct Hend as [(Hlt & Hfin & Hevs)|(Heq & Ho & Hevs)].
        -- left. split; [lia|]. split; [exact Hfin|].
           rewrite Hevs. cbn [zseq flat_map]. rewrite app_assoc. reflexivity.
        -- right. split; [lia|]. split; [exact Ho|].
           rewrite Hevs. reflexivity.
    + exists [FetchCall attempt], o, O.
      split; [reflexivity|]. split; [lia|]. split; [intros k Hk; lia|].
      left. rewrite Z.add_0_r. split; [lia|]. split; [exact Htry | reflexivity].
Qed.

(** The delay of a pass of the baseline that goes on to the next: 5000 *
    (attempt + 1) ms after HTTP 429, and 3000 ms after another failure,
    which before the last pass only. *)
Lemma rag_delay_cases : forall k f ms,
  RagBaseline.tryBlock k f = RagBaseline.Continue ms ->
  (ms = 5000 * (k + 1) /\ exists r, f = Resolved r /\ status r = 429) \/
  (ms = 3000 /\ k <> 2 /\
   forall r, f = Resolved r -> status r <> 429).
Proof.
  intros k f ms H. unfold RagBaseline.tryBlock, RagBaseline.catchBlock in H.
  destruct f as [r|e].
  - destruct (Z.eqb_spec (status r) 429) as [Hs|Hs].
    + left. injection H as <-. split; [reflexivity|]. exists r. auto.
    + right.
      assert (Hk : ms = 3000 /\ k <> 2).
      { destruct (json r) as [e|data];
          [|destruct (truthy (candidateText data)); [discriminate|]];
          destruct (Z.eqb_spec k 2); try discriminate;
          injection H as <-; auto. }
      destruct Hk as [-> Hk]. split; [reflexivity|]. split; [exact Hk|].
      intros r' Hr. injection Hr as <-. exact Hs.
  - right. destruct (Z.eqb_spec k 2); [discriminate|].
    injection H as <-. split; [reflexivity|]. split; [assumption|].
    intros r Hr. discriminate.
Qed.

Lemma rag_transient_status : forall k r,
  status r = 429 ->
  RagBaseline.tryBlock k (Resolved r) = RagBaseline.Continue (5000 * (k + 1)).
Proof.
  intros k r H. unfold RagBaseline.tryBlock.
  apply Z.eqb_eq in H. rewrite H. reflexivity.
Qed.

Lemma rag_transient_network : forall k e,
  k <> 2 -> RagBaseline.tryBlock k (Rejected e) = RagBaseline.Continue 3000.
Proof.
  intros k e H. unfold RagBaseline.tryBlock, RagBaseline.catchBlock.
  destruct (Z.eqb_spec k 2); [contradiction | reflexivity].
Qed.

(** More fuel does not change what the loops return. *)
Lemma locomo_fuel_mono : forall fuel net attempt res fuel',
  Locomo.callGeminiLoop fuel net attempt = Some res -> (fuel <= fuel')%nat ->
  Locomo.callGeminiLoop fuel' net attempt = Some res.
Proof.
  induction fuel as [|fuel IH]; intros net attempt res fuel' Hrun Hle;
    destruct fuel' as [|fuel']; try lia;
    cbn [Locomo.callGeminiLoop] in *;
    destruct (attempt <=? Locomo.MAX_RETRIES); try assumption;
    try discriminate.
  destruct (Locomo.tryBlock attempt (net attempt)); [|assumption].
  destruct (Locomo.callGeminiLoop fuel net (attempt + 1)) as [r|] eqn:E;
    [|discriminate].
  rewrite (IH net (attempt + 1) r fuel' E) by lia. exact Hrun.
Qed.

Lemma rag_fuel_mono : forall fuel net attempt res fuel',
  RagBaseline.callGeminiLoop fuel net attempt = Some res ->
  (fuel <= fuel')%nat ->
  RagBaseline.callGeminiLoop fuel' net attempt = Some res.
Proof.
  induction fuel as [|fuel IH]; intros net attempt res fuel' Hrun Hle;
    destruct fuel' as [|fuel']; try lia;
    cbn [RagBaseline.callGeminiLoop] in *;
    destruct (attempt <? 3); try assumption; try discriminate.
  destruct (RagBaseline.tryBlock attempt (net attempt)); [|assumption].
  destruct (RagBaseline.callGeminiLoop fuel net (attempt + 1)) as [r|] eqn:E;
    [|discriminate].
  rewrite (IH net (attempt + 1) r fuel' E) by lia. exact Hrun.
Qed.

Lemma locomo_transient_status : forall k r,
  status r = 429 \/ 500 <= status r ->
  Locomo.tryBlock k (Resolved r) = Locomo.Continue.
Proof.
  intros k r H. unfold Locomo.tryBlock.
  replace ((status r =? 429) || (500 <=? status r))%bool with true;
    [reflexivity|].
  symmetry. apply orb_true_iff.
  destruct H as [H|H]; [left; apply Z.eqb_eq | right; apply Z.leb_le]; exact H.
Qed.

Lemma locomo_transient_network : forall k e,
  k < Locomo.MAX_RETRIES -> Locomo.isNetworkError e = true ->
  Locomo.tryBlock k (Rejected e) = Locomo.Continue.
Proof.
  intros k e Hk He. unfold Locomo.tryBlock, Locomo.catchBlock.
  rewrite He. apply Z.ltb_lt in Hk. rewrite Hk. reflexivity.
Qed.

Lemma rag_retried_backoff_in : forall net m a k ms tail,
  In (Backoff k ms) (flat_map (RetryTrace.ragRetried net) (zseq a m) ++ tail) ->
  ~ In (Backoff k ms) tail ->
  a <= k < a + Z.of_nat m /\ ms = RetryTrace.ragDelay net k.
Proof.
  intros net. induction m as [|m IH]; intros a k ms tail Hin Hnot.
  - simpl in Hin. contradiction.
  - cbn [zseq flat_map] in Hin. rewrite <- app_assoc in Hin.
    cbn [RetryTrace.ragRetried app] in Hin.
    destruct Hin as [Hin|[Hin|Hin]]; [discriminate| |].
    + injection Hin as <- <-. split; [lia | reflexivity].
    + destruct (IH (a + 1) k ms tail Hin Hnot) as [Hk Hms].
      split; [lia | exact Hms].
Qed.



(** Two HTTP 429 answers and then a candidate: the LOCOMO helper waits
    1600 and 3200 ms after the two failures and returns at the third
    attempt. *)
Example locomo_failsTwice :
  Locomo.callGemini 10 (RetryTrace.failsTwice 1)
  = Some ([RateLimitWait 800; FetchCall 1; Backoff 1 1600;
           RateLimitWait 800; FetchCall 2; Backoff 2 3200;
           RateLimitWait 800; FetchCall 3], Returned "ok").
Proof. reflexivity. Qed.

Example rag_failsTwice :
  RagBaseline.callGemini 3 (RetryTrace.failsTwice 0)
  = Some ([FetchCall 0; Backoff 0 5000; FetchCall 1; Backoff 1 10000;
           FetchCall 2], Returned "ok").
Proof. reflexivity. Qed.

(** What the two helpers do when every call is answered with HTTP 429. *)
Example locomo_always429 :
  exists evs e,
    Locomo.callGemini 10 always429 = Some (evs, Thrown e) /\
    fetches evs = [1; 2; 3; 4; 5; 6; 7; 8; 9; 10] /\
    backoffs evs
    = [1600; 3200; 6400; 12800; 25600; 51200; 102400; 204800; 409600; 819200].
Proof. do 2 eexists. repeat split; reflexivity. Qed.

Example rag_always429 :
  exists evs e,
    RagBaseline.callGemini 3 always429 = Some (evs, Thrown e) /\
    fetches evs = [0; 1; 2] /\
    backoffs evs = [5000; 10000; 15000].
Proof. do 2 eexists. repeat split; reflexivity. Qed.


End GeminiFacts.

Module ChunkFacts.
Import EvalCodebase.
Local Open Scope Z_scope.

(** With [part = 50 - n] and more than [n] passes of fuel the loop ends,
    having pushed at most [n + 1] chunks. *)
Lemma chunkLoop_ends : forall n fuel content maxChars overlap start part chunks,
  part = 50 - Z.of_nat n -> (n < fuel)%nat ->
  exists res,
    chunkLoop fuel content maxChars overlap start part chunks = Some res /\
    (length res <= length chunks + S n)%nat.
Proof.
  induction n as [|n IH];
    intros fuel content maxChars overlap start part chunks Hpart Hfuel;
    (destruct fuel as [|fuel]; [lia|]); cbn [chunkLoop];
    destruct (start <? Z.of_nat (String.length content));
    try (exists chunks; split; [reflexivity | lia]).
  - replace (50 <? part + 1) with true by (symmetry; apply Z.ltb_lt; lia).
    eexists. split; [reflexivity|]. rewrite length_app. simpl. lia.
  - replace (50 <? part + 1) with false by (symmetry; apply Z.ltb_ge; lia).
    match goal with
    | |- exists res, chunkLoop _ _ _ _ ?s ?p ?c = _ /\ _ =>
        destruct (IH fuel content maxChars overlap s p c) as (res & Hres & Hlen);
          [lia | lia |]
    end.
    exists res. split; [exact Hres|].
    rewrite length_app in Hlen. simpl in Hlen. lia.
Qed.

(** More fuel does not change what the loop returns. *)
Lemma chunkLoop_fuel_mono :
  forall fuel content maxChars overlap start part chunks res fuel',
    chunkLoop fuel content maxChars overlap start part chunks = Some res ->
    (fuel <= fuel')%nat ->
    chunkLoop fuel' content maxChars overlap start part chunks = Some res.
Proof.
  induction fuel as [|fuel IH];
    intros content maxChars overlap start part chunks res fuel' Hrun Hle;
    destruct fuel' as [|fuel']; try lia;
    cbn [chunkLoop] in *;
    destruct (start <? Z.of_nat (String.length content)); try assumption;
    try discriminate.
  destruct (50 <? part + 1); [assumption|].
  eapply IH; [eassumption | lia].
Qed.

(** C9.  [chunkFile] ends on every file, every [maxChars] and every
    [overlap]: fifty passes of fuel are enough and more fuel gives the same
    array.  The array has at most 50 chunks; and a file whose content is
    not longer than [maxChars] gives the single chunk that holds the whole
    content, with part number 1. *)
Theorem chunkFile_terminates_bounded : forall file maxChars overlap fuel,
  (50 <= fuel)%nat ->
  exists chunks,
    chunkFile fuel file maxChars overlap = Some chunks /\
    chunkFile 50 file maxChars overlap = Some chunks /\
    (length chunks <= 50)%nat /\
    (Z.of_nat (String.length (content file)) <= maxChars ->
     chunks = [mkChunk (content file) 1]).
Proof.
  intros file maxChars overlap fuel Hfuel. unfold chunkFile.
  destruct (Z.leb_spec (Z.of_nat (String.length (content file))) maxChars)
    as [Hle|Hgt].
  - eexists. repeat split; simpl; lia.
  - destruct (chunkLoop_ends 49 50 (content file) maxChars overlap 0 1 [])
      as (res & Hres & Hlen); [reflexivity | lia |].
    exists res. repeat split.
    + eapply chunkLoop_fuel_mono; [exact Hres | exact Hfuel].
    + exact Hres.
    + simpl in Hlen. lia.
    + intros H. lia.
Qed.

(** A file of 27 characters cut with [maxChars = 10] and [overlap = 2]:
    after the last piece the next start is still two characters short of
    the end, and the loop goes on to push that tail until part 50. *)
Example chunkFile_overlap_tail :
  option_map (fun chunks => (length chunks, map part (firstn 5 chunks),
                             map chunkContent (skipn 48 chunks)))
    (chunkFile 50
       (mkCodeFile "a.ts"
          (String.append "abcdefgh"
             (String newline "ijklmnopqrstuvwxyz")) "ts" 2 27)
       10 2)
  = Some (50%nat, [1; 2; 3; 4; 5], ["yz"; "yz"]%string).
Proof. vm_compute. reflexivity. Qed.

Lemma chunkFile_terminates_bounded_witness :
  exists chunks,
    chunkFile 50 (mkCodeFile "a.ts" "let x = 1;" "ts" 1 10) 2000 200
      = Some chunks /\
    chunkFile 50 (mkCodeFile "a.ts" "let x = 1;" "ts" 1 10) 2000 200
      = Some chunks /\
    (length chunks <= 50)%nat /\
    (Z.of_nat (String.length
                 (content (mkCodeFile "a.ts" "let x = 1;" "ts" 1 10))) <= 2000 ->
     chunks = [mkChunk (content (mkCodeFile "a.ts" "let x = 1;" "ts" 1 10)) 1]).
Proof.
  apply (chunkFile_terminates_bounded
           (mkCodeFile "a.ts" "let x = 1;" "ts" 1 10) 2000 200 50%nat).
  lia.
Defined.

End ChunkFacts.

Module EqsFacts.
Import EvalHonest.
Local Open Scope Q_scope.

Lemma latencyScore_unit : forall ms, unit_interval (latencyScore ms).
Proof.
  intros ms. unfold unit_interval, latencyScore. split.
  - apply Q.le_max_l.
  - apply Q.max_lub; [Lqa.lra | apply Q.le_min_l].
Qed.

Lemma weights_sum :
  wAccuracy weights + wRelevance weights + wFreshness weights
  + wEfficiency weights + wLatency weights == 1.
Proof. reflexivity. Qed.

Lemma inject_succ : forall n : nat,
  inject_Z (Z.of_nat (S n)) == inject_Z (Z.of_nat n) + 1.
Proof.
  intros n. rewrite Nat2Z.inj_succ. unfold Z.succ.
  rewrite inject_Z_plus. reflexivity.
Qed.

Lemma addResult_within : forall t k r,
  totals_within t k -> well_scored r -> totals_within (addResult t r) (k + 1).
Proof.
  intros t k r Ht Hr. pose proof (latencyScore_unit (latencyMs r)) as Hl.
  unfold totals_within, well_scored, unit_interval in *. simpl.
  repeat split; Lqa.lra.
Qed.

Lemma totals_within_equiv : forall t k k',
  k == k' -> totals_within t k -> totals_within t k'.
Proof.
  intros t k k' Hk. unfold totals_within. rewrite Hk. tauto.
Qed.

(** After the loop each total lies between 0 and the number of results. *)
Lemma fold_within : forall results t k,
  Forall well_scored results -> totals_within t (inject_Z (Z.of_nat k)) ->
  totals_within (fold_left addResult results t)
                (inject_Z (Z.of_nat (k + length results))).
Proof.
  induction results as [|r results IH]; intros t k Hall Ht; simpl.
  - rewrite Nat.add_0_r. exact Ht.
  - inversion Hall as [|? ? Hr Hrest]; subst.
    replace (k + S (length results))%nat with (S k + length results)%nat
      by lia.
    apply IH; [exact Hrest|].
    apply (totals_within_equiv _ (inject_Z (Z.of_nat k) + 1)).
    + symmetry. apply inject_succ.
    + apply addResult_within; assumption.
Qed.

Lemma quotient_unit : forall x n, 0 < n -> 0 <= x -> x <= n ->
  0 <= x / n /\ x / n <= 1.
Proof.
  intros x n Hn H0 H1. split.
  - apply Qle_shift_div_l; [exact Hn | Lqa.lra].
  - apply Qle_shift_div_r; [exact Hn | Lqa.lra].
Qed.

Lemma eqsScore_unit : forall t n,
  0 < n -> totals_within t n -> unit_interval (eqsScore t n).
Proof.
  intros t n Hn (Ha & Hr & Hf & He & Hl).
  pose proof (quotient_unit _ n Hn (proj1 Ha) (proj2 Ha)).
  pose proof (quotient_unit _ n Hn (proj1 Hr) (proj2 Hr)).
  pose proof (quotient_unit _ n Hn (proj1 Hf) (proj2 Hf)).
  pose proof (quotient_unit _ n Hn (proj1 He) (proj2 He)).
  pose proof (quotient_unit _ n Hn (proj1 Hl) (proj2 Hl)).
  unfold unit_interval, eqsScore, weights. simpl.
  split; Lqa.lra.
Qed.

Lemma round_percent : forall x, unit_interval x ->
  (0 <= round (x * 100) <= 100)%Z.
Proof.
  intros x [H0 H1]. unfold round. split.
  - apply Z.le_trans with (Qfloor 0); [reflexivity|].
    apply Qfloor_resp_le. Lqa.lra.
  - apply Z.le_trans with (Qfloor (201 # 2)); [|reflexivity].
    apply Qfloor_resp_le. Lqa.lra.
Qed.

Lemma ofNat_nonneg : forall n, 0 <= ofNat n.
Proof.
  intros n. unfold ofNat. change 0 with (inject_Z 0).
  rewrite <- Zle_Qle. lia.
Qed.

Lemma ofNat_le : forall n m, (n <= m)%nat -> ofNat n <= ofNat m.
Proof. intros n m H. unfold ofNat. rewrite <- Zle_Qle. lia. Qed.

Lemma quotient_nonneg : forall x y, 0 <= x -> 0 <= y -> 0 <= x / y.
Proof.
  intros x y Hx Hy. unfold Qdiv.
  apply Qmult_le_0_compat; [exact Hx | apply Qinv_le_0_compat, Hy].
Qed.

Lemma clamp_unit : forall x, unit_interval (Qmax 0 (Qmin 1 x)).
Proof.
  intros x. split.
  - apply Q.le_max_l.
  - apply Q.max_lub; [Lqa.lra | apply Q.le_min_l].
Qed.

Lemma one_minus_unit : forall x, 0 <= x -> unit_interval (Qmax 0 (1 - x)).
Proof.
  intros x Hx. split.
  - apply Q.le_max_l.
  - apply Q.max_lub; Lqa.lra.
Qed.

Lemma hits_fold_le : forall (p : string -> bool) l n,
  (fold_left (fun k e => if p e then S k else k) l n <= n + length l)%nat.
Proof.
  intros p l. induction l as [|e l IH]; intros n; simpl; [lia|].
  destruct (p e); [specialize (IH (S n)) | specialize (IH n)]; lia.
Qed.

Lemma findIndexFrom_found {A : Type} : forall (p : A -> bool) l i,
  existsb p l = true -> (i <= Js.findIndexFrom p l i)%Z.
Proof.
  intros p l. induction l as [|x l IH]; intros i H; simpl in *;
    [discriminate|].
  destruct (p x); [lia|]. simpl in H. specialize (IH (i + 1)%Z H). lia.
Qed.

(** The four scores [runScenario] computes lie in [0,1], for a scenario
    whose [idealResultCount] is absent or not negative. *)
Lemma runScenario_scores_in_unit_interval : forall sc recalled latency,
  0 <= latency ->
  match idealResultCount sc with
  | Some c => 0 <= c
  | None => True
  end ->
  well_scored (scoreScenario sc recalled latency).
Proof.
  intros sc recalled latency Hlat Hideal.
  unfold well_scored, scoreScenario. simpl.
  split; [|split; [|split; [|split; [|exact Hlat]]]].
  - unfold accuracyOf.
    destruct (Nat.ltb_spec 0 (length (expectedHits sc))) as [Hpos|_];
      [|split; Lqa.lra].
    apply quotient_unit.
    + unfold ofNat. change 0 with (inject_Z 0). rewrite <- Zlt_Qlt. lia.
    + apply ofNat_nonneg.
    + apply ofNat_le. unfold hitsFound.
      apply (hits_fold_le (recalledIncludes recalled) (expectedHits sc) O).
  - unfold relevanceOf.
    destruct (0 <? length recalled)%nat; [apply clamp_unit | split; Lqa.lra].
  - unfold freshnessOf.
    destruct (Js.truthy (expectedFirst sc)); [|split; Lqa.lra].
    match goal with |- context [if ?c then 1 else _] => destruct c end;
      [split; Lqa.lra|].
    destruct (recalledIncludes _ _) eqn:Hsome; [|split; Lqa.lra].
    apply one_minus_unit, quotient_nonneg; [|apply ofNat_nonneg].
    change 0 with (inject_Z 0). rewrite <- Zle_Qle.
    apply (findIndexFrom_found _ recalled 0%Z Hsome).
  - unfold efficiencyOf.
    set (ideal := match idealResultCount sc with
                  | Some c => c
                  | None => ofNat (length (expectedHits sc))
                  end).
    assert (Hi : 0 <= ideal).
    { unfold ideal. destruct (idealResultCount sc); [exact Hideal|].
      apply ofNat_nonneg. }
    destruct (Qle_bool (ofNat (length recalled)) ideal) eqn:Hle;
      [split; Lqa.lra|].
    destruct (Qeq_bool ideal 0) eqn:Hz; [split; Lqa.lra|].
    assert (Hgt : ideal < ofNat (length recalled)).
    { apply Qnot_le_lt. intros H. apply Qle_bool_iff in H. congruence. }
    assert (Hnz : ~ ideal == 0).
    { intros H. apply Qeq_bool_iff in H. congruence. }
    apply one_minus_unit, quotient_nonneg; Lqa.lra.
Qed.

(** A scenario with two expected hits of which one is recalled, behind an
    unwanted result, in 100 ms: accuracy 1/2, relevance 1/4, freshness 1/2,
    efficiency 1; and the score of a run that consists of this result. *)
Example scoreScenario_example :
  let sc := mkScenario "Pricing update" "fact-update" "What does Pro cost?"
              ["$49"; "tiers"]%string (Some ["$29"]%string)
              (Some "$49"%string) (Some 2) in
  let r := scoreScenario sc
             ["Pro used to cost $29"; "Pro costs $49 now"]%string 100 in
  (accuracy r == 1 # 2) /\ (relevance r == 1 # 4) /\
  (freshness r == 1 # 2) /\ (efficiency r == 1) /\
  passed r = true /\
  details r = Some "missing: tiers | unwanted: $29"%string /\
  computeEQS [r] = Some 56%Z.
Proof. vm_compute. repeat split; reflexivity. Qed.



End EqsFacts.

Module StoreFacts.
Import stdpp.base stdpp.gmap stdpp.strings.
Import Memories Store.

Lemma traced_more : forall ops ops' s,
  traced ops s -> (forall op, In op ops -> In op ops') -> traced ops' s.
Proof.
  intros ops ops' s H Hsub i m Hm. destruct (H i m Hm) as [Hby Hst]. split.
  - intros j Hj. destruct (Hby j Hj) as [Hs (t & Ht & Hin)]. split.
    + destruct Hs as [Hs|[Hs Hf]]; [left; exact Hs | right; auto].
    + exists t. auto.
  - intros Hs. destruct (Hst Hs) as [Hn|(n & Hin & Hid & Hns)]; [left; exact Hn|].
    right. exists n. auto.
Qed.

(** One operation keeps the part of the invariant that every run keeps. *)
Lemma apply_traced : forall op ops s s',
  traced ops s -> apply op s = inr s' -> traced (ops ++ [op]) s'.
Proof.
  intros op ops s s' Hinv Hap.
  assert (Hold : traced (ops ++ [op]) s)
    by (eapply traced_more; [exact Hinv | intros; apply in_or_app; auto]).
  assert (Hlast : In op (ops ++ [op]))
    by (apply in_or_app; right; left; reflexivity).
  clear Hinv. intros i m Hm.
  destruct op as [n|k inc|o n t|k w|k st|k h]; simpl in Hap.
  - unfold insert in Hap.
    destruct (memories s !! newId n) eqn:E; [discriminate|].
    injection Hap as <-. simpl in Hm. rewrite lookup_insert in Hm.
    case_decide as Hk; [|exact (Hold i m Hm)].
    injection Hm as <-. simpl. split; [intros j Hj; discriminate|].
    intros Hs. right. exists n. auto.
  - unfold reinforce in Hap.
    destruct (memories s !! k) as [mk|] eqn:E; [|discriminate].
    injection Hap as <-. simpl in Hm. rewrite lookup_insert in Hm.
    case_decide as Hk; [|exact (Hold i m Hm)].
    injection Hm as <-. subst i. simpl. exact (Hold k mk E).
  - unfold supersede in Hap.
    destruct (memories s !! o) as [mo|] eqn:Eo; [|discriminate].
    destruct (memories s !! n) as [mn|] eqn:En; [|discriminate].
    injection Hap as <-. simpl in Hm. rewrite lookup_insert in Hm.
    case_decide as Hk; [|exact (Hold i m Hm)].
    injection Hm as <-. subst i. simpl. split.
    + intros j Hj. injection Hj as <-. split; [left; reflexivity|].
      exists t. split; [reflexivity | exact Hlast].
    + intros _. left. discriminate.
  - unfold stamp in Hap.
    destruct (memories s !! k) as [mk|] eqn:E; [|discriminate].
    injection Hap as <-. simpl in Hm. rewrite lookup_insert in Hm.
    case_decide as Hk; [|exact (Hold i m Hm)].
    injection Hm as <-. subst i. simpl. exact (Hold k mk E).
  - unfold decay in Hap.
    destruct (memories s !! k) as [mk|] eqn:E; [|discriminate].
    injection Hap as <-. simpl in Hm. rewrite lookup_insert in Hm.
    case_decide as Hk; [|exact (Hold i m Hm)].
    injection Hm as <-. subst i. simpl. exact (Hold k mk E).
  - unfold forget in Hap.
    destruct (memories s !! k) as [mk|] eqn:E; [|discriminate].
    destruct h; injection Hap as <-; simpl in Hm.
    + rewrite lookup_delete in Hm.
      case_decide as Hk; [discriminate | exact (Hold i m Hm)].
    + rewrite lookup_insert in Hm.
      case_decide as Hk; [|exact (Hold i m Hm)].
      injection Hm as <-. subst i. simpl.
      destruct (Hold k mk E) as [Hby _]. split; [|discriminate].
      intros j Hj. destruct (Hby j Hj) as [_ Ht].
      split; [right; split; [reflexivity | exact Hlast] | exact Ht].
Qed.

Lemma run_traced : forall ops done s s',
  traced done s -> run ops s = inr s' -> traced (done ++ ops) s'.
Proof.
  induction ops as [|op ops IH]; intros done s s' Hinv Hrun; simpl in Hrun.
  - injection Hrun as <-. rewrite app_nil_r. exact Hinv.
  - destruct (apply op s) as [e|s1] eqn:E; [discriminate|].
    replace (done ++ op :: ops)%list with ((done ++ [op]) ++ ops)%list
      by (rewrite <- app_assoc; reflexivity).
    eapply IH; [|exact Hrun]. eapply apply_traced; eauto.
Qed.

(** An orderly operation other than a hard forget keeps the successors. *)
Lemma apply_succeeded : forall op s s',
  succeeded s -> orderlyOp op s -> (forall i, op <> Forget i true) ->
  apply op s = inr s' -> succeeded s'.
Proof.
  intros op s s' Hinv Hord Hsoft Hap i m j Hm Hj.
  destruct op as [n|k inc|o n t|k w|k st|k h]; simpl in Hap.
  - unfold insert in Hap.
    destruct (memories s !! newId n) eqn:E; [discriminate|].
    injection Hap as <-. simpl in Hm. rewrite lookup_insert in Hm.
    case_decide as Hk; [injection Hm as <-; discriminate|].
    destruct (Hinv i m j Hm Hj) as (succ & Hs & Hrest).
    exists succ. split; [|exact Hrest]. simpl.
    rewrite lookup_insert_ne; [exact Hs|]. intros <-. congruence.
  - unfold reinforce in Hap.
    destruct (memories s !! k) as [mk|] eqn:E; [|discriminate].
    injection Hap as <-. simpl in Hm. rewrite lookup_insert in Hm.
    assert (Hm0 : exists m0, memories s !! i = Some m0 /\
                    superseded_by m0 = Some j /\ valid_until m0 = valid_until m).
    { case_decide as Hk; [|exists m; auto].
      injection Hm as <-. subst i. exists mk. auto. }
    destruct Hm0 as (m0 & Hm0 & Hj0 & Hu). rewrite <- Hu.
    destruct (Hinv i m0 j Hm0 Hj0) as (succ & Hs & Hrest). simpl.
    rewrite lookup_insert. destruct (decide (k = j)) as [Hkj|Hkj]; [|exists succ; auto].
    subst j. rewrite E in Hs. injection Hs as <-.
    eexists. split; [reflexivity|]. exact Hrest.
  - unfold supersede in Hap.
    destruct (memories s !! o) as [mo|] eqn:Eo; [|discriminate].
    destruct (memories s !! n) as [mn|] eqn:En; [|discriminate].
    injection Hap as <-. simpl in Hm |- *.
    destruct Hord as (succ0 & Hs0 & Hact0 & Ht0).
    rewrite En in Hs0. injection Hs0 as <-.
    rewrite lookup_insert in Hm. case_decide as Hk.
    + injection Hm as <-. subst i. simpl in Hj. injection Hj as <-. simpl.
      rewrite lookup_insert. case_decide as Hno.
      * subst n. rewrite Eo in En. injection En as ->.
        eexists. split; [reflexivity|]. simpl.
        split; [exact Ht0 | right; left; discriminate].
      * exists mn. split; [exact En|]. split; [exact Ht0 | left; exact Hact0].
    + destruct (Hinv i m j Hm Hj) as (succ & Hs & Hle & Hst).
      rewrite lookup_insert. case_decide as Hjo; [|exists succ; auto].
      subst j. rewrite Eo in Hs. injection Hs as <-.
      eexists. split; [reflexivity|]. simpl.
      split; [exact Hle | right; left; discriminate].
  - unfold stamp in Hap.
    destruct (memories s !! k) as [mk|] eqn:E; [|discriminate].
    injection Hap as <-. simpl in Hm. rewrite lookup_insert in Hm.
    assert (Hm0 : exists m0, memories s !! i = Some m0 /\
                    superseded_by m0 = Some j /\ valid_until m0 = valid_until m).
    { case_decide as Hk; [|exists m; auto].
      injection Hm as <-. subst i. exists mk. auto. }
    destruct Hm0 as (m0 & Hm0 & Hj0 & Hu). rewrite <- Hu.
    destruct (Hinv i m0 j Hm0 Hj0) as (succ & Hs & Hrest). simpl.
    rewrite lookup_insert. destruct (decide (k = j)) as [Hkj|Hkj]; [|exists succ; auto].
    subst j. rewrite E in Hs. injection Hs as <-.
    eexists. split; [reflexivity|]. exact Hrest.
  - unfold decay in Hap.
    destruct (memories s !! k) as [mk|] eqn:E; [|discriminate].
    injection Hap as <-. simpl in Hm. rewrite lookup_insert in Hm.
    assert (Hm0 : exists m0, memories s !! i = Some m0 /\
                    superseded_by m0 = Some j /\ valid_until m0 = valid_until m).
    { case_decide as Hk; [|exists m; auto].
      injection Hm as <-. subst i. exists mk. auto. }
    destruct Hm0 as (m0 & Hm0 & Hj0 & Hu). rewrite <- Hu.
    destruct (Hinv i m0 j Hm0 Hj0) as (succ & Hs & Hrest). simpl.
    rewrite lookup_insert. destruct (decide (k = j)) as [Hkj|Hkj]; [|exists succ; auto].
    subst j. rewrite E in Hs. injection Hs as <-.
    eexists. split; [reflexivity|]. exact Hrest.
  - unfold forget in Hap.
    destruct (memories s !! k) as [mk|] eqn:E; [|discriminate].
    destruct h; [exfalso; exact (Hsoft k eq_refl)|].
    injection Hap as <-. simpl in Hm. rewrite lookup_insert in Hm.
    assert (Hm0 : exists m0, memories s !! i = Some m0 /\
                    superseded_by m0 = Some j /\ valid_until m0 = valid_until m).
    { case_decide as Hk; [|exists m; auto].
      injection Hm as <-. subst i. exists mk. auto. }
    destruct Hm0 as (m0 & Hm0 & Hj0 & Hu). rewrite <- Hu.
    destruct (Hinv i m0 j Hm0 Hj0) as (succ & Hs & Hle & Hst). simpl.
    rewrite lookup_insert. destruct (decide (k = j)) as [Hkj|Hkj]; [|exists succ; auto].
    subst j. rewrite E in Hs. injection Hs as <-.
    eexists. split; [reflexivity|]. simpl.
    split; [exact Hle | right; right; reflexivity].
Qed.

Lemma run_succeeded : forall ops s s',
  succeeded s -> orderly ops s -> noHardForget ops ->
  run ops s = inr s' -> succeeded s'.
Proof.
  induction ops as [|op ops IH]; intros s s' Hinv Hord Hsoft Hrun;
    simpl in Hrun.
  - injection Hrun as <-. exact Hinv.
  - destruct Hord as [Hop Hrest].
    destruct (apply op s) as [e|s1] eqn:E; [discriminate|].
    apply (IH s1 s'); [|exact Hrest| |exact Hrun].
    + apply (apply_succeeded op s s1 Hinv Hop); [|exact E].
      intros i ->. apply (Hsoft i). left. reflexivity.
    + intros i Hin. apply (Hsoft i). right. exact Hin.
Qed.


Lemma deadlineHistory_orderly :
  orderly deadlineHistory emptyStore /\ noHardForget deadlineHistory.
Proof.
  split.
  - simpl. repeat split; try (eexists; split; [reflexivity|]; split;
      [reflexivity | vm_compute; discriminate]).
  - intros i Hin. simpl in Hin.
    repeat (destruct Hin as [Hin|Hin]; [discriminate|]). exact Hin.
Qed.



End StoreFacts.

Module RecallFacts.
Import Memories Recall.
Local Open Scope Z_scope.

Lemma status_eqb_true : forall a b, Status_eqb a b = true <-> a = b.
Proof. intros [] []; simpl; split; intros H; congruence. Qed.

Lemma isActive_spec : forall m, isActive m = true <-> status m = active.
Proof. intros m. apply status_eqb_true. Qed.

Lemma key_eqb_spec : forall a b, key_eqb a b = true <-> a = b.
Proof.
  intros [a1 a2] [b1 b2]. unfold key_eqb. simpl.
  rewrite andb_true_iff, !String.eqb_eq. split.
  - intros [-> ->]. reflexivity.
  - intros H. injection H as -> ->. auto.
Qed.

Lemma validAt_spec : forall t m, validAt t m = true <-> in_validity t m.
Proof.
  intros t m. unfold validAt, in_validity, before_until.
  rewrite andb_true_iff, Z.leb_le.
  destruct (valid_until m); [rewrite Z.ltb_lt|]; tauto.
Qed.

Lemma latestActive_spec : forall g r,
  latestActive g = Some r ->
  In r g /\ status r = active /\
  (forall m, In m g -> status m = active -> valid_from m <= valid_from r).
Proof.
  induction g as [|x g IH]; intros r H; simpl in H; [discriminate|].
  destruct (latestActive g) as [r0|] eqn:E.
  - destruct (IH r0 eq_refl) as (Hin & Hact & Hmax).
    destruct (isActive x && (valid_from r0 <=? valid_from x)) eqn:Hx;
      injection H as <-.
    + apply andb_true_iff in Hx. destruct Hx as [Hxa Hle].
      apply isActive_spec in Hxa. apply Z.leb_le in Hle.
      split; [left; reflexivity|]. split; [exact Hxa|].
      intros m [<-|Hm] Hma; [lia|]. specialize (Hmax m Hm Hma). lia.
    + split; [right; exact Hin|]. split; [exact Hact|].
      intros m [<-|Hm] Hma; [|auto].
      apply isActive_spec in Hma. rewrite Hma in Hx. simpl in Hx.
      apply Z.leb_gt in Hx. lia.
  - destruct (isActive x) eqn:Hx; [|discriminate]. injection H as <-.
    apply isActive_spec in Hx.
    split; [left; reflexivity|]. split; [exact Hx|].
    intros m [<-|Hm] Hma; [lia|]. exfalso.
    clear IH. induction g as [|y g IHg]; [contradiction|].
    simpl in E. destruct (latestActive g) as [r1|] eqn:E1.
    + destruct (isActive y && (valid_from r1 <=? valid_from y)); discriminate.
    + destruct (isActive y) eqn:Hy; [discriminate|].
      destruct Hm as [<-|Hm]; [|auto].
      apply isActive_spec in Hma. congruence.
Qed.

Lemma latestActive_exists : forall g,
  (exists m, In m g /\ status m = active) ->
  exists r, latestActive g = Some r.
Proof.
  induction g as [|x g IH]; intros (m & Hin & Hact); simpl in *;
    [contradiction|].
  destruct (latestActive g) as [r0|] eqn:E.
  - destruct (isActive x && (valid_from r0 <=? valid_from x)); eauto.
  - destruct Hin as [<-|Hin].
    + apply isActive_spec in Hact. rewrite Hact. eauto.
    + destruct IH as (r & Hr); [eauto | discriminate].
Qed.

Lemma dedupGroup_retained : forall g r others,
  In (r, others) (dedupGroup g) -> In r g.
Proof.
  intros g r others H. unfold dedupGroup in H.
  destruct (latestActive g) as [r0|] eqn:E.
  - destruct H as [H|[]]. injection H as <- _.
    apply latestActive_spec in E. tauto.
  - apply in_map_iff in H. destruct H as (m & Heq & Hm).
    injection Heq as <- _. exact Hm.
Qed.

Section Groups.
Variable groupKey : Memory -> Key.

Lemma insertGroup_keys : forall k m groups,
  map fst (insertGroup k m groups) =
  if existsb (key_eqb k) (map fst groups)
  then map fst groups else map fst groups ++ [k].
Proof.
  intros k m groups. induction groups as [|[k' g] rest IH]; simpl.
  - reflexivity.
  - destruct (key_eqb k k'); simpl; [reflexivity|].
    rewrite IH. destruct (existsb (key_eqb k) (map fst rest)); reflexivity.
Qed.

Lemma existsb_key : forall k ks,
  existsb (key_eqb k) ks = true <-> In k ks.
Proof.
  intros k ks. rewrite existsb_exists. split.
  - intros (x & Hin & Hx). apply key_eqb_spec in Hx. subst. exact Hin.
  - intros Hin. exists k. split; [exact Hin | apply key_eqb_spec; reflexivity].
Qed.

(** Members of the groups after a candidate has joined: the candidate,
    and the members before. *)
Lemma insertGroup_members : forall k m groups k' g' x,
  In (k', g') (insertGroup k m groups) -> In x g' ->
  (x = m /\ k' = k) \/ exists g0, In (k', g0) groups /\ In x g0.
Proof.
  intros k m groups. induction groups as [|[k0 g0] rest IH];
    intros k' g' x Hin Hx; simpl in Hin.
  - destruct Hin as [Heq|[]]. injection Heq as <- <-.
    destruct Hx as [<-|[]]. left. auto.
  - destruct (key_eqb k k0) eqn:E.
    + apply key_eqb_spec in E. subst k0.
      destruct Hin as [Heq|Hin].
      * injection Heq as <- <-. apply in_app_or in Hx.
        destruct Hx as [Hx|[<-|[]]].
        -- right. exists g0. split; [left; reflexivity | exact Hx].
        -- left. auto.
      * right. exists g'. split; [right; exact Hin | exact Hx].
    + destruct Hin as [Heq|Hin].
      * injection Heq as <- <-. right. exists g0.
        split; [left; reflexivity | exact Hx].
      * destruct (IH _ _ _ Hin Hx) as [?|(g1 & Hg1 & Hx1)]; [left; auto|].
        right. exists g1. split; [right; exact Hg1 | exact Hx1].
Qed.

Lemma insertGroup_keeps : forall k m groups k0 g0 x,
  In (k0, g0) groups -> In x g0 ->
  exists g', In (k0, g') (insertGroup k m groups) /\ In x g'.
Proof.
  intros k m groups. induction groups as [|[k1 g1] rest IH];
    intros k0 g0 x Hin Hx; simpl in *; [contradiction|].
  destruct (key_eqb k k1) eqn:E; destruct Hin as [Heq|Hin].
  - injection Heq as <- <-. exists (g1 ++ [m]).
    split; [left; reflexivity | apply in_or_app; auto].
  - exists g0. split; [right; exact Hin | exact Hx].
  - injection Heq as <- <-. exists g1. split; [left; reflexivity | exact Hx].
  - destruct (IH _ _ _ Hin Hx) as (g' & Hg' & Hx').
    exists g'. split; [right; exact Hg' | exact Hx'].
Qed.

Lemma insertGroup_adds : forall k m groups,
  exists g', In (k, g') (insertGroup k m groups) /\ In m g'.
Proof.
  intros k m groups. induction groups as [|[k1 g1] rest IH]; simpl.
  - exists [m]. split; left; reflexivity.
  - destruct (key_eqb k k1) eqn:E.
    + apply key_eqb_spec in E. subst k1. exists (g1 ++ [m]).
      split; [left; reflexivity | apply in_or_app; right; left; reflexivity].
    + destruct IH as (g' & Hg' & Hm). exists g'.
      split; [right; exact Hg' | exact Hm].
Qed.

Lemma insertGroup_keyed : forall m groups,
  keyed groupKey groups ->
  keyed groupKey (insertGroup (groupKey m) m groups).
Proof.
  intros m groups [Hkey Hnd]. split.
  - intros k g x Hin Hx.
    destruct (insertGroup_members _ _ _ _ _ _ Hin Hx)
      as [[-> ->]|(g0 & Hg0 & Hx0)]; [reflexivity | eauto].
  - rewrite insertGroup_keys.
    destruct (existsb (key_eqb (groupKey m)) (map fst groups)) eqn:E;
      [exact Hnd|].
    apply NoDup_app; [exact Hnd | repeat constructor; intros [] |].
    intros k Hk [<-|[]].
    apply existsb_key in Hk. congruence.
Qed.

(** The loop of [groupBy], from any groups already built. *)
Lemma fold_keyed : forall candidates groups,
  keyed groupKey groups ->
  keyed groupKey
    (fold_left (fun gs m => insertGroup (groupKey m) m gs) candidates groups).
Proof.
  induction candidates as [|m candidates IH]; intros groups H; simpl.
  - exact H.
  - apply IH, insertGroup_keyed, H.
Qed.

Lemma fold_members : forall candidates groups k g x,
  In (k, g)
    (fold_left (fun gs m => insertGroup (groupKey m) m gs) candidates groups) ->
  In x g ->
  In x candidates \/ exists g0, In (k, g0) groups /\ In x g0.
Proof.
  induction candidates as [|m candidates IH]; intros groups k g x Hin Hx;
    simpl in *.
  - right. exists g. auto.
  - destruct (IH _ _ _ _ Hin Hx) as [H|(g0 & Hg0 & Hx0)]; [auto|].
    destruct (insertGroup_members _ _ _ _ _ _ Hg0 Hx0)
      as [[-> _]|H]; auto.
Qed.

Lemma fold_keeps : forall candidates groups k0 g0 x,
  In (k0, g0) groups -> In x g0 ->
  exists g',
    In (k0, g')
      (fold_left (fun gs m => insertGroup (groupKey m) m gs)
         candidates groups) /\
    In x g'.
Proof.
  induction candidates as [|m candidates IH]; intros groups k0 g0 x Hin Hx;
    simpl.
  - exists g0. auto.
  - destruct (insertGroup_keeps (groupKey m) m _ _ _ _ Hin Hx)
      as (g1 & Hg1 & Hx1).
    eapply IH; eassumption.
Qed.

Lemma groupBy_keyed : forall candidates,
  keyed groupKey (groupBy groupKey candidates).
Proof.
  intros candidates. apply fold_keyed. split.
  - intros k g m [].
  - constructor.
Qed.

(** A group holds candidates only, all of the group's key. *)
Lemma groupBy_sound : forall candidates k g x,
  In (k, g) (groupBy groupKey candidates) -> In x g ->
  In x candidates /\ groupKey x = k.
Proof.
  intros candidates k g x Hin Hx. split.
  - destruct (fold_members _ _ _ _ _ Hin Hx) as [H|(g0 & [] & _)].
    exact H.
  - destruct (groupBy_keyed candidates) as [Hkey _]. eauto.
Qed.

(** Every candidate is in the group of its key. *)
Lemma groupBy_complete : forall candidates x,
  In x candidates ->
  exists g, In (groupKey x, g) (groupBy groupKey candidates) /\ In x g.
Proof.
  intros candidates x. unfold groupBy. generalize (@nil (Key * list Memory)).
  induction candidates as [|m candidates IH]; intros groups Hin; simpl in *.
  - contradiction.
  - destruct Hin as [->|Hin]; [|apply IH, Hin].
    destruct (insertGroup_adds (groupKey x) x groups) as (g1 & Hg1 & Hx1).
    eapply fold_keeps; eassumption.
Qed.

Lemma keyed_group_unique : forall groups k g g',
  keyed groupKey groups -> In (k, g) groups -> In (k, g') groups -> g = g'.
Proof.
  intros groups k g g' [_ Hnd]. induction groups as [|[k0 g0] rest IH];
    intros H1 H2; simpl in *; [contradiction|].
  inversion Hnd as [|? ? Hnot Hnd']; subst.
  destruct H1 as [E1|H1]; destruct H2 as [E2|H2].
  - congruence.
  - injection E1 as -> ->. exfalso. apply Hnot.
    apply (in_map fst) in H2. exact H2.
  - injection E2 as -> ->. exfalso. apply Hnot.
    apply (in_map fst) in H1. exact H1.
  - auto.
Qed.

Lemma dedup_retained : forall candidates r,
  In r (map fst (dedup groupKey candidates)) -> In r candidates.
Proof.
  intros candidates r H. apply in_map_iff in H.
  destruct H as ([r' others] & Heq & H). simpl in Heq. subst r'.
  unfold dedup in H. apply in_flat_map in H.
  destruct H as ([k g] & Hg & H). simpl in H.
  apply dedupGroup_retained in H.
  apply (groupBy_sound _ _ _ _ Hg H).
Qed.

End Groups.

Lemma In_firstn {A : Type} : forall n (l : list A) x,
  In x (firstn n l) -> In x l.
Proof.
  intros n l x H. rewrite <- (firstn_skipn n l). apply in_or_app. auto.
Qed.

Lemma NoDup_map_inj {A B : Type} (f : A -> B) : forall l x y,
  NoDup (map f l) -> In x l -> In y l -> f x = f y -> x = y.
Proof.
  induction l as [|a l IH]; intros x y Hnd Hx Hy Hf; simpl in *;
    [contradiction|].
  inversion Hnd as [|? ? Hnot Hnd']; subst.
  destruct Hx as [->|Hx]; destruct Hy as [->|Hy]; auto.
  - exfalso. apply Hnot. rewrite Hf. apply in_map, Hy.
  - exfalso. apply Hnot. rewrite <- Hf. apply in_map, Hx.
Qed.

(** C3.  Candidates with distinct ids are grouped by their key, each
    candidate in the group of its key.  In a group that has an active
    member, [dedup] retains one candidate: an active member whose
    [valid_from] is the latest among the active members.  Every other
    member of the group is in the dedup set of the retained candidate, and
    no member of that set is a result of its own. *)
Theorem dedup_retains_latest_active : forall groupKey candidates k g,
  NoDup (map id candidates) ->
  In (k, g) (groupBy groupKey candidates) ->
  (exists m, In m g /\ status m = active) ->
  (forall m, In m g <-> In m candidates /\ groupKey m = k) /\
  exists r others,
    dedupGroup g = [(r, others)] /\
    In (r, others) (dedup groupKey candidates) /\
    In r g /\ status r = active /\
    (forall m, In m g -> status m = active -> valid_from m <= valid_from r) /\
    (forall m, In m g -> m = r \/ In m others) /\
    (forall m, In m others ->
       In m g /\ m <> r /\ ~ In m (map fst (dedup groupKey candidates))).
Proof.
  intros groupKey candidates k g Hnd Hg Hex.
  pose proof (groupBy_keyed groupKey candidates) as Hkeyed.
  assert (Hmem : forall m, In m g <-> In m candidates /\ groupKey m = k).
  { intros m. split.
    - apply (groupBy_sound _ _ _ _ _ Hg).
    - intros [Hm Hk].
      destruct (groupBy_complete groupKey candidates m Hm) as (g' & Hg' & Hin).
      rewrite Hk in Hg'.
      rewrite (keyed_group_unique _ _ _ _ _ Hkeyed Hg Hg'). exact Hin. }
  split; [exact Hmem|].
  destruct (latestActive_exists g Hex) as (r & Hr).
  destruct (latestActive_spec g r Hr) as (Hrin & Hract & Hmax).
  set (others := filter (fun m => negb (String.eqb (id m) (id r))) g).
  assert (Hdg : dedupGroup g = [(r, others)])
    by (unfold dedupGroup; rewrite Hr; reflexivity).
  exists r, others.
  split; [exact Hdg|].
  split.
  { unfold dedup. apply in_flat_map. exists (k, g).
    split; [exact Hg|]. simpl. rewrite Hdg. left. reflexivity. }
  split; [exact Hrin|]. split; [exact Hract|]. split; [exact Hmax|].
  split.
  - intros m Hm. destruct (String.eqb (id m) (id r)) eqn:E.
    + left. apply String.eqb_eq in E.
      apply (NoDup_map_inj id candidates); auto; apply Hmem; assumption.
    + right. unfold others. apply filter_In. split; [exact Hm|].
      rewrite E. reflexivity.
  - intros m Hm. unfold others in Hm. apply filter_In in Hm.
    destruct Hm as [Hm Hid]. apply negb_true_iff in Hid.
    assert (Hne : m <> r).
    { intros ->. rewrite String.eqb_refl in Hid. discriminate. }
    split; [exact Hm|]. split; [exact Hne|].
    intros Hres. apply in_map_iff in Hres.
    destruct Hres as ([m' o'] & Heq & Hres). simpl in Heq. subst m'.
    unfold dedup in Hres. apply in_flat_map in Hres.
    destruct Hres as ([k' g'] & Hg' & Hres). simpl in Hres.
    pose proof (dedupGroup_retained _ _ _ Hres) as Hmg'.
    assert (Hk : k' = k).
    { destruct (groupBy_sound _ _ _ _ _ Hg' Hmg') as [_ <-].
      apply Hmem, Hm. }
    subst k'.
    rewrite (keyed_group_unique _ _ _ _ _ Hkeyed Hg' Hg) in Hres.
    rewrite Hdg in Hres. destruct Hres as [Heq|[]].
    injection Heq as Heq _. auto.
Qed.

Lemma dedup_retains_latest_active_witness :
  (forall m, In m [corpA; corpB] <->
             In m [corpA; corpB] /\
             firstEntityTopic m = ("Alex", "job")%string) /\
  exists r others,
    dedupGroup [corpA; corpB] = [(r, others)] /\
    In (r, others) (dedup firstEntityTopic [corpA; corpB]) /\
    In r [corpA; corpB] /\ status r = active /\
    (forall m, In m [corpA; corpB] -> status m = active ->
               valid_from m <= valid_from r) /\
    (forall m, In m [corpA; corpB] -> m = r \/ In m others) /\
    (forall m, In m others ->
       In m [corpA; corpB] /\ m <> r /\
       ~ In m (map fst (dedup firstEntityTopic [corpA; corpB]))).
Proof.
  apply (dedup_retains_latest_active firstEntityTopic [corpA; corpB]
           ("Alex", "job")%string [corpA; corpB]).
  - repeat constructor; simpl; intuition discriminate.
  - left. reflexivity.
  - exists corpA. split; [left; reflexivity | reflexivity].
Defined.

(** C3 as stated fails on the recall of the spec.  In a recall at an
    instant before the supersession (the point-in-time scenario of the
    spec) the newer fact is not yet valid, so the superseded fact is the
    only candidate of its group: the group has no active member, and the
    recall returns the superseded fact. *)
Lemma dedup_group_without_active :
  filter (admissible (mkOptions 8 (Some 5))) [corpB; corpA_superseded]
    = [corpA_superseded] /\
  groupBy firstEntityTopic [corpA_superseded]
    = [(("Alex", "job")%string, [corpA_superseded])] /\
  (forall m, In m [corpA_superseded] -> status m <> active) /\
  recall firstEntityTopic (mkOptions 8 (Some 5)) [corpB; corpA_superseded]
    = [corpA_superseded] /\
  ~ retainsLatestActive firstEntityTopic
      (filter (admissible (mkOptions 8 (Some 5))) [corpB; corpA_superseded]).
Proof.
  split; [reflexivity|]. split; [reflexivity|].
  split; [intros m [<-|[]]; discriminate|].
  split; [reflexivity|].
  intros H.
  destruct (H ("Alex", "job")%string [corpA_superseded]
              (or_introl eq_refl))
    as (r & others & _ & Hin & Hact & _).
  destruct Hin as [<-|[]]. discriminate.
Qed.

(** The end-to-end scenarios of the spec on this model: after the
    supersession a recall returns the newer fact alone, with the older one
    in its dedup set; a recall at an instant before the supersession
    returns the older fact, and one after it the newer. *)
Example recall_newer_fact_wins :
  map (fun p => (id (fst p), map id (snd p)))
    (recallTail firstEntityTopic (mkOptions 8 None) [corpB; corpA_superseded])
  = [("m2", ["m1"])]%string.
Proof. reflexivity. Qed.

Example recall_point_in_time :
  map id (recall firstEntityTopic (mkOptions 8 (Some 5))
            [corpB; corpA_superseded]) = ["m1"]%string /\
  map id (recall firstEntityTopic (mkOptions 8 (Some 11))
            [corpB; corpA_superseded]) = ["m2"]%string.
Proof. split; reflexivity. Qed.

(** C7.  Every memory that a recall with the point in time [at] returns
    satisfies [valid_from <= at < valid_until]; the returned memories come
    from the candidates, none is archived, and there are at most [limit]
    of them. *)
Theorem recall_at_within_validity : forall groupKey opts ranked t m,
  at_ opts = Some t ->
  In m (recall groupKey opts ranked) ->
  in_validity t m /\
  In m ranked /\ status m <> archived /\
  (length (recall groupKey opts ranked) <= limit opts)%nat.
Proof.
  intros groupKey opts ranked t m Hat Hin.
  assert (Hlen : (length (recall groupKey opts ranked) <= limit opts)%nat).
  { unfold recall, recallTail. rewrite length_map, length_firstn. lia. }
  unfold recall, recallTail in Hin.
  apply in_map_iff in Hin. destruct Hin as (p & Hp & Hin).
  apply In_firstn in Hin.
  assert (Hd : In m (map fst (dedup groupKey (filter (admissible opts) ranked))))
    by (apply in_map_iff; exists p; auto).
  apply dedup_retained in Hd. apply filter_In in Hd.
  destruct Hd as [Hm Hadm]. unfold admissible in Hadm.
  rewrite Hat in Hadm. apply andb_true_iff in Hadm.
  destruct Hadm as [Harch Hvalid].
  split; [apply validAt_spec, Hvalid|]. split; [exact Hm|].
  split; [|exact Hlen].
  intros Hs. unfold isArchived in Harch. rewrite Hs in Harch. discriminate.
Qed.

Lemma recall_at_within_validity_witness :
  in_validity 5 corpA /\
  In corpA [corpA; corpB] /\ status corpA <> archived /\
  (length (recall firstEntityTopic (mkOptions 5%nat (Some 5%Z)) [corpA; corpB])
   <= limit (mkOptions 5%nat (Some 5%Z)))%nat.
Proof.
  apply (recall_at_within_validity firstEntityTopic (mkOptions 5%nat (Some 5%Z))
           [corpA; corpB] 5 corpA).
  - reflexivity.
  - left. reflexivity.
Defined.

End RecallFacts.

Module ChunkMore.
Import EvalCodebase ChunkPass.
Local Open Scope Z_scope.

Lemma chunkLoop_pass : forall fuel content maxChars overlap start part chunks,
  chunkLoop (S fuel) content maxChars overlap start part chunks =
  if start <? Z.of_nat (String.length content) then
    let bp := breakPointOf content maxChars start in
    let chunks' := (chunks ++ [mkChunk (slice content start bp) part])%list in
    if 50 <? part + 1 then Some chunks'
    else chunkLoop fuel content maxChars overlap (nextStart bp overlap)
           (part + 1) chunks'
  else Some chunks.
Proof. reflexivity. Qed.

(** The scan of [lastIndexOf] answers [found] or an index of the string
    that is not above the limit. *)
Lemma lastIndexFrom_range : forall c limit s i found,
  lastIndexFrom c limit s i found = found \/
  (i <= lastIndexFrom c limit s i found < i + Z.of_nat (String.length s) /\
   lastIndexFrom c limit s i found <= limit).
Proof.
  intros c limit s. induction s as [|ch rest IH]; intros i found; simpl.
  - left. reflexivity.
  - destruct (Z.ltb_spec limit i) as [Hlt|Hge]; [left; reflexivity|].
    destruct (Ascii.eqb ch c).
    + destruct (IH (i + 1) i) as [->|[H1 H2]]; right; lia.
    + destruct (IH (i + 1) found) as [->|[H1 H2]]; [left; reflexivity|].
      right. lia.
Qed.

Lemma lastIndexOf_range : forall s c position,
  -1 <= lastIndexOf s c position < Z.of_nat (String.length s) /\
  lastIndexOf s c position <= Z.max 0 position.
Proof.
  intros s c position. unfold lastIndexOf.
  destruct (lastIndexFrom_range c (Z.max 0 position) s 0 (-1)) as [->|[H1 H2]];
    lia.
Qed.

Lemma breakPoint_le_length : forall content maxChars start,
  breakPointOf content maxChars start <= Z.of_nat (String.length content).
Proof.
  intros content maxChars start. unfold breakPointOf.
  pose proof (lastIndexOf_range content newline
                (Z.min (start + maxChars) (Z.of_nat (String.length content)))).
  destruct (_ <? _); [destruct (_ <? _)|]; lia.
Qed.

Lemma breakPoint_after_start : forall content maxChars start,
  0 <= maxChars -> 0 <= start < Z.of_nat (String.length content) ->
  start <= breakPointOf content maxChars start <= start + maxChars + 1 /\
  (1 <= maxChars -> start < breakPointOf content maxChars start).
Proof.
  intros content maxChars start Hm Hs. unfold breakPointOf.
  pose proof (lastIndexOf_range content newline
                (Z.min (start + maxChars) (Z.of_nat (String.length content)))).
  destruct (_ <? _); [destruct (Z.ltb_spec (2 * start + maxChars)
     (2 * lastIndexOf content newline
            (Z.min (start + maxChars) (Z.of_nat (String.length content)))))|];
    lia.
Qed.

Lemma nextStart_range : forall bp overlap len,
  bp <= len -> 0 < len -> 0 < overlap -> 0 <= nextStart bp overlap < len.
Proof.
  intros bp overlap len H1 H2 H3. unfold nextStart.
  destruct (Z.ltb_spec (bp - overlap) 0); lia.
Qed.

Lemma chunkLoop_parts : forall fuel content maxChars overlap start part chunks res,
  chunkLoop fuel content maxChars overlap start part chunks = Some res ->
  exists k, map EvalCodebase.part res
            = (map EvalCodebase.part chunks ++ Http.zseq part k)%list.
Proof.
  induction fuel as [|fuel IH];
    intros content maxChars overlap start part chunks res Hrun.
  - simpl in Hrun. destruct (_ <? _); [discriminate|].
    injection Hrun as <-. exists O. simpl. rewrite app_nil_r. reflexivity.
  - rewrite chunkLoop_pass in Hrun.
    destruct (_ <? _).
    + cbv zeta in Hrun. destruct (50 <? part + 1).
      * injection Hrun as <-. exists 1%nat. rewrite map_app. reflexivity.
      * apply IH in Hrun. destruct Hrun as [k Hk]. exists (S k).
        rewrite Hk, map_app, <- app_assoc. reflexivity.
    + injection Hrun as <-. exists O. simpl. rewrite app_nil_r. reflexivity.
Qed.

(** X1.  The part numbers of the chunks are 1, 2, 3, ... in the order of
    the chunks. *)
Theorem chunkFile_parts_consecutive : forall fuel file maxChars overlap chunks,
  chunkFile fuel file maxChars overlap = Some chunks ->
  map EvalCodebase.part chunks = Http.zseq 1 (length chunks).
Proof.
  intros fuel file maxChars overlap chunks H. unfold chunkFile in H.
  destruct (_ <=? _).
  - injection H as <-. reflexivity.
  - apply chunkLoop_parts in H. destruct H as [k Hk]. simpl in Hk.
    assert (Hlen : length chunks = k).
    { rewrite <- (length_map EvalCodebase.part), Hk.
      clear. generalize 1. induction k as [|k IH]; intros z; simpl;
        [reflexivity | rewrite IH; reflexivity]. }
    rewrite Hlen. exact Hk.
Qed.

Lemma chunkFile_parts_consecutive_witness :
  map EvalCodebase.part [mkChunk "abcdefgh" 1; mkChunk "ijklmn" 2]
  = Http.zseq 1 2.
Proof.
  apply (chunkFile_parts_consecutive 50
           (mkCodeFile "a.ts" "abcdefghijklmn" "ts" 1 14) 8 0
           [mkChunk "abcdefgh" 1; mkChunk "ijklmn" 2]).
  reflexivity.
Defined.

Lemma chunkLoop_fifty : forall n fuel content maxChars overlap start part chunks,
  part = 50 - Z.of_nat n -> (n < fuel)%nat ->
  0 <= start < Z.of_nat (String.length content) -> 0 < overlap ->
  exists res,
    chunkLoop fuel content maxChars overlap start part chunks = Some res /\
    length res = (length chunks + S n)%nat.
Proof.
  induction n as [|n IH];
    intros fuel content maxChars overlap start part chunks Hp Hf Hs Ho;
    (destruct fuel as [|fuel]; [lia|]); rewrite chunkLoop_pass;
    replace (start <? Z.of_nat (String.length content)) with true
      by (symmetry; apply Z.ltb_lt; lia); cbv zeta.
  - replace (50 <? part + 1) with true by (symmetry; apply Z.ltb_lt; lia).
    eexists. split; [reflexivity|]. rewrite length_app. simpl. lia.
  - replace (50 <? part + 1) with false by (symmetry; apply Z.ltb_ge; lia).
    destruct (IH fuel content maxChars overlap
                (nextStart (breakPointOf content maxChars start) overlap)
                (part + 1)
                (chunks ++ [mkChunk (slice content start
                                       (breakPointOf content maxChars start)) part]))
      as (res & Hres & Hlen); [lia | lia | | exact Ho |].
    + apply nextStart_range; [apply breakPoint_le_length | lia | lia].
    + exists res. split; [exact Hres|].
      rewrite Hlen, length_app. simpl. lia.
Qed.

(** X2.  With a positive overlap the start of the next pass stays before
    the end of the content, so the loop ends only at the break after part
    50: a non-empty content that is longer than [maxChars] is cut into
    exactly 50 chunks, whatever its length. *)
Theorem chunkFile_fifty_chunks : forall file maxChars overlap,
  maxChars < Z.of_nat (String.length (content file)) ->
  0 < Z.of_nat (String.length (content file)) ->
  0 < overlap ->
  exists chunks,
    chunkFile 50 file maxChars overlap = Some chunks /\
    length chunks = 50%nat.
Proof.
  intros file maxChars overlap Hlong Hne Ho. unfold chunkFile.
  replace (_ <=? _) with false by (symmetry; apply Z.leb_gt; lia).
  destruct (chunkLoop_fifty 49 50 (content file) maxChars overlap 0 1 [])
    as (res & Hres & Hlen); try lia.
  exists res. split; [exact Hres | exact Hlen].
Qed.

Lemma chunkFile_fifty_chunks_witness :
  exists chunks,
    chunkFileDefault 50
      (mkCodeFile "a.ts" (String.concat EmptyString (repeat "0123456789"%string 201)) "ts" 1 2010)
      = Some chunks /\
    length chunks = 50%nat.
Proof.
  apply (chunkFile_fifty_chunks
           (mkCodeFile "a.ts" (String.concat EmptyString (repeat "0123456789"%string 201))
              "ts" 1 2010) 2000 200);
    vm_compute; reflexivity.
Defined.

Lemma length_substring : forall s n m,
  String.length (substring n m s) = Nat.min m (String.length s - n).
Proof.
  induction s as [|c s IH]; intros n m.
  - destruct n, m; reflexivity.
  - destruct n as [|n].
    + destruct m as [|m]; simpl; [reflexivity|].
      rewrite IH. rewrite Nat.sub_0_r. reflexivity.
    + simpl. apply IH.
Qed.

Lemma slice_inside : forall s a b,
  0 <= a <= b -> b <= Z.of_nat (String.length s) ->
  slice s a b = substring (Z.to_nat a) (Z.to_nat (b - a)) s.
Proof.
  intros s a b Hab Hb. unfold slice, Js.rel_index.
  replace (a <? 0) with false by (symmetry; apply Z.ltb_ge; lia).
  replace (b <? 0) with false by (symmetry; apply Z.ltb_ge; lia).
  rewrite !Z.min_l by lia. reflexivity.
Qed.

Lemma length_slice : forall s a b,
  0 <= a <= b -> b <= Z.of_nat (String.length s) ->
  Z.of_nat (String.length (slice s a b)) = b - a.
Proof.
  intros s a b Hab Hb. rewrite slice_inside by assumption.
  rewrite length_substring. lia.
Qed.

Lemma chunkLoop_sizes : forall fuel content maxChars overlap start part chunks res,
  1 <= maxChars -> 0 <= start ->
  Forall (fun c => 1 <= Z.of_nat (String.length (chunkContent c))
                   <= maxChars + 1) chunks ->
  chunkLoop fuel content maxChars overlap start part chunks = Some res ->
  Forall (fun c => 1 <= Z.of_nat (String.length (chunkContent c))
                   <= maxChars + 1) res.
Proof.
  induction fuel as [|fuel IH];
    intros content maxChars overlap start part chunks res Hm Hs Hall Hrun.
  - simpl in Hrun. destruct (_ <? _); [discriminate|].
    injection Hrun as <-. exact Hall.
  - rewrite chunkLoop_pass in Hrun.
    destruct (Z.ltb_spec start (Z.of_nat (String.length content)));
      [|injection Hrun as <-; exact Hall].
    cbv zeta in Hrun.
    destruct (breakPoint_after_start content maxChars start) as [Hbp Hgt];
      [lia | lia |].
    pose proof (breakPoint_le_length content maxChars start) as Hle.
    assert (Hall' : Forall (fun c => 1 <= Z.of_nat (String.length (chunkContent c))
                                    <= maxChars + 1)
              (chunks ++ [mkChunk (slice content start
                                     (breakPointOf content maxChars start)) part])).
    { apply Forall_app. split; [exact Hall|]. constructor; [|constructor].
      simpl. rewrite length_slice by lia. specialize (Hgt Hm). lia. }
    destruct (50 <? part + 1); [injection Hrun as <-; exact Hall'|].
    eapply IH; [exact Hm | | exact Hall' | exact Hrun].
    unfold nextStart.
    destruct (Z.ltb_spec (breakPointOf content maxChars start - overlap) 0); lia.
Qed.

(** X3.  With [maxChars] at least 1, every chunk of a non-empty content
    has at least one character and at most [maxChars + 1]: the break after
    a newline may lie one character behind [start + maxChars]. *)
Theorem chunkFile_chunk_sizes : forall fuel file maxChars overlap chunks,
  1 <= maxChars -> content file <> EmptyString ->
  chunkFile fuel file maxChars overlap = Some chunks ->
  Forall (fun c => 1 <= Z.of_nat (String.length (chunkContent c))
                   <= maxChars + 1) chunks.
Proof.
  intros fuel file maxChars overlap chunks Hm Hne H. unfold chunkFile in H.
  destruct (Z.leb_spec (Z.of_nat (String.length (content file))) maxChars).
  - injection H as <-. constructor; [|constructor]. simpl.
    destruct (content file); [contradiction|]. simpl String.length in *. lia.
  - eapply chunkLoop_sizes; [exact Hm | | | exact H]; [lia | constructor].
Qed.

Lemma chunkFile_chunk_sizes_witness :
  Forall (fun c => 1 <= Z.of_nat (String.length (chunkContent c)) <= 4 + 1)
    [mkChunk (String "a" (String "b" (String "c" (String "d"
                (String newline EmptyString))))) 1;
     mkChunk "ef" 2].
Proof.
  apply (chunkFile_chunk_sizes 50
           (mkCodeFile "a.ts"
              (String "a" (String "b" (String "c" (String "d"
                 (String newline "ef"))))) "ts" 2 7) 4 0).
  - lia.
  - discriminate.
  - reflexivity.
Defined.

Lemma substring_split : forall s n a b,
  (substring n a s ++ substring (n + a) b s)%string = substring n (a + b) s.
Proof.
  induction s as [|c s IH]; intros n a b.
  - destruct n, a, b; reflexivity.
  - destruct n as [|n].
    + destruct a as [|a]; simpl.
      * reflexivity.
      * change (String c (substring 0 a s ++ substring (0 + a) b s)
                = String c (substring 0 (a + b) s)).
        f_equal. apply IH.
    + simpl. apply IH.
Qed.

Lemma substring_all : forall s, substring 0 (String.length s) s = s.
Proof. induction s as [|c s IH]; simpl; [reflexivity | rewrite IH; reflexivity]. Qed.

Lemma append_assoc' : forall a b c : string,
  ((a ++ b) ++ c)%string = (a ++ (b ++ c))%string.
Proof.
  induction a as [|x a IH]; intros b c; [reflexivity|].
  change (String x ((a ++ b) ++ c) = String x (a ++ (b ++ c)))%string.
  f_equal. apply IH.
Qed.

Lemma concat_snoc : forall l x,
  String.concat EmptyString (l ++ [x]) = (String.concat EmptyString l ++ x)%string.
Proof.
  induction l as [|y l IH]; intros x; [reflexivity|].
  destruct l as [|z l]; [reflexivity|].
  change (String.concat "" ((y :: z :: l) ++ [x]))
    with (y ++ String.concat "" ((z :: l) ++ [x]))%string.
  change (String.concat "" (y :: z :: l))
    with (y ++ String.concat "" (z :: l))%string.
  rewrite IH. symmetry. apply append_assoc'.
Qed.

Lemma chunkLoop_reassemble :
  forall fuel content maxChars start part chunks res,
    0 <= maxChars -> part <= 50 ->
    0 <= start <= Z.of_nat (String.length content) ->
    reassemble chunks = substring 0 (Z.to_nat start) content ->
    chunkLoop fuel content maxChars 0 start part chunks = Some res ->
    reassemble res = content \/
    ((exists k, reassemble res = substring 0 k content) /\
     Z.of_nat (length res) = Z.of_nat (length chunks) + (51 - part)).
Proof.
  induction fuel as [|fuel IH];
    intros content maxChars start part chunks res Hm Hp Hs Hacc Hrun.
  - simpl in Hrun.
    destruct (Z.ltb_spec start (Z.of_nat (String.length content)));
      [discriminate|].
    injection Hrun as <-. left. rewrite Hacc.
    replace (Z.to_nat start) with (String.length content) by lia.
    apply substring_all.
  - rewrite chunkLoop_pass in Hrun.
    destruct (Z.ltb_spec start (Z.of_nat (String.length content))).
    + cbv zeta in Hrun.
      destruct (breakPoint_after_start content maxChars start) as [Hbp _];
        [lia | lia |].
      pose proof (breakPoint_le_length content maxChars start) as Hle.
      set (bp := breakPointOf content maxChars start) in *.
      assert (Hacc' : reassemble (chunks ++ [mkChunk (slice content start bp) part])
                      = substring 0 (Z.to_nat bp) content).
      { unfold reassemble in *. rewrite map_app. simpl map.
        rewrite concat_snoc, Hacc, slice_inside by lia.
        replace (Z.to_nat bp) with (Z.to_nat start + Z.to_nat (bp - start))%nat
          by lia.
        apply (substring_split content O). }
      destruct (Z.ltb_spec 50 (part + 1)).
      * injection Hrun as <-. right. split; [eexists; exact Hacc'|].
        rewrite length_app. simpl. lia.
      * assert (Hn : nextStart bp 0 = bp).
        { unfold nextStart. destruct (Z.ltb_spec (bp - 0) 0); lia. }
        rewrite Hn in Hrun.
        assert (Hp' : part + 1 <= 50) by lia.
        destruct (IH _ _ _ _ _ _ Hm Hp'
                    (conj (Z.le_trans _ _ _ (proj1 Hs) (proj1 Hbp)) Hle)
                    Hacc' Hrun) as [Hfull|[Hk Hlen]];
          [left; exact Hfull|].
        right. split; [exact Hk|]. rewrite Hlen, length_app. simpl. lia.
    + injection Hrun as <-. left. rewrite Hacc.
      replace (Z.to_nat start) with (String.length content) by lia.
      apply substring_all.
Qed.

(** X4.  Without overlap the chunks are consecutive pieces of the content:
    put together they give a prefix of it, and the whole content when the
    loop has not been cut off at part 50. *)
Theorem chunkFile_reassembles : forall fuel file maxChars chunks,
  0 <= maxChars ->
  chunkFile fuel file maxChars 0 = Some chunks ->
  (exists k, reassemble chunks = substring 0 k (content file)) /\
  ((length chunks < 50)%nat -> reassemble chunks = content file).
Proof.
  intros fuel file maxChars chunks Hm H. unfold chunkFile in H.
  destruct (_ <=? _).
  - injection H as <-. split; [|reflexivity].
    exists (String.length (content file)). symmetry. apply substring_all.
  - destruct (chunkLoop_reassemble fuel (content file) maxChars 0 1 [] chunks)
      as [Hfull|[Hk Hlen]];
      [exact Hm | lia | lia | destruct (content file); reflexivity
       | exact H | |].
    + split; [|auto].
      exists (String.length (content file)). rewrite Hfull.
      symmetry. apply substring_all.
    + split; [exact Hk|]. simpl in Hlen. lia.
Qed.

Lemma chunkFile_reassembles_witness :
  (exists k, reassemble [mkChunk "abcdefgh" 1; mkChunk "ijklmn" 2]
             = substring 0 k "abcdefghijklmn") /\
  ((length [mkChunk "abcdefgh" 1; mkChunk "ijklmn" 2] < 50)%nat ->
   reassemble [mkChunk "abcdefgh" 1; mkChunk "ijklmn" 2] = "abcdefghijklmn"%string).
Proof.
  apply (chunkFile_reassembles 50
           (mkCodeFile "a.ts" "abcdefghijklmn" "ts" 1 14) 8
           [mkChunk "abcdefgh" 1; mkChunk "ijklmn" 2]).
  - lia.
  - reflexivity.
Defined.

End ChunkMore.

Module ChunkV2Facts.
Import EvalCodebaseV2.
Local Open Scope Z_scope.

Lemma zseq_length : forall k z, length (Http.zseq z k) = k.
Proof.
  induction k as [|k IH]; intros z; simpl; [reflexivity | rewrite IH; reflexivity].
Qed.

Lemma chunkLoopV2_ends : forall n fuel content maxChars overlap start part chunks,
  part = 100 - Z.of_nat n -> (n < fuel)%nat ->
  exists res k,
    chunkLoop fuel content maxChars overlap start part chunks = Some res /\
    (k <= S n)%nat /\
    length res = (length chunks + k)%nat /\
    map EvalCodebaseV2.part res
      = (map EvalCodebaseV2.part chunks ++ Http.zseq part k)%list.
Proof.
  induction n as [|n IH];
    intros fuel content maxChars overlap start part chunks Hp Hf;
    (destruct fuel as [|fuel]; [lia|]);
    cbn [chunkLoop];
    (destruct (start <? Z.of_nat (String.length content));
     [|exists chunks, O; repeat split;
       [lia | rewrite Nat.add_0_r; reflexivity
        | rewrite app_nil_r; reflexivity]]);
    cbv zeta.
  - replace (100 <? part + 1) with true by (symmetry; apply Z.ltb_lt; lia).
    eexists. exists 1%nat. split; [reflexivity|].
    split; [lia|]. split; [rewrite length_app; reflexivity|].
    rewrite map_app. reflexivity.
  - replace (100 <? part + 1) with false by (symmetry; apply Z.ltb_ge; lia).
    match goal with
    | |- exists res k, chunkLoop _ _ _ _ ?s ?p ?c = _ /\ _ =>
        destruct (IH fuel content maxChars overlap s p c)
          as (res & k & Hres & Hk & Hlen & Hparts); [lia | lia |]
    end.
    exists res, (S k). split; [exact Hres|]. split; [lia|].
    split; [rewrite Hlen, length_app; simpl; lia|].
    rewrite Hparts, map_app, <- app_assoc. reflexivity.
Qed.

(** X5.  The chunker of the second codebase evaluation always ends, with
    at most 100 chunks; the parts are numbered 1, 2, 3, ... and every
    chunk carries the number of chunks as its [total]. *)
Theorem chunkFileV2_numbered : forall file maxChars overlap,
  exists chunks,
    chunkFile 100 file maxChars overlap = Some chunks /\
    (length chunks <= 100)%nat /\
    map EvalCodebaseV2.part chunks = Http.zseq 1 (length chunks) /\
    Forall (fun c => total c = Z.of_nat (length chunks)) chunks.
Proof.
  intros file maxChars overlap. unfold chunkFile.
  destruct (_ <=? _).
  - eexists. split; [reflexivity|]. split; [simpl; lia|].
    split; [reflexivity|]. constructor; [reflexivity | constructor].
  - destruct (chunkLoopV2_ends 99 100 (EvalCodebase.content file) maxChars
                overlap 0 1 []) as (res & k & Hres & Hk & Hlen & Hparts);
      [reflexivity | lia |].
    rewrite Hres. exists (setTotals res). split; [reflexivity|].
    unfold setTotals. rewrite length_map.
    split; [simpl in Hlen; lia|]. split.
    + rewrite map_map. cbn [EvalCodebaseV2.part].
      simpl in Hlen, Hparts. rewrite Hlen. exact Hparts.
    + apply Forall_forall. intros c Hc. apply in_map_iff in Hc.
      destruct Hc as (c0 & <- & _). reflexivity.
Qed.

End ChunkV2Facts.


(* ================================================================== *)
(** ** eval-codebase-v2.ts: withRetry and geminiCall *)
(* ================================================================== *)

Module RetryFacts.
Import Http EvalCodebaseV2.
Local Open Scope Z_scope.

Lemma retryBackoff_range : forall i, 0 <= i -> 2000 <= retryBackoff i <= 60000.
Proof.
  intros i Hi. unfold retryBackoff.
  assert (2 ^ 1 <= 2 ^ (i + 1)) by (apply Z.pow_le_mono_r; lia).
  change (2 ^ 1) with 2 in *. lia.
Qed.

Lemma zseq_lower : forall m z j, 0 <= z -> In j (zseq z m) -> 0 <= j.
Proof.
  induction m as [|m IH]; intros z j Hz Hin; simpl in Hin; [contradiction|].
  destruct Hin as [Heq|Hin]; [lia|].
  apply (IH (z + 1)); [lia | exact Hin].
Qed.

Lemma withRetryLoop_runs : forall (T : Type) n fuel (fn : Z -> Result T) retries i,
  retries - i <= Z.of_nat n -> (n <= fuel)%nat -> 0 <= i ->
  exists evs r k,
    withRetryLoop fuel fn retries i = Some (evs, r) /\
    (k <= n)%nat /\ Z.of_nat k <= Z.max 0 (retries - i) /\
    (i < retries -> (1 <= k)%nat) /\
    fetches evs = zseq i k /\
    backoffs evs = map retryBackoff (zseq i (pred k)).
Proof.
  induction n as [|n IH]; intros fuel fn retries i Hn Hf Hi.
  - exists [], (Err (mkError "Error" "Exhausted retries" None)), O.
    split; [|repeat split; simpl; lia].
    destruct fuel; simpl;
      replace (i <? retries) with false by (symmetry; apply Z.ltb_ge; lia);
      reflexivity.
  - destruct fuel as [|fuel]; [lia|]. cbn [withRetryLoop].
    destruct (Z.ltb_spec i retries) as [Hlt|Hge].
    + destruct (fn i) as [v|err].
      * exists [FetchCall i], (Ok v), 1%nat.
        split; [reflexivity|]. repeat split; simpl; lia.
      * destruct (includes (message err) "429" && (i <? retries - 1)) eqn:Hretry.
        -- destruct (IH fuel fn retries (i + 1))
             as (evs & r & k & Hrun & Hk & Hk' & Hpos & Hf' & Hb);
             [lia | lia | lia |].
           apply andb_prop in Hretry. destruct Hretry as [_ Hlast].
           apply Z.ltb_lt in Hlast.
           rewrite Hrun.
           destruct k as [|k]; [specialize (Hpos ltac:(lia)); lia|].
           exists (FetchCall i :: Backoff i (retryBackoff i) :: evs), r, (S (S k)).
           split; [reflexivity|]. split; [lia|]. split; [lia|].
           split; [intros _; lia|].
           split; [simpl; f_equal; exact Hf'|].
           simpl. f_equal. exact Hb.
        -- exists [FetchCall i], (Err err), 1%nat.
           split; [reflexivity|]. repeat split; simpl; lia.
    + exists [], (Err (mkError "Error" "Exhausted retries" None)), O.
      split; [reflexivity|]. repeat split; simpl; lia.
Qed.

(** X6.  [withRetry] always ends: it calls [fn] at most [retries] times,
    in passes 0, 1, 2, ..., and between two calls it waits
    [min(1000 * 2^(i+1), 60000)] milliseconds, which is between two
    seconds and one minute. *)
Theorem withRetry_calls_and_waits :
  forall (T : Type) (fn : Z -> Result T) retries,
  exists evs r k,
    withRetry (Z.to_nat retries) fn retries = Some (evs, r) /\
    Z.of_nat k <= Z.max 0 retries /\
    fetches evs = zseq 0 k /\
    backoffs evs = map retryBackoff (zseq 0 (pred k)) /\
    Forall (fun ms => 2000 <= ms <= 60000) (backoffs evs).
Proof.
  intros T fn retries. unfold withRetry.
  destruct (withRetryLoop_runs T (Z.to_nat retries) (Z.to_nat retries) fn retries 0)
    as (evs & r & k & Hrun & Hk & Hk' & _ & Hf & Hb); [lia | lia | lia |].
  exists evs, r, k. split; [exact Hrun|].
  split; [rewrite Z.sub_0_r in Hk'; exact Hk'|].
  split; [exact Hf|]. split; [exact Hb|].
  rewrite Hb. apply Forall_forall. intros ms Hin.
  apply in_map_iff in Hin. destruct Hin as (j & <- & Hj).
  apply retryBackoff_range.
  apply (zseq_lower (pred k) 0 j); [lia | exact Hj].
Qed.

Lemma withRetryLoop_ok : forall (T : Type) fuel (fn : Z -> Result T) retries i evs v,
  withRetryLoop fuel fn retries i = Some (evs, Ok v) ->
  exists k, i <= k < retries /\ fn k = Ok v /\
    forall j, i <= j < k ->
      exists e, fn j = Err e /\ includes (message e) "429" = true.
Proof.
  induction fuel as [|fuel IH]; intros fn retries i evs v Hrun;
    cbn [withRetryLoop] in Hrun;
    destruct (Z.ltb_spec i retries) as [Hlt|Hge]; try discriminate.
  destruct (fn i) as [v0|err] eqn:Hfn.
  - injection Hrun as _ <-. exists i. split; [lia|]. split; [exact Hfn|].
    intros j Hj. lia.
  - destruct (includes (message err) "429" && (i <? retries - 1)) eqn:Hretry;
      [|discriminate].
    destruct (withRetryLoop fuel fn retries (i + 1)) as [[evs' r']|] eqn:Hrec;
      [|discriminate].
    injection Hrun as _ ->.
    apply IH in Hrec. destruct Hrec as (k & Hk & Hfk & Hbefore).
    exists k. split; [lia|]. split; [exact Hfk|].
    intros j Hj. destruct (Z.eq_dec j i) as [->|Hne].
    + exists err. split; [exact Hfn|].
      apply andb_prop in Hretry. exact (proj1 Hretry).
    + apply Hbefore. lia.
Qed.

(** X7.  What [withRetry] returns is the value of a call of [fn] in some
    pass below [retries], and every call before it has thrown an error
    whose message contains 429. *)
Theorem withRetry_returns_first_success :
  forall (T : Type) fuel (fn : Z -> Result T) retries evs v,
  withRetry fuel fn retries = Some (evs, Ok v) ->
  exists k, 0 <= k < retries /\ fn k = Ok v /\
    forall j, 0 <= j < k ->
      exists e, fn j = Err e /\ includes (message e) "429" = true.
Proof.
  intros T fuel fn retries evs v Hrun. exact (withRetryLoop_ok _ _ _ _ _ _ _ Hrun).
Qed.

Lemma withRetry_returns_first_success_witness :
  exists k, 0 <= k < 5 /\
    (fun i => if i =? 0 then Err (mkError "Error" "Gemini 429: busy" None)
              else Ok 7) k = Ok 7 /\
    forall j, 0 <= j < k ->
      exists e,
        (fun i => if i =? 0 then Err (mkError "Error" "Gemini 429: busy" None)
                  else Ok 7) j = Err e /\
        includes (message e) "429" = true.
Proof.
  apply (withRetry_returns_first_success Z 5
           (fun i => if i =? 0 then Err (mkError "Error" "Gemini 429: busy" None)
                     else Ok 7) 5
           [FetchCall 0; Backoff 0 2000; FetchCall 1] 7).
  reflexivity.
Defined.

Lemma withRetryLoop_err : forall (T : Type) fuel (fn : Z -> Result T) retries i evs e,
  i < retries ->
  withRetryLoop fuel fn retries i = Some (evs, Err e) ->
  exists k, i <= k < retries /\ fn k = Err e /\
    (includes (message e) "429" = false \/ k = retries - 1).
Proof.
  induction fuel as [|fuel IH]; intros fn retries i evs e Hi Hrun;
    cbn [withRetryLoop] in Hrun;
    destruct (Z.ltb_spec i retries) as [Hlt|Hge]; try discriminate; try lia.
  destruct (fn i) as [v0|err] eqn:Hfn; [discriminate|].
  destruct (includes (message err) "429") eqn:Hinc; cbn [andb] in Hrun.
  - destruct (Z.ltb_spec i (retries - 1)) as [Hlast|Hlast].
    + destruct (withRetryLoop fuel fn retries (i + 1)) as [[evs' r']|] eqn:Hrec;
        [|discriminate].
      injection Hrun as _ ->.
      apply IH in Hrec; [|lia]. destruct Hrec as (k & Hk & Hfk & Hwhy).
      exists k. split; [lia|]. split; [exact Hfk | exact Hwhy].
    + injection Hrun as _ <-. exists i. split; [lia|].
      split; [exact Hfn|]. right. lia.
  - injection Hrun as _ <-. exists i. split; [lia|].
    split; [exact Hfn|]. left. exact Hinc.
Qed.

(** X8.  With at least one retry allowed, an error that [withRetry] throws
    is an error thrown by [fn] itself, in the last pass or with a message
    that does not contain 429: the final 'Exhausted retries' error is
    never reached. *)
Theorem withRetry_throws_error_of_fn :
  forall (T : Type) fuel (fn : Z -> Result T) retries evs e,
  1 <= retries ->
  withRetry fuel fn retries = Some (evs, Err e) ->
  exists k, 0 <= k < retries /\ fn k = Err e /\
    (includes (message e) "429" = false \/ k = retries - 1).
Proof.
  intros T fuel fn retries evs e Hr Hrun.
  apply (withRetryLoop_err T fuel fn retries 0 evs e); [lia | exact Hrun].
Qed.

Lemma withRetry_throws_error_of_fn_witness :
  exists k, 0 <= k < 2 /\
    (fun _ : Z => @Err Z (mkError "Error" "Gemini 429: busy" None)) k
      = Err (mkError "Error" "Gemini 429: busy" None) /\
    (includes (message (mkError "Error" "Gemini 429: busy" None)) "429" = false
     \/ k = 2 - 1).
Proof.
  apply (withRetry_throws_error_of_fn Z 2
           (fun _ => Err (mkError "Error" "Gemini 429: busy" None)) 2
           [FetchCall 0; Backoff 0 2000; FetchCall 1]
           (mkError "Error" "Gemini 429: busy" None)).
  - lia.
  - reflexivity.
Defined.

Lemma withRetryLoop_retry :
  forall (T : Type) fuel (fn : Z -> Result T) retries i e,
  fn i = Err e -> includes (message e) "429" = true -> i < retries - 1 ->
  withRetryLoop (S fuel) fn retries i
  = match withRetryLoop fuel fn retries (i + 1) with
    | None => None
    | Some (evs, r) => Some (FetchCall i :: Backoff i (retryBackoff i) :: evs, r)
    end.
Proof.
  intros T fuel fn retries i e Hfn Hinc Hi. cbn [withRetryLoop].
  replace (i <? retries) with true by (symmetry; apply Z.ltb_lt; lia).
  rewrite Hfn, Hinc.
  replace (i <? retries - 1) with true by (symmetry; apply Z.ltb_lt; lia).
  reflexivity.
Qed.

Lemma withRetryLoop_last :
  forall (T : Type) fuel (fn : Z -> Result T) retries i e,
  fn i = Err e -> i = retries - 1 ->
  withRetryLoop (S fuel) fn retries i = Some ([FetchCall i], Err e).
Proof.
  intros T fuel fn retries i e Hfn Hi. cbn [withRetryLoop].
  replace (i <? retries) with true by (symmetry; apply Z.ltb_lt; lia).
  rewrite Hfn.
  replace (i <? retries - 1) with false by (symmetry; apply Z.ltb_ge; lia).
  rewrite andb_false_r. reflexivity.
Qed.

Lemma geminiCall_429 : forall trim res body,
  status res = 429 -> text res = inr body ->
  geminiCall trim (Resolved res)
  = Err (mkError "Error" ("Gemini 429: " ++ substring 0 200 body) None) /\
  includes ("Gemini 429: " ++ substring 0 200 body) "429" = true.
Proof.
  intros trim res body Hs Ht. split.
  - unfold geminiCall, ok. rewrite Hs, Ht. reflexivity.
  - reflexivity.
Qed.

(** X9.  When every one of the five fetches is answered with HTTP 429,
    [withRetry(() => geminiCall(..))] makes exactly five calls, waits 2,
    4, 8 and 16 seconds between them, and throws the error of the last
    call, whose message starts with 'Gemini 429: '. *)
Theorem geminiWithRetry_rate_limited : forall trim net,
  (forall i, 0 <= i < 5 ->
     exists res body, net i = Resolved res /\ status res = 429 /\
                      text res = inr body) ->
  exists evs body,
    geminiWithRetry trim 5 net
    = Some (evs, Err (mkError "Error"
                        ("Gemini 429: " ++ substring 0 200 body) None)) /\
    fetches evs = [0; 1; 2; 3; 4] /\
    backoffs evs = [2000; 4000; 8000; 16000].
Proof.
  intros trim net H.
  destruct (H 0) as (r0 & b0 & N0 & S0 & T0); [lia|].
  destruct (H 1) as (r1 & b1 & N1 & S1 & T1); [lia|].
  destruct (H 2) as (r2 & b2 & N2 & S2 & T2); [lia|].
  destruct (H 3) as (r3 & b3 & N3 & S3 & T3); [lia|].
  destruct (H 4) as (r4 & b4 & N4 & S4 & T4); [lia|].
  destruct (geminiCall_429 trim r0 b0 S0 T0) as [G0 I0].
  destruct (geminiCall_429 trim r1 b1 S1 T1) as [G1 I1].
  destruct (geminiCall_429 trim r2 b2 S2 T2) as [G2 I2].
  destruct (geminiCall_429 trim r3 b3 S3 T3) as [G3 I3].
  destruct (geminiCall_429 trim r4 b4 S4 T4) as [G4 I4].
  eexists. exists b4. unfold geminiWithRetry, withRetry.
  rewrite (withRetryLoop_retry _ 4 _ 5 0 _ (eq_trans (f_equal _ N0) G0) I0)
    by lia.
  rewrite (withRetryLoop_retry _ 3 _ 5 1 _ (eq_trans (f_equal _ N1) G1) I1)
    by lia.
  rewrite (withRetryLoop_retry _ 2 _ 5 2 _ (eq_trans (f_equal _ N2) G2) I2)
    by lia.
  rewrite (withRetryLoop_retry _ 1 _ 5 3 _ (eq_trans (f_equal _ N3) G3) I3)
    by lia.
  rewrite (withRetryLoop_last _ 0 _ 5 4 _ (eq_trans (f_equal _ N4) G4))
    by lia.
  split; [reflexivity|]. split; reflexivity.
Qed.

Lemma geminiWithRetry_rate_limited_witness :
  exists evs body,
    geminiWithRetry (fun s => s) 5 always429
    = Some (evs, Err (mkError "Error"
                        ("Gemini 429: " ++ substring 0 200 body) None)) /\
    fetches evs = [0; 1; 2; 3; 4] /\
    backoffs evs = [2000; 4000; 8000; 16000].
Proof.
  apply (geminiWithRetry_rate_limited (fun s => s) always429).
  intros i _. eexists. eexists. split; [reflexivity|]. split; reflexivity.
Defined.

End RetryFacts.


(* ================================================================== *)
(** ** The judges' scores *)
(* ================================================================== *)

Module JudgeFacts.
Import Http JsMath.

Lemma clamp01_cases : forall x,
  (x = Js.NaN /\ clamp01 x = Js.NaN) \/ (x <> Js.NaN /\ unit_score (clamp01 x)).
Proof.
  intros [r|[|]|]; [right|right|right|left; split; reflexivity];
    (split; [discriminate|]); unfold unit_score, clamp01; simpl.
  - eexists. split; [reflexivity|].
    split; [apply Rmax_l|].
    apply Rmax_lub; [lra | apply Rmin_l].
  - eexists. split; [reflexivity|].
    split; [apply Rmax_l | apply Rmax_lub; lra].
  - exists 0%R. split; [reflexivity | lra].
Qed.

Lemma unit_score_zero : unit_score (Js.Fin 0).
Proof. exists 0%R. split; [reflexivity | lra]. Qed.

Lemma unit_score_not_NaN : forall x, unit_score x -> x <> Js.NaN.
Proof. intros x (r & -> & _). discriminate. Qed.

Lemma rag_scoreAnswer_cases : forall scoreOf call,
  (RagJudge.scoreAnswer scoreOf call = Js.NaN <->
   exists resp, call = Returned resp /\ scoreOf resp = Some Js.NaN) /\
  (RagJudge.scoreAnswer scoreOf call <> Js.NaN ->
   unit_score (RagJudge.scoreAnswer scoreOf call)).
Proof.
  intros scoreOf call. unfold RagJudge.scoreAnswer.
  destruct call as [resp|e].
  - destruct (scoreOf resp) as [score|] eqn:Hs.
    + destruct (clamp01_cases score) as [[-> Hc]|[Hn Hu]].
      * split; [|intros H; contradiction].
        split; [intros _; exists resp; split; [reflexivity | exact Hs]
               | intros _; exact Hc].
      * split; [|intros _; exact Hu].
        split.
        -- intros H. exfalso. exact (unit_score_not_NaN _ Hu H).
        -- intros (resp' & Hr & Hs'). injection Hr as <-.
           rewrite Hs in Hs'. injection Hs' as ->. contradiction.
    + split; [|intros _; exact unit_score_zero].
      split; [discriminate|].
      intros (resp' & Hr & Hs'). injection Hr as <-.
      rewrite Hs in Hs'. discriminate.
  - split; [|intros _; exact unit_score_zero].
    split; [discriminate|]. intros (resp' & Hr & _). discriminate.
Qed.



End JudgeFacts.

Module LocomoJudgeFacts.
Import Http JsMath LocomoJudge JudgeFacts.
Local Open Scope Z_scope.

Lemma tryParse_unit : forall rd response score,
  tryParse rd response = Some score -> unit_score score.
Proof.
  intros rd response score H. unfold tryParse in H.
  destruct (parseScore rd response) as [x|]; [|discriminate].
  destruct (clamp01_cases x) as [[-> _]|[Hn Hu]]; [discriminate|].
  destruct (isNaN x); [discriminate|]. injection H as <-. exact Hu.
Qed.

Lemma lastResort_unit : forall rd response, unit_score (lastResort rd response).
Proof.
  intros rd response. unfold lastResort.
  destruct (extract rd response) as [x|]; [|exact unit_score_zero].
  destruct (clamp01_cases x) as [[-> _]|[Hn Hu]]; [exact unit_score_zero|].
  destruct (isNaN x); [exact unit_score_zero | exact Hu].
Qed.

Lemma scoreLoop_runs : forall n fuel rd judge attempt,
  attempt = 3 - Z.of_nat n -> (n < fuel)%nat ->
  exists evs r k,
    scoreLoop fuel rd judge attempt = Some (evs, r) /\
    (1 <= k <= S n)%nat /\
    judgeCalls evs = zseq attempt k /\
    match r with
    | inr score => unit_score score
    | inl e => judge (attempt + Z.of_nat k - 1) = Thrown e
    end.
Proof.
  induction n as [|n IH]; intros fuel rd judge attempt Ha Hf;
    (destruct fuel as [|fuel]; [lia|]); cbn [scoreLoop]; unfold MAX_JUDGE_RETRIES;
    replace (attempt <=? 3) with true by (symmetry; apply Z.leb_le; lia).
  - destruct (judge attempt) as [response|e] eqn:Hj.
    + destruct (tryParse rd response) as [score|] eqn:Hp.
      * exists [JudgeCall attempt], (inr score), 1%nat.
        split; [reflexivity|]. split; [lia|]. split; [reflexivity|].
        exact (tryParse_unit _ _ _ Hp).
      * replace (attempt <? 3) with false by (symmetry; apply Z.ltb_ge; lia).
        exists [JudgeCall attempt], (inr (lastResort rd response)), 1%nat.
        split; [reflexivity|]. split; [lia|]. split; [reflexivity|].
        apply lastResort_unit.
    + exists [JudgeCall attempt], (inl e), 1%nat.
      split; [reflexivity|]. split; [lia|]. split; [reflexivity|].
      rewrite <- Hj. f_equal. lia.
  - destruct (judge attempt) as [response|e] eqn:Hj.
    + destruct (tryParse rd response) as [score|] eqn:Hp.
      * exists [JudgeCall attempt], (inr score), 1%nat.
        split; [reflexivity|]. split; [lia|]. split; [reflexivity|].
        exact (tryParse_unit _ _ _ Hp).
      * replace (attempt <? 3) with true by (symmetry; apply Z.ltb_lt; lia).
        destruct (IH fuel rd judge (attempt + 1))
          as (evs & r & k & Hrun & Hk & Hcalls & Hr); [lia | lia |].
        rewrite Hrun.
        exists (JudgeCall attempt :: Sleep Locomo.RATE_LIMIT_MS :: evs), r, (S k).
        split; [reflexivity|]. split; [lia|].
        split; [simpl; f_equal; exact Hcalls|].
        destruct r as [e|score]; [|exact Hr].
        rewrite <- Hr. f_equal. lia.
    + exists [JudgeCall attempt], (inl e), 1%nat.
      split; [reflexivity|]. split; [lia|]. split; [reflexivity|].
      rewrite <- Hj. f_equal. lia.
Qed.

(** X11.  The LOCOMO judge always ends after one, two or three calls of
    [callGemini].  A score it returns is a number between 0 and 1, never
    NaN; it fails only with the error of its last call of [callGemini]. *)
Theorem locomo_scoreAnswer_bounded : forall rd judge,
  exists evs r k,
    scoreAnswer 3 rd judge = Some (evs, r) /\
    (1 <= k <= 3)%nat /\
    judgeCalls evs = zseq 1 k /\
    match r with
    | inr score => unit_score score
    | inl e => judge (Z.of_nat k) = Thrown e
    end.
Proof.
  intros rd judge.
  destruct (scoreLoop_runs 2 3 rd judge 1)
    as (evs & r & k & Hrun & Hk & Hcalls & Hr); [reflexivity | lia |].
  exists evs, r, k. split; [exact Hrun|]. split; [exact Hk|].
  split; [exact Hcalls|].
  destruct r as [e|score]; [|exact Hr].
  rewrite <- Hr. f_equal. lia.
Qed.

End LocomoJudgeFacts.


(* ================================================================== *)
(** ** eval-codebase-v2.ts: the capped context *)
(* ================================================================== *)

Module CappedFacts.
Import EvalCodebaseV2 CappedContext.
Local Open Scope Z_scope.

Lemma length_app_str : forall a b : string,
  String.length (a ++ b) = (String.length a + String.length b)%nat.
Proof.
  induction a as [|c a IH]; intros b; simpl; [reflexivity | rewrite IH; reflexivity].
Qed.

Lemma estimateTokens_covers : forall s,
  Z.of_nat (String.length s) <= 4 * estimateTokens s.
Proof.
  intros s. unfold estimateTokens.
  pose proof (Z.div_mod (Z.of_nat (String.length s) + 3) 4 ltac:(lia)).
  pose proof (Z.mod_pos_bound (Z.of_nat (String.length s) + 3) 4 ltac:(lia)).
  lia.
Qed.

Lemma estimateTokens_nonneg : forall s, 0 <= estimateTokens s.
Proof. intros s. unfold estimateTokens. apply Z.div_pos; lia. Qed.

Lemma length_slice_prefix : forall s n, 0 <= n ->
  Z.of_nat (String.length (EvalCodebase.slice s 0 n)) <= n.
Proof.
  intros s n Hn. unfold EvalCodebase.slice, Js.rel_index.
  replace (n <? 0) with false by (symmetry; apply Z.ltb_ge; lia).
  change (0 <? 0) with false. cbv iota.
  rewrite ChunkMore.length_substring. lia.
Qed.

Lemma length_fullEntry : forall p content,
  Z.of_nat (String.length (fullEntry p content))
  = Z.of_nat (String.length p) + Z.of_nat (String.length content) + 11.
Proof.
  intros p content. unfold fullEntry, nl.
  rewrite !length_app_str. simpl String.length. lia.
Qed.

Lemma length_truncatedEntry : forall p content remaining, 0 <= remaining ->
  Z.of_nat (String.length (truncatedEntry p content remaining))
  <= Z.of_nat (String.length p) + 4 * remaining + 23.
Proof.
  intros p content remaining Hr. unfold truncatedEntry, nl.
  rewrite !length_app_str. simpl String.length.
  pose proof (length_slice_prefix content (remaining * 4) ltac:(lia)). lia.
Qed.

Lemma packLoop_bounded : forall scored ctx tokensUsed used,
  0 <= tokensUsed <= CAPPED_CONTEXT_TOKENS ->
  Z.of_nat (String.length (context (packLoop scored ctx tokensUsed used)))
  <= Z.of_nat (String.length ctx)
     + 4 * (CAPPED_CONTEXT_TOKENS - tokensUsed) + headerRoom scored /\
  used <= filesUsed (packLoop scored ctx tokensUsed used)
       <= used + Z.of_nat (length scored).
Proof.
  induction scored as [|f rest IH]; intros ctx tokensUsed used Ht.
  - simpl. lia.
  - cbn [packLoop headerRoom fold_right length].
    fold (headerRoom rest).
    destruct (onDisk f) as [content|].
    + cbv zeta.
      pose proof (estimateTokens_covers content) as Hcov.
      pose proof (estimateTokens_nonneg content) as Hpos.
      destruct (Z.ltb_spec CAPPED_CONTEXT_TOKENS
                  (tokensUsed + estimateTokens content)) as [Hover|Hfits].
      * assert (Hroom : 0 <= headerRoom rest).
        { clear. induction rest as [|g rest IH]; simpl; [lia|].
          fold (headerRoom rest). lia. }
        destruct (Z.ltb_spec 500 (CAPPED_CONTEXT_TOKENS - tokensUsed)).
        -- cbn [context filesUsed]. rewrite length_app_str.
           pose proof (length_truncatedEntry (path f) content
                         (CAPPED_CONTEXT_TOKENS - tokensUsed) ltac:(lia)).
           lia.
        -- cbn [context filesUsed]. lia.
      * destruct (IH (ctx ++ fullEntry (path f) content)%string
                     (tokensUsed + estimateTokens content) (used + 1))
          as [Hlen Hused]; [lia|].
        rewrite length_app_str, Nat2Z.inj_add, length_fullEntry in Hlen.
        lia.
    + destruct (IH ctx tokensUsed used Ht) as [Hlen Hused]. lia.
Qed.

(** X12.  The capped context holds at most 400,000 characters of file
    content (four per token of the cap) besides the header and separator
    of each file, and it counts at most one used file per manifest
    entry. *)
Theorem buildCappedContext_bounded : forall scored,
  Z.of_nat (String.length (context (buildCappedContext scored)))
  <= 4 * CAPPED_CONTEXT_TOKENS + headerRoom scored /\
  0 <= filesUsed (buildCappedContext scored) <= Z.of_nat (length scored).
Proof.
  intros scored. unfold buildCappedContext.
  destruct (packLoop_bounded scored EmptyString 0 0) as [Hlen Hused];
    [unfold CAPPED_CONTEXT_TOKENS; lia|].
  simpl String.length in Hlen. lia.
Qed.

End CappedFacts.


(* ================================================================== *)
(** ** eval-locomo-openai.ts: the retry loops *)
(* ================================================================== *)

Module OpenAIFacts.
Import Http LocomoOpenAI.
Local Open Scope Z_scope.

Lemma retryLoop_budget : forall tryBlock exhausted n fuel net attempt,
  attempt = 6 - Z.of_nat n -> (n <= 5)%nat -> (n <= fuel)%nat ->
  exists evs o k,
    retryLoop tryBlock exhausted fuel net attempt = Some (evs, o) /\
    (k <= n)%nat /\
    fetches evs = zseq attempt k /\
    0 <= totalWait evs <= 1200 * (6 - attempt) + 1200 * (64 - 2 ^ attempt).
Proof.
  intros tryBlock exhausted.
  induction n as [|n IH]; intros fuel net attempt Ha Hn Hf.
  - exists [], (Thrown exhausted), O. subst attempt.
    split; [destruct fuel; reflexivity|].
    split; [lia|]. split; [reflexivity|]. simpl. lia.
  - destruct fuel as [|fuel]; [lia|]. cbn [retryLoop]. unfold MAX_RETRIES.
    replace (attempt <=? 5) with true by (symmetry; apply Z.leb_le; lia).
    cbv zeta.
    assert (Hpow : 2 ^ (attempt + 1) = 2 * 2 ^ attempt)
      by (change (attempt + 1) with (Z.succ attempt);
          rewrite Z.pow_succ_r by lia; reflexivity).
    assert (Hpow5 : 0 < 2 ^ attempt <= 2 ^ 5).
    { split; [apply Z.pow_pos_nonneg; lia | apply Z.pow_le_mono_r; lia]. }
    change (2 ^ 5) with 32 in Hpow5.
    destruct (tryBlock attempt (net attempt)) as [|o].
    + destruct (IH fuel net (attempt + 1))
        as (evs & o & k & Hrun & Hk & Hcalls & Hwait); [lia | lia | lia |].
      rewrite Hrun.
      eexists. exists o, (S k). split; [reflexivity|]. split; [lia|].
      split; [simpl; f_equal; exact Hcalls|].
      cbn [app totalWait fold_right]. fold (totalWait evs).
      unfold backoff, RATE_LIMIT_MS. rewrite Hpow in Hwait. lia.
    + eexists. exists o, 1%nat. split; [reflexivity|]. split; [lia|].
      split; [reflexivity|].
      cbn [totalWait fold_right]. unfold RATE_LIMIT_MS. lia.
Qed.

(** X13.  [callOpenAI] always ends: it fetches at most five times, in
    attempts 1, 2, 3, ..., and all its sleeps together take at most 80.4
    seconds. *)
Theorem callOpenAI_budget : forall net,
  exists evs o k,
    callOpenAI 5 net = Some (evs, o) /\
    (k <= 5)%nat /\
    fetches evs = zseq 1 k /\
    0 <= totalWait evs <= 80400.
Proof.
  intros net. unfold callOpenAI.
  destruct (retryLoop_budget openaiTry
              (mkError "Error" "OpenAI API failed after 5 retries" None)
              5 5 net 1) as (evs & o & k & Hrun & Hk & Hcalls & Hwait);
    [reflexivity | lia | lia |].
  exists evs, o, k. split; [exact Hrun|]. split; [exact Hk|].
  split; [exact Hcalls|]. change (2 ^ 1) with 2 in Hwait. lia.
Qed.

Lemma geminiTry_thrown_last : forall attempt f e,
  geminiTry attempt f = Finish (Thrown e) -> 5 <= attempt.
Proof.
  intros attempt f e H. unfold geminiTry, geminiCatch, MAX_RETRIES in H.
  destruct (Z.ltb_spec attempt 5) as [Hlt|Hge]; [|exact Hge].
  destruct f as [response|err]; [|discriminate].
  destruct (_ || _); [discriminate|].
  destruct (negb _); [discriminate|].
  destruct (json response); discriminate.
Qed.

Lemma geminiLoop_thrown : forall n fuel net attempt evs e,
  attempt = 6 - Z.of_nat n -> (n <= 5)%nat ->
  retryLoop geminiTry (mkError "Error" "Gemini failed after retries" None)
    fuel net attempt = Some (evs, Thrown e) ->
  fetches evs = zseq attempt n.
Proof.
  induction n as [|n IH]; intros fuel net attempt evs e Ha Hn Hrun.
  - subst attempt. destruct fuel; simpl in Hrun; injection Hrun as <- _;
      reflexivity.
  - destruct fuel as [|fuel]; cbn [retryLoop] in Hrun; unfold MAX_RETRIES in Hrun;
      replace (attempt <=? 5) with true in Hrun
        by (symmetry; apply Z.leb_le; lia);
      [discriminate|].
    cbv zeta in Hrun.
    destruct (geminiTry attempt (net attempt)) as [|o] eqn:Htry.
    + destruct (retryLoop _ _ fuel net (attempt + 1)) as [[evs' o']|] eqn:Hrec;
        [|discriminate].
      injection Hrun as <- ->.
      apply IH in Hrec; [|lia|lia].
      simpl. f_equal. exact Hrec.
    + injection Hrun as <- ->.
      apply geminiTry_thrown_last in Htry.
      assert (n = O) by lia. subst n. reflexivity.
Qed.

(** X14.  [callGemini] of the OpenAI evaluation always ends, after sleeps
    of at most 80.4 seconds together, and it retries after every kind of
    failure: when it throws, it has fetched exactly five times, also for
    an answer such as HTTP 400 that another attempt cannot change. *)
Theorem openai_callGemini_throws_after_five : forall net,
  exists evs o,
    callGemini 5 net = Some (evs, o) /\
    0 <= totalWait evs <= 80400 /\
    (isThrown o -> fetches evs = [1; 2; 3; 4; 5]).
Proof.
  intros net. unfold callGemini.
  destruct (retryLoop_budget geminiTry
              (mkError "Error" "Gemini failed after retries" None)
              5 5 net 1) as (evs & o & k & Hrun & Hk & Hcalls & Hwait);
    [reflexivity | lia | lia |].
  exists evs, o. split; [exact Hrun|].
  split; [change (2 ^ 1) with 2 in Hwait; lia|].
  destruct o as [s|e]; [intros []|]. intros _.
  apply (geminiLoop_thrown 5 5 net 1 evs e); [reflexivity | lia | exact Hrun].
Qed.

(** A network that answers every fetch with HTTP 400: five fetches, then
    the error of the fifth. *)
Example openai_callGemini_bad_request :
  exists evs,
    callGemini 5
      (fun _ => Resolved (mkResponse 400 (inr "bad request"%string)
                            (inr (mkData None EmptyString))))
    = Some (evs, Thrown (mkError "Error" "Gemini failed: 400" None)) /\
    fetches evs = [1; 2; 3; 4; 5] /\
    totalWait evs = 42000.
Proof. eexists. split; [reflexivity|]. split; reflexivity. Qed.

End OpenAIFacts.


(* ================================================================== *)
(** ** chunkMarkdown *)
(* ================================================================== *)

Module MarkdownFacts.
Import JsString Markdown.

Lemma length_trimStart : forall s,
  (String.length (trimStart s) <= String.length s)%nat.
Proof.
  induction s as [|c s IH]; simpl; [lia|].
  destruct (isWhiteSpace c); simpl; lia.
Qed.

Lemma length_trimEnd : forall s,
  (String.length (trimEnd s) <= String.length s)%nat.
Proof.
  induction s as [|c s IH]; simpl; [lia|].
  destruct (trimEnd s) as [|d t]; [destruct (isWhiteSpace c)|]; simpl in *; lia.
Qed.

Lemma length_trim : forall s, (String.length (trim s) <= String.length s)%nat.
Proof.
  intros s. unfold trim.
  pose proof (length_trimEnd (trimStart s)). pose proof (length_trimStart s). lia.
Qed.

Lemma totalLength_app : forall a b,
  totalLength (a ++ b) = (totalLength a + totalLength b)%nat.
Proof.
  induction a as [|x a IH]; intros b; simpl; [reflexivity | rewrite IH; lia].
Qed.

Lemma totalLength_filter : forall p l,
  (totalLength (filter p l) <= totalLength l)%nat.
Proof.
  induction l as [|x l IH]; simpl; [lia|].
  destruct (p x); simpl; lia.
Qed.

Lemma splitLines_cons : forall s, exists l ls, splitLines s = l :: ls.
Proof.
  induction s as [|c s (l & ls & IH)]; simpl; [eauto|].
  destruct (Ascii.eqb c EvalCodebase.newline); [eauto|].
  rewrite IH. eauto.
Qed.

Lemma splitLines_length : forall s,
  (totalLength (splitLines s) + length (splitLines s) = String.length s + 1)%nat.
Proof.
  induction s as [|c s IH]; simpl; [reflexivity|].
  destruct (Ascii.eqb c EvalCodebase.newline); simpl; [lia|].
  destruct (splitLines_cons s) as (l & ls & Hs). rewrite Hs in *.
  simpl in *. lia.
Qed.

Lemma length_append : forall a b : string,
  String.length (a ++ b) = (String.length a + String.length b)%nat.
Proof.
  induction a as [|c a IH]; intros b; simpl; [reflexivity | rewrite IH; reflexivity].
Qed.

Section Chunker.
Variable isHeader : string -> bool.
Variable limit : nat.

Lemma step_total : forall chunks current line,
  (totalLength (fst (step isHeader limit (chunks, current) line))
   + String.length (snd (step isHeader limit (chunks, current) line))
   <= totalLength chunks + String.length current + (String.length line + 1))%nat.
Proof.
  intros chunks current line. unfold step.
  pose proof (length_trim current) as Htc.
  destruct (isHeader line && nonEmpty (trim current)).
  - pose proof (length_trim (line ++ String EvalCodebase.newline "")) as Ht.
    change ("" ++ line ++ String EvalCodebase.newline "")%string
      with (line ++ String EvalCodebase.newline "")%string.
    rewrite length_append in *. simpl String.length in *.
    destruct (_ <? _)%nat; cbn [fst snd];
      rewrite ?totalLength_app; simpl; rewrite ?length_append; simpl; lia.
  - pose proof (length_trim (current ++ line ++ String EvalCodebase.newline ""))
      as Ht.
    rewrite !length_append in Ht. simpl String.length in Ht.
    destruct (_ <? _)%nat; cbn [fst snd];
      rewrite ?totalLength_app; simpl; rewrite ?length_append; simpl; lia.
Qed.

Lemma fold_step_total : forall lines chunks current,
  (totalLength (fst (fold_left (step isHeader limit) lines (chunks, current)))
   + String.length (snd (fold_left (step isHeader limit) lines (chunks, current)))
   <= totalLength chunks + String.length current
      + (totalLength lines + length lines))%nat.
Proof.
  induction lines as [|line lines IH]; intros chunks current;
    [cbn [fold_left fst snd]; lia|].
  cbn [fold_left]. unfold totalLength at 3.
  cbn [fold_right length]. fold (totalLength lines).
  pose proof (step_total chunks current line) as Hs.
  destruct (step isHeader limit (chunks, current) line) as [chunks' current'].
  specialize (IH chunks' current'). cbn [fst snd] in Hs. lia.
Qed.

Lemma rawChunks_total : forall md,
  (totalLength (rawChunks isHeader limit md) <= String.length md + 1)%nat.
Proof.
  intros md. unfold rawChunks.
  pose proof (fold_step_total (splitLines md) [] EmptyString) as H.
  pose proof (splitLines_length md) as Hs.
  destruct (fold_left _ _ _) as [chunks current]. cbn [fst snd] in H.
  simpl in H. pose proof (length_trim current).
  destruct (nonEmpty (trim current));
    rewrite ?totalLength_app; simpl; lia.
Qed.

Lemma step_sizes : forall M chunks current line,
  (String.length line <= M)%nat ->
  (String.length current <= limit)%nat ->
  Forall (sized (limit + 1 + M)) chunks ->
  (String.length (snd (step isHeader limit (chunks, current) line)) <= limit)%nat /\
  Forall (sized (limit + 1 + M)) (fst (step isHeader limit (chunks, current) line)).
Proof.
  intros M chunks current line Hl Hc Hall. unfold step.
  pose proof (length_trim current) as Htc.
  assert (Hheader : Forall (sized (limit + 1 + M)) (chunks ++ [trim current])).
  { apply Forall_app. split; [exact Hall|].
    constructor; [unfold sized; lia | constructor]. }
  destruct (isHeader line && nonEmpty (trim current)).
  - match goal with |- context [(?a <? ?b)%nat] =>
      destruct (Nat.ltb_spec a b) as [Hover|Hfits] end; cbn [fst snd].
    + split; [simpl; lia|].
      apply Forall_app. split; [exact Hheader|].
      constructor; [|constructor]. unfold sized.
      pose proof (length_trim ("" ++ line ++ String EvalCodebase.newline "")) as Ht.
      rewrite !length_append in Ht. simpl String.length in Ht. lia.
    + split; [exact Hfits | exact Hheader].
  - match goal with |- context [(?a <? ?b)%nat] =>
      destruct (Nat.ltb_spec a b) as [Hover|Hfits] end; cbn [fst snd].
    + split; [simpl; lia|].
      apply Forall_app. split; [exact Hall|].
      constructor; [|constructor]. unfold sized.
      pose proof (length_trim (current ++ line ++ String EvalCodebase.newline ""))
        as Ht.
      rewrite !length_append in Ht. simpl String.length in Ht. lia.
    + split; [exact Hfits | exact Hall].
Qed.

Lemma fold_step_sizes : forall M lines chunks current,
  Forall (sized M) lines ->
  (String.length current <= limit)%nat ->
  Forall (sized (limit + 1 + M)) chunks ->
  (String.length (snd (fold_left (step isHeader limit) lines (chunks, current)))
   <= limit)%nat /\
  Forall (sized (limit + 1 + M))
    (fst (fold_left (step isHeader limit) lines (chunks, current))).
Proof.
  induction lines as [|line lines IH]; intros chunks current Hl Hc Hall;
    cbn [fold_left]; [split; assumption|].
  inversion Hl as [|? ? Hline Hrest]; subst.
  destruct (step_sizes M chunks current line Hline Hc Hall) as [Hc' Hall'].
  destruct (step isHeader limit (chunks, current) line) as [chunks' current'].
  apply IH; assumption.
Qed.

End Chunker.

Lemma longest_bounds : forall l, Forall (sized (longest l)) l.
Proof.
  induction l as [|x l IH]; constructor.
  - unfold sized. simpl. lia.
  - eapply Forall_impl; [|exact IH]. unfold sized. simpl. intros; lia.
Qed.

(** X15.  The chunks of a markdown text together are no longer than the
    text with its final line break: lines are never repeated in two
    chunks. *)
Theorem chunkMarkdown_total_length : forall isHeader limit md,
  (totalLength (chunkWith isHeader limit md) <= String.length md + 1)%nat.
Proof.
  intros isHeader limit md. unfold chunkWith.
  pose proof (totalLength_filter (fun c => (20 <? String.length c)%nat)
                (rawChunks isHeader limit md)).
  pose proof (rawChunks_total isHeader limit md). lia.
Qed.

(** X16.  Every chunk has more than 20 characters and at most the limit
    (300 or 400), one line break and the longest line of the text: a chunk
    is cut only after the line that takes it over the limit. *)
Theorem chunkMarkdown_sizes : forall isHeader limit md,
  Forall (fun c => (20 < String.length c
                    <= limit + 1 + longest (splitLines md))%nat)
    (chunkWith isHeader limit md).
Proof.
  intros isHeader limit md. unfold chunkWith. apply Forall_forall.
  intros c Hc. apply filter_In in Hc. destruct Hc as [Hin Hlen].
  apply Nat.ltb_lt in Hlen. split; [exact Hlen|].
  unfold rawChunks in Hin.
  destruct (fold_step_sizes isHeader limit (longest (splitLines md))
              (splitLines md) [] EmptyString (longest_bounds _))
    as [Hcur Hall]; [simpl; lia | constructor |].
  destruct (fold_left _ _ _) as [chunks current]. cbn [fst snd] in *.
  assert (Hraw : Forall (sized (limit + 1 + longest (splitLines md)))
                   (chunks ++ [trim current])).
  { apply Forall_app. split; [exact Hall|].
    constructor; [|constructor]. unfold sized.
    pose proof (length_trim current). lia. }
  destruct (nonEmpty (trim current)).
  - rewrite Forall_forall in Hraw. exact (Hraw c Hin).
  - rewrite Forall_forall in Hall. exact (Hall c Hin).
Qed.

Lemma isHeaderScale_honest : forall line,
  isHeaderScale line = isHeaderHonest line.
Proof.
  intros line. unfold isHeaderScale, isHeaderHonest, startsWith.
  destruct line as [|c line]; [reflexivity|].
  cbn [prefix]. destruct (ascii_dec "#" c) as [<-|Hc].
  - destruct line; reflexivity.
  - rewrite orb_false_r. reflexivity.
Qed.

Lemma chunkWith_ext : forall h1 h2 limit md,
  (forall line, h1 line = h2 line) ->
  chunkWith h1 limit md = chunkWith h2 limit md.
Proof.
  intros h1 h2 limit md Hh. unfold chunkWith, rawChunks.
  assert (Hfold : forall lines st,
            fold_left (step h1 limit) lines st
            = fold_left (step h2 limit) lines st).
  { induction lines as [|line lines IH]; intros st; [reflexivity|].
    cbn [fold_left]. rewrite IH. f_equal.
    destruct st as [chunks current]. unfold step. rewrite Hh. reflexivity. }
  rewrite Hfold. reflexivity.
Qed.

(** X23.  The chunkers of eval-scale.ts, eval-enron.ts and
    eval-enron-stress.ts cut a text where the chunker of eval-honest.ts
    cuts it when that is given their limit: the third test of their
    header condition, for a line that starts with '### ', never decides,
    as such a line starts with '#'. *)
Theorem chunkMarkdownScale_as_honest : forall md,
  chunkMarkdownScale md = chunkWith isHeaderHonest 400 md.
Proof.
  intros md. unfold chunkMarkdownScale.
  apply chunkWith_ext. exact isHeaderScale_honest.
Qed.

End MarkdownFacts.

(* ================================================================== *)
(** ** checkAnswer *)
(* ================================================================== *)

Module LettaFacts.
Import JsString LettaEval.

Lemma includes_empty : forall s, Js.includes s EmptyString = true.
Proof. intros [|c s]; reflexivity. Qed.

Lemma isWhiteSpace_lower : forall c,
  isWhiteSpace c = true -> toLowerChar c = c.
Proof.
  intros c H. unfold isWhiteSpace in H. unfold toLowerChar.
  revert H. generalize (nat_of_ascii c). intros n H.
  repeat (apply orb_prop in H; destruct H as [H|H]);
    apply Nat.eqb_eq in H; subst n; reflexivity.
Qed.

Lemma trimStart_lower : forall s,
  trimStart s = EmptyString -> trimStart (toLowerCase s) = EmptyString.
Proof.
  induction s as [|c s IH]; simpl; [reflexivity|].
  destruct (isWhiteSpace c) eqn:Hc; [|discriminate].
  intros H. rewrite (isWhiteSpace_lower c Hc), Hc. exact (IH H).
Qed.

Lemma trimEnd_inhabited : forall c s,
  isWhiteSpace c = false -> trimEnd (String c s) <> EmptyString.
Proof.
  intros c s Hc. simpl. destruct (trimEnd s); [rewrite Hc|]; discriminate.
Qed.

Lemma trimStart_head : forall s c t,
  trimStart s = String c t -> isWhiteSpace c = false.
Proof.
  induction s as [|d s IH]; intros c t H; simpl in H; [discriminate|].
  destruct (isWhiteSpace d) eqn:Hd; [exact (IH _ _ H)|].
  injection H as <- _. exact Hd.
Qed.

Lemma trim_blank : forall s, trim s = EmptyString -> trimStart s = EmptyString.
Proof.
  intros s H. unfold trim in H.
  destruct (trimStart s) as [|c t] eqn:Hs; [reflexivity|].
  exfalso. exact (trimEnd_inhabited c t (trimStart_head s c t Hs) H).
Qed.

(** X17.  The grader accepts a blank answer for every ground truth: the
    empty string is contained in every string. *)
Theorem checkAnswer_accepts_blank : forall answer groundTruth,
  trim answer = EmptyString -> checkAnswer answer groundTruth = true.
Proof.
  intros answer groundTruth H. unfold checkAnswer. cbv zeta.
  assert (Ha : trim (toLowerCase answer) = EmptyString).
  { unfold trim. rewrite (trimStart_lower answer (trim_blank answer H)).
    reflexivity. }
  rewrite Ha, includes_empty. apply orb_true_r.
Qed.

Lemma checkAnswer_accepts_blank_witness :
  checkAnswer "  " "Paris" = true.
Proof.
  apply (checkAnswer_accepts_blank "  " "Paris"). reflexivity.
Defined.

End LettaFacts.


(* ================================================================== *)
(** ** More judges, and the hour of a LOCOMO date *)
(* ================================================================== *)

Module OtherJudgeFacts.
Import Http JsMath JudgeFacts.

Lemma orZero_not_NaN : forall x, OpenAIJudge.orZero x <> Js.NaN.
Proof.
  intros [r|s|]; unfold OpenAIJudge.orZero; simpl;
    try destruct (negb _); discriminate.
Qed.

(** X18.  The judge of the OpenAI evaluation fails only when [callOpenAI]
    fails; a score it returns is a number between 0 and 1, never NaN: a
    score that does not parse counts as 0. *)
Theorem openai_scoreAnswer_unit : forall parseScore call,
  match OpenAIJudge.scoreAnswer parseScore call with
  | inr score => unit_score score
  | inl e => call = Thrown e
  end.
Proof.
  intros parseScore [result|e]; unfold OpenAIJudge.scoreAnswer; [|reflexivity].
  destruct (parseScore result) as [score|]; [|exact unit_score_zero].
  destruct (clamp01_cases (OpenAIJudge.orZero score)) as [[Hn _]|[_ Hu]];
    [exfalso; exact (orZero_not_NaN _ Hn) | exact Hu].
Qed.

Lemma clamp_max_first : forall x,
  (x = Js.NaN /\ min2 (Js.Fin 1) (max2 (Js.Fin 0) x) = Js.NaN) \/
  (x <> Js.NaN /\ unit_score (min2 (Js.Fin 1) (max2 (Js.Fin 0) x))).
Proof.
  intros [r|[|]|]; [right|right|right|left; split; reflexivity];
    (split; [discriminate|]); unfold unit_score; simpl.
  - eexists. split; [reflexivity|].
    split; [apply Rmin_glb; [lra | apply Rmax_l] | apply Rmin_l].
  - exists 1%R. split; [reflexivity | lra].
  - eexists. split; [reflexivity|].
    split; [apply Rmin_glb; lra | apply Rmin_l].
Qed.

(** X19.  [judgeRecall] never fails.  Its score is a number between 0 and
    1, and one half when the call fails or the answer has no SCORE line;
    it is NaN exactly when the digits and dots after SCORE do not make a
    number. *)
Theorem judgeRecall_score : forall matchScore call,
  (RecallJudge.judgeScore matchScore call = Js.NaN <->
   exists response, call = Returned response /\
                    matchScore response = Some Js.NaN) /\
  (RecallJudge.judgeScore matchScore call <> Js.NaN ->
   unit_score (RecallJudge.judgeScore matchScore call)) /\
  ((forall response, call = Returned response -> matchScore response = None) ->
   RecallJudge.judgeScore matchScore call = Js.Fin (1 / 2)).
Proof.
  intros matchScore call. unfold RecallJudge.judgeScore.
  assert (Hhalf : unit_score (Js.Fin (1 / 2))).
  { eexists. split; [reflexivity | lra]. }
  destruct call as [response|e].
  - destruct (matchScore response) as [x|] eqn:Hm.
    + destruct (clamp_max_first x) as [[-> Hc]|[Hn Hu]].
      * split; [|split].
        -- split; [intros _; exists response; split; [reflexivity | exact Hm]
                  | intros _; exact Hc].
        -- intros H. contradiction.
        -- intros H. specialize (H response eq_refl). rewrite Hm in H.
           discriminate.
      * split; [|split].
        -- split.
           ++ intros H. exfalso. exact (unit_score_not_NaN _ Hu H).
           ++ intros (r' & Hr & Hm'). injection Hr as <-.
              rewrite Hm in Hm'. injection Hm' as ->. contradiction.
        -- intros _. exact Hu.
        -- intros H. specialize (H response eq_refl). rewrite Hm in H.
           discriminate.
    + split; [|split; [intros _; exact Hhalf | reflexivity]].
      split; [discriminate|].
      intros (r' & Hr & Hm'). injection Hr as <-. rewrite Hm in Hm'.
      discriminate.
  - split; [|split; [intros _; exact Hhalf | reflexivity]].
    split; [discriminate|]. intros (r' & Hr & _). discriminate.
Qed.

End OtherJudgeFacts.

Module LocomoDateFacts.
Import LocomoDate.
Local Open Scope Z_scope.

(** X20.  For the hours 1 to 12 of the 12-hour clock, [parseLocomoDate]
    computes an hour from 0 to 23, different times give different hours,
    and every hour from 0 to 23 is reached: 12 am is 0 and 12 pm is 12. *)
Theorem hour24_bijective :
  (forall pm h, 1 <= h <= 12 -> 0 <= hour24 pm h <= 23) /\
  (forall pm h pm' h', 1 <= h <= 12 -> 1 <= h' <= 12 ->
     hour24 pm h = hour24 pm' h' -> pm = pm' /\ h = h') /\
  (forall H, 0 <= H <= 23 -> exists pm h, 1 <= h <= 12 /\ hour24 pm h = H).
Proof.
  assert (Hval : forall pm h, 1 <= h <= 12 ->
            hour24 pm h = if pm then (if h =? 12 then 12 else h + 12)
                          else (if h =? 12 then 0 else h)).
  { intros pm h Hh. unfold hour24. destruct pm; cbn [andb negb].
    - destruct (Z.ltb_spec h 12), (Z.eqb_spec h 12); try lia; reflexivity.
    - reflexivity. }
  split; [|split].
  - intros pm h Hh. rewrite Hval by exact Hh.
    destruct pm, (Z.eqb_spec h 12); lia.
  - intros pm h pm' h' Hh Hh'. rewrite !Hval by assumption.
    destruct pm, pm', (Z.eqb_spec h 12), (Z.eqb_spec h' 12); intros; split;
      try reflexivity; try lia.
  - intros H HH.
    destruct (Z.eq_dec H 0) as [->|H0]; [exists false, 12; split; [lia | reflexivity]|].
    destruct (Z_lt_le_dec H 12) as [Hlt|Hge].
    + exists false, H. split; [lia|]. rewrite Hval by lia.
      destruct (Z.eqb_spec H 12); [lia | reflexivity].
    + destruct (Z.eq_dec H 12) as [->|H12];
        [exists true, 12; split; [lia | reflexivity]|].
      exists true, (H - 12). split; [lia|]. rewrite Hval by lia.
      destruct (Z.eqb_spec (H - 12) 12); lia.
Qed.

Lemma hour24_bijective_witness :
  0 <= hour24 true 1 <= 23.
Proof.
  apply (proj1 hour24_bijective true 1). lia.
Defined.

End LocomoDateFacts.


(* ================================================================== *)
(** ** groupByFacts *)
(* ================================================================== *)

Module LettaGroupFacts.
Import LettaGroups.

Lemma get_push_same : forall key s groups,
  get key (push key s groups)
  = Some (match get key groups with Some g => g ++ [s] | None => [s] end).
Proof.
  intros key s. induction groups as [|[k g] rest IH]; simpl.
  - rewrite String.eqb_refl. reflexivity.
  - destruct (String.eqb k key) eqn:Hk; simpl; rewrite Hk; [reflexivity | exact IH].
Qed.

Lemma get_push_other : forall key key' s groups,
  key' <> key -> get key' (push key s groups) = get key' groups.
Proof.
  intros key key' s groups Hne.
  induction groups as [|[k g] rest IH]; simpl.
  - destruct (String.eqb_spec key key'); [congruence | reflexivity].
  - destruct (String.eqb_spec k key) as [->|Hk]; simpl.
    + destruct (String.eqb_spec key key'); [congruence | reflexivity].
    + rewrite IH. reflexivity.
Qed.

Lemma keys_push : forall key s groups,
  map fst (push key s groups)
  = match get key groups with
    | Some _ => map fst groups
    | None => map fst groups ++ [key]
    end.
Proof.
  intros key s. induction groups as [|[k g] rest IH]; simpl; [reflexivity|].
  destruct (String.eqb k key); simpl; [reflexivity|].
  rewrite IH. destruct (get key rest); reflexivity.
Qed.

Lemma get_None_keys : forall key groups,
  get key groups = None -> ~ In key (map fst groups).
Proof.
  intros key. induction groups as [|[k g] rest IH]; simpl; [tauto|].
  destruct (String.eqb_spec k key) as [->|Hk]; [discriminate|].
  intros H [Heq|Hin]; [congruence | exact (IH H Hin)].
Qed.

Lemma withKey_snoc : forall key samples s,
  withKey key (samples ++ [s])
  = withKey key samples
    ++ (if String.eqb (keyOf s) key then [sorted s] else []).
Proof.
  intros key samples s. unfold withKey.
  rewrite filter_app, map_app. simpl.
  destruct (String.eqb (keyOf s) key); reflexivity.
Qed.

Lemma groupByFacts_holds : forall samples,
  (forall key, get key (groupByFacts samples) = held key samples) /\
  NoDup (map fst (groupByFacts samples)).
Proof.
  unfold groupByFacts.
  induction samples as [|s samples IH] using rev_ind.
  - split; [reflexivity | constructor].
  - destruct IH as [Hget Hnodup]. rewrite fold_left_app. cbn [fold_left].
    set (groups := fold_left (fun groups s => push (keyOf s) (sorted s) groups)
                     samples []) in *.
    split.
    + intros key. unfold held. rewrite withKey_snoc.
      destruct (String.eqb_spec (keyOf s) key) as [<-|Hne].
      * rewrite get_push_same, Hget. unfold held.
        destruct (withKey (keyOf s) samples) as [|x g]; reflexivity.
      * rewrite get_push_other by congruence.
        rewrite Hget, app_nil_r. reflexivity.
    + rewrite keys_push.
      destruct (get (keyOf s) groups) eqn:Hk; [exact Hnodup|].
      apply NoDup_app; [exact Hnodup | repeat constructor; simpl; tauto |].
      intros k Hin [<-|[]]. exact (get_None_keys _ _ Hk Hin).
Qed.

(** X21.  [groupByFacts] splits the samples by their key: the map holds
    under a key exactly the samples with that key, in the order of the
    input and with their facts sorted, it holds nothing under a key
    without samples, and no key twice. *)
Theorem groupByFacts_partition : forall samples,
  (forall key, get key (groupByFacts samples) = held key samples) /\
  NoDup (map fst (groupByFacts samples)) /\
  (forall key g, get key (groupByFacts samples) = Some g -> g <> []).
Proof.
  intros samples. destruct (groupByFacts_holds samples) as [Hget Hnodup].
  split; [exact Hget|]. split; [exact Hnodup|].
  intros key g Hg. rewrite Hget in Hg. unfold held in Hg.
  destruct (withKey key samples); [discriminate|].
  injection Hg as <-. discriminate.
Qed.

Lemma sle_trans : forall x y z, sle x y -> sle y z -> sle x z.
Proof.
  unfold sle, String.leb. intros x y z Hxy Hyz.
  destruct (String.compare x y) eqn:Cxy; [| |discriminate];
    destruct (String.compare y z) eqn:Cyz; try discriminate.
  - pose proof (String.compare_eq_iff _ _ Cxy). subst y. rewrite Cyz. reflexivity.
  - pose proof (String.compare_eq_iff _ _ Cxy). subst y. rewrite Cyz. reflexivity.
  - pose proof (String.compare_eq_iff _ _ Cyz). subst z. rewrite Cxy. reflexivity.
  - apply OrderedTypeEx.String_as_OT.cmp_lt in Cxy, Cyz.
    pose proof (OrderedTypeEx.String_as_OT.lt_trans _ _ _ Cxy Cyz) as H.
    apply OrderedTypeEx.String_as_OT.cmp_lt in H.
    unfold OrderedTypeEx.String_as_OT.cmp in H. rewrite H. reflexivity.
Qed.

Lemma positive_defaultCompare : forall x y,
  Js.positive (defaultCompare x y) = negb (String.leb x y).
Proof.
  intros x y. unfold defaultCompare, String.leb.
  destruct (String.compare x y); simpl; unfold Js.is_pos;
    destruct (Rlt_dec _ _); try reflexivity; lra.
Qed.

Lemma insert_sorted_strings : forall x l,
  StronglySorted sle l -> StronglySorted sle (Js.insert defaultCompare x l).
Proof.
  intros x. induction l as [|y l IH]; intros Hs; simpl.
  - repeat constructor.
  - rewrite positive_defaultCompare.
    inversion Hs as [|? ? Hl Hy]; subst.
    destruct (String.leb x y) eqn:Hxy; simpl.
    + constructor; [exact Hs|]. constructor; [exact Hxy|].
      eapply Forall_impl; [|exact Hy]. intros z Hz.
      exact (sle_trans _ _ _ Hxy Hz).
    + constructor; [exact (IH Hl)|].
      assert (Hyx : sle y x).
      { destruct (String.leb_total x y) as [H|H]; [congruence | exact H]. }
      apply Forall_forall. intros z Hz.
      apply (Permutation_in _ (SortFacts.insert_perm defaultCompare x l)) in Hz.
      destruct Hz as [<-|Hz]; [exact Hyx|].
      rewrite Forall_forall in Hy. exact (Hy z Hz).
Qed.

Lemma sortStrings_sorted : forall l, StronglySorted sle (sortStrings l).
Proof.
  induction l as [|x l IH]; simpl; [constructor|].
  apply insert_sorted_strings. exact IH.
Qed.

Lemma sorted_perm_eq : forall l1 l2,
  StronglySorted sle l1 -> StronglySorted sle l2 -> Permutation l1 l2 ->
  l1 = l2.
Proof.
  induction l1 as [|x l1 IH]; intros l2 H1 H2 Hp.
  - apply Permutation_nil in Hp. subst. reflexivity.
  - destruct l2 as [|y l2];
      [apply Permutation_sym, Permutation_nil in Hp; discriminate|].
    inversion H1 as [|? ? Hs1 Hx]; subst.
    inversion H2 as [|? ? Hs2 Hy]; subst.
    assert (Hxy : x = y).
    { assert (Hin1 : In x (y :: l2))
        by (apply (Permutation_in _ Hp); left; reflexivity).
      assert (Hin2 : In y (x :: l1))
        by (apply (Permutation_in _ (Permutation_sym Hp)); left; reflexivity).
      destruct Hin1 as [->|Hin1]; [reflexivity|].
      destruct Hin2 as [->|Hin2]; [reflexivity|].
      rewrite Forall_forall in Hx, Hy.
      apply String.leb_antisym; [exact (Hx y Hin2) | exact (Hy x Hin1)]. }
    subst y. f_equal.
    apply IH; [exact Hs1 | exact Hs2 | exact (Permutation_cons_inv Hp)].
Qed.

(** X22.  Two samples whose facts are the same up to their order have the
    same key, and so share a group and a vault. *)
Theorem keyOf_permutation : forall a b,
  Permutation (facts a) (facts b) -> keyOf a = keyOf b.
Proof.
  intros a b Hp. unfold keyOf. f_equal.
  apply sorted_perm_eq; try apply sortStrings_sorted.
  unfold sortStrings.
  eapply Permutation_trans; [apply SortFacts.sort_perm|].
  eapply Permutation_trans; [exact Hp|].
  apply Permutation_sym, SortFacts.sort_perm.
Qed.

Lemma keyOf_permutation_witness :
  keyOf (mkSample "q1" ["b"; "a"; "c"]%string)
  = keyOf (mkSample "q2" ["c"; "b"; "a"]%string).
Proof.
  apply (keyOf_permutation (mkSample "q1" ["b"; "a"; "c"]%string)
           (mkSample "q2" ["c"; "b"; "a"]%string)).
  simpl.
  apply Permutation_trans with ["b"; "c"; "a"]%string;
    [apply perm_skip, perm_swap|].
  apply perm_swap.
Defined.

End LettaGroupFacts.
